(** * dad-bd: travel map with photo uploads and face tagging

    A shallow embedding of the TypeScript sources
    - [src/lib/storage.ts]          (document store and blob store client),
    - [src/lib/faceRecognition.ts]  (descriptor bookkeeping around face-api.js),
    - [src/types/trips.ts]          (the [usePhotoPreviews] and [useTripsData] hooks),
    - [src/components/CountryPanel.tsx] (upload normalisation, tag removal),
    followed by the properties of the specification proved about them.

    Conventions of the embedding.
    - A JavaScript string is a [string] holding its UTF-8 bytes (a string
      with a lone surrogate has none and is left out).  [trim] strips the
      white space and the line terminators of ECMAScript; [toUpperCase] maps
      the ASCII letters and takes the runtime's mapping of the other
      characters as a parameter; [toLowerCase], whose results are only
      compared with ASCII strings, acts on the ASCII range.
    - A [number] holding a count or a millisecond timestamp is a [Z]; a
      [number] holding a distance or a confidence is a [Qc]; where the
      code divides and multiplies sizes, the numbers are doubles.
    - A plain object used as a record of counts is the list of its own
      properties, read through [Object.prototype] where a key is not set.
    - An [async] function is a function into [result], or into [io] when it
      talks to the remote services: [Ok] for a resolved promise, [Err] for a
      rejected one.  Whether a remote call fails is scripted in the world.
    - React state is passed explicitly: a setter call is the returned state. *)

From Stdlib Require Import ZArith QArith Qround Qcanon String Ascii List Lia Permutation.
From Stdlib Require Import Sorted SpecFloat.
From stdpp Require Import base option list strings pretty gmap fin_maps.

Import ListNotations.
Local Open Scope string_scope.
Local Open Scope list_scope.
Local Open Scope Z_scope.

(** ** JavaScript runtime helpers *)

Module Js.

(** A rejected promise or a thrown exception carries a message. *)
Abbreviation error := string.

Inductive result (A : Type) : Type :=
| Ok (a : A)
| Err (e : error).
Arguments Ok {A} a.
Arguments Err {A} e.

Definition bind {A B} (r : result A) (k : A -> result B) : result B :=
  match r with
  | Ok a => k a
  | Err e => Err e
  end.

(** [xs.map(f)] where [f] may throw: the first exception aborts the map. *)
Fixpoint mapM {A B} (f : A -> result B) (xs : list A) : result (list B) :=
  match xs with
  | [] => Ok []
  | x :: xs' =>
      bind (f x) (fun y => bind (mapM f xs') (fun ys => Ok (y :: ys)))
  end.

Definition upperChar (c : ascii) : ascii :=
  let n := nat_of_ascii c in
  if ((97 <=? n)%nat && (n <=? 122)%nat)%bool then ascii_of_nat (n - 32) else c.

Definition lowerChar (c : ascii) : ascii :=
  let n := nat_of_ascii c in
  if ((65 <=? n)%nat && (n <=? 90)%nat)%bool then ascii_of_nat (n + 32) else c.

Fixpoint mapChars (f : ascii -> ascii) (s : string) : string :=
  match s with
  | EmptyString => EmptyString
  | String c s' => String (f c) (mapChars f s')
  end.

Definition toLowerCase : string -> string := mapChars lowerChar.

(** The bytes below 128 are the ASCII characters; the other bytes make up
    the UTF-8 forms of the other characters. *)
Definition isAscii (c : ascii) : bool := (nat_of_ascii c <? 128)%nat.

Section CaseMapping.

(** [upper run] is [run.toUpperCase()] for a run of characters
    outside ASCII.  The mapping of a string works character by character,
    so a string is mapped run by run. *)
Variable upper : string -> string.

Definition upperRun (run : string) : string :=
  if String.eqb run "" then "" else upper run.

(** [run] collects the characters outside ASCII read since the last
    ASCII character. *)
Fixpoint upperFrom (run : string) (s : string) : string :=
  match s with
  | EmptyString => upperRun run
  | String c s' =>
      if isAscii c
      then upperRun run +:+ String (upperChar c) (upperFrom "" s')
      else upperFrom (run +:+ String c "") s'
  end.

Definition toUpperCase (s : string) : string := upperFrom "" s.

End CaseMapping.

Definition ofBytes (bytes : list nat) : string :=
  fold_right (fun n s => String (ascii_of_nat n) s) "" bytes.

(** The UTF-8 forms of the characters [trim] strips, the WhiteSpace and
    LineTerminator characters of ECMAScript: U+0009 to U+000D, U+0020,
    U+00A0, U+1680, U+2000 to U+200A, U+2028, U+2029, U+202F, U+205F,
    U+3000 and U+FEFF. *)
Definition whiteSpace : list string :=
  List.map ofBytes
    [ [9]; [10]; [11]; [12]; [13]; [32]; [194; 160]; [225; 154; 128];
      [226; 128; 128]; [226; 128; 129]; [226; 128; 130]; [226; 128; 131];
      [226; 128; 132]; [226; 128; 133]; [226; 128; 134]; [226; 128; 135];
      [226; 128; 136]; [226; 128; 137]; [226; 128; 138];
      [226; 128; 168]; [226; 128; 169]; [226; 128; 175]; [226; 129; 159];
      [227; 128; 128]; [239; 187; 191] ]%nat.

(** [s] without its prefix [p], when it starts with [p]. *)
Fixpoint dropPrefix (p s : string) : option string :=
  match p, s with
  | EmptyString, _ => Some s
  | String a p', String b s' => if Ascii.eqb a b then dropPrefix p' s' else None
  | String _ _, EmptyString => None
  end.

(** [s] without the first character of [table] it starts with. *)
Fixpoint dropFirst (table : list string) (s : string) : option string :=
  match table with
  | [] => None
  | p :: table' =>
      match dropPrefix p s with
      | Some rest => Some rest
      | None => dropFirst table' s
      end
  end.

(** Drops leading characters of [table], at most [n] of them. *)
Fixpoint dropLeading (table : list string) (n : nat) (s : string) : string :=
  match n with
  | O => s
  | S n' =>
      match dropFirst table s with
      | Some rest => dropLeading table n' rest
      | None => s
      end
  end.

Definition trimStart (s : string) : string :=
  dropLeading whiteSpace (String.length s) s.

(** A character that ends a string is a character that starts the string
    read backwards. *)
Definition trimEnd (s : string) : string :=
  String.rev (dropLeading (List.map String.rev whiteSpace) (String.length s)
                          (String.rev s)).

Definition trim (s : string) : string := trimEnd (trimStart s).

(** [s.endsWith(suffix)] *)
Definition endsWith (s suffix : string) : bool :=
  let n := String.length s in
  let k := String.length suffix in
  (k <=? n)%nat && String.eqb (String.substring (n - k) k s) suffix.

(** Truthiness of a string: [!s] holds exactly for the empty string. *)
Definition truthy (s : string) : bool := negb (String.eqb s "").

(** [xs.sort(cmp)]: the sort is stable; [cmp a b <= 0] keeps [a] first. *)
Fixpoint insertBy {A} (cmp : A -> A -> Z) (x : A) (l : list A) : list A :=
  match l with
  | [] => [x]
  | y :: l' => if cmp x y <=? 0 then x :: y :: l' else y :: insertBy cmp x l'
  end.

Definition sortBy {A} (cmp : A -> A -> Z) (l : list A) : list A :=
  foldr (insertBy cmp) [] l.

(** [Math.round]: the nearest integer, halves rounded up. *)
Definition Math_round (x : Q) : Z := Qfloor (x + (1 # 2))%Q.

(** *** Numbers as doubles

    IEEE 754 binary64, with the operations rounding to nearest, ties to
    even. *)
Definition double : Type := spec_float.

(** The double nearest to an integer. *)
Definition Number (z : Z) : double := binary_normalize 53 1024 z 0 false.

Definition divide (x y : double) : double := SFdiv 53 1024 x y.

Definition times (x y : double) : double := SFmul 53 1024 x y.

(** [Math.min(x, y)] for [x] and [y] that are not both zero. *)
Definition Math_min (x y : double) : double :=
  match SFcompare x y with
  | Some Gt => y
  | Some _ => x
  | None => S754_nan
  end.

(** [Math.round(x)] of a double: no integer for a NaN or an infinity. *)
Definition roundNumber (x : double) : option Z :=
  match x with
  | S754_zero _ => Some 0
  | S754_finite s m e =>
      Some (Math_round (inject_Z (if s then Z.neg m else Z.pos m) * Qpower 2 e)%Q)
  | _ => None
  end.

(** *** A plain object [{}] used as a [Record<string, number>]

    Its prototype is [Object.prototype], so a key that is not set reads as
    the property of that name, if [Object.prototype] has one. *)

(** What a key holds once the object is only written by
    [o[k] = (o[k] || 0) + 1]: a number, or the text of the function
    [Object.prototype[origin]] followed by [ones] characters ['1']. *)
Inductive slot : Type :=
| Num (n : Z)
| Text (origin : string) (ones : nat).

(** The property names of [Object.prototype]. *)
Definition inheritedNames : list string :=
  [ "constructor"; "__defineGetter__"; "__defineSetter__"; "hasOwnProperty";
    "__lookupGetter__"; "__lookupSetter__"; "isPrototypeOf"; "propertyIsEnumerable";
    "toString"; "valueOf"; "__proto__"; "toLocaleString" ].

Definition isInherited (k : string) : bool :=
  existsb (String.eqb k) inheritedNames.

(** The own properties of the object, in the order of their creation. *)
Abbreviation properties := (list (string * slot)).

Definition getOwn (o : properties) (k : string) : option slot :=
  snd <$> List.find (fun kv => String.eqb kv.1 k) o.

(** Writes an own property: one that exists keeps its place. *)
Fixpoint setOwn (k : string) (v : slot) (o : properties) : properties :=
  match o with
  | [] => [(k, v)]
  | (k', v') :: rest =>
      if String.eqb k' k then (k', v) :: rest else (k', v') :: setOwn k v rest
  end.

(** [o[k] = (o[k] || 0) + 1].  A number is counted up and a string gets
    a ['1'] appended.  A key that is not set reads as 0 unless
    [Object.prototype] has it: then the sum is the text of that property
    followed by ['1'], which the assignment stores as an own property,
    except under ['__proto__'], whose setter ignores a string. *)
Definition increment (o : properties) (k : string) : properties :=
  match getOwn o k with
  | Some (Num n) => setOwn k (Num (n + 1)) o
  | Some (Text origin ones) => setOwn k (Text origin (S ones)) o
  | None =>
      if String.eqb k "__proto__" then o
      else if isInherited k then setOwn k (Text k 1) o
      else setOwn k (Num 1) o
  end.

(** The property holds a number. *)
Definition isNumber (kv : string * slot) : bool :=
  match kv.2 with
  | Num _ => true
  | Text _ _ => false
  end.

(** What [o[k] || 0] evaluates to. *)
Inductive held : Type :=
| HeldNumber (n : Z)
| HeldText (origin : string) (ones : nat)
| HeldInherited (name : string).

Definition getOrZero (o : properties) (k : string) : held :=
  match getOwn o k with
  | Some (Num n) => HeldNumber n
  | Some (Text origin ones) => HeldText origin ones
  | None => if isInherited k then HeldInherited k else HeldNumber 0
  end.

Definition digitValue (c : ascii) : option N :=
  let n := N_of_ascii c in
  if ((48 <=? n)%N && (n <=? 57)%N)%bool then Some (n - 48)%N else None.

Fixpoint digitsValue (acc : N) (s : string) : option N :=
  match s with
  | EmptyString => Some acc
  | String c s' =>
      match digitValue c with
      | Some d => digitsValue (acc * 10 + d)%N s'
      | None => None
      end
  end.

(** The array index a key is: a decimal numeral without leading zero of
    a number up to 2^32 - 2. *)
Definition arrayIndex (k : string) : option N :=
  match k with
  | EmptyString => None
  | String c rest =>
      if Ascii.eqb c "0" then (if String.eqb rest "" then Some 0%N else None)
      else match digitsValue 0 k with
           | Some n => if (n <=? 4294967294)%N then Some n else None
           | None => None
           end
  end.

Definition isArrayIndex (kv : string * slot) : bool :=
  match arrayIndex kv.1 with
  | Some _ => true
  | None => false
  end.

(** [Object.entries(o)]: the keys that are array indices in rising order,
    then the other keys in the order of their creation. *)
Definition entries (o : properties) : properties :=
  sortBy (fun a b => Z.of_N (default 0%N (arrayIndex a.1))
                     - Z.of_N (default 0%N (arrayIndex b.1)))
         (List.filter isArrayIndex o)
  ++ List.filter (fun kv => negb (isArrayIndex kv)) o.

End Js.

Export Js.

(** [x ← r; k] is [await]: a rejection of [r] rejects the whole body. *)
#[export] Instance result_ret : MRet result := fun A a => Ok a.
#[export] Instance result_bind : MBind result := fun A B k r => Js.bind r k.

(** ** Shared data types ([src/types/trips.ts], [src/lib/storage.ts]) *)

Module Types.

Record TripData := {
  countryName : string;
  iso2 : string;
  continent : string;
  year : string;
  cities : list string;
  notes : string;
  photos : list string;
  isHome : option bool;
}.

Record ProfileData := {
  title : string;
  subtitle : string;
}.

Record TripsJson := {
  profile : ProfileData;
  homeCountry : option string;
  visited : list TripData;
}.

Record Box := { x : Qc; y : Qc; width : Qc; height : Qc }.

Record FaceTag := {
  memberId : string;
  memberName : string;
  box : Box;
  confidence : option Qc;
}.

Record DetectedFaceData := {
  df_id : string;
  df_thumbnail : string;
  df_box : Box;
  descriptorString : string;
  assignedMemberId : option string;
  assignedMemberName : option string;
  suggestedMemberId : option string;
  suggestedMemberName : option string;
  df_confidence : option Qc;
}.

Record StoredPhoto := {
  id : string;
  countryIso : string;
  url : string;
  name : string;
  caption : string;
  faceTags : list FaceTag;
  detectedFaces : option (list DetectedFaceData);
  createdAt : Z;
}.

(** A [Float32Array]; its entries are read as exact rationals. *)
Abbreviation Descriptor := (list Qc).

(** [descriptorStrings] and [photoUrls] are absent in documents written
    by older versions, hence the [option]s although the interface declares
    them mandatory. *)
Record FamilyMember := {
  fm_id : string;
  fm_name : string;
  descriptorStrings : option (list string);
  photoUrls : option (list string);
  fm_createdAt : Z;
  descriptor : option Descriptor;
  descriptors : option (list Descriptor);
  photoUrl : option string;
}.

(** The browser's [File]: a name, a MIME type and the bytes. *)
Record File := {
  file_name : string;
  file_type : string;
  file_bytes : list Byte.byte;
}.

End Types.

Export Types.

(** ** [src/lib/storage.ts] *)

Module Storage.

(** *** Values handed to the Firestore SDK

    The fields of an object are its [Object.entries], in order; the keys
    of one object are distinct.  [VObject] is an object whose prototype is
    [Object.prototype], as an object literal and [JSON.parse] make it;
    [VObjectOf] is an object with another prototype. *)

#[local] Set Warnings "-register-all".

(** A prototype other than [Object.prototype]: [null], or an object. *)
Inductive prototype : Type :=
| NullPrototype
| CustomPrototype.

Inductive value : Type :=
| VUndefined
| VNull
| VBool (b : bool)
| VNumber (n : Qc)
| VString (s : string)
| VArray (items : list value)
| VObject (fields : list (string * value))
| VObjectOf (proto : prototype) (fields : list (string * value)).

Definition isUndefined (v : value) : bool :=
  match v with
  | VUndefined => true
  | _ => false
  end.

(** What [out.__proto__ = next] makes the prototype of [out]: the setter
    of [Object.prototype] takes an object or [null] and ignores any other
    value. *)
Definition prototypeFrom (next : value) : option prototype :=
  match next with
  | VNull => Some NullPrototype
  | VArray _ | VObject _ | VObjectOf _ _ => Some CustomPrototype
  | _ => None
  end.

(** [out] after the loop: its prototype when an assignment changed it,
    and its own properties. *)
Definition rebuilt (out : option prototype * list (string * value)) : value :=
  match out.1 with
  | None => VObject out.2
  | Some proto => VObjectOf proto out.2
  end.

(** [sanitizeForFirestore]: arrays are mapped and then filtered, objects
    are rebuilt key by key on a fresh [{}], every other value is returned
    as it is.  [out[k] = next] makes an own property, except for the key
    ['__proto__']: that assignment runs the setter of [Object.prototype]
    and makes no property. *)
Fixpoint sanitizeForFirestore (v : value) : value :=
  let assign :=
    fix assign (fs : list (string * value)) : option prototype * list (string * value) :=
      match fs with
      | [] => (None, [])
      | (k, v') :: fs' =>
          let next := sanitizeForFirestore v' in
          let out := assign fs' in
          if isUndefined next then out
          else if String.eqb k "__proto__" then
            (match out.1 with
             | Some later => Some later
             | None => prototypeFrom next
             end, out.2)
          else (out.1, (k, next) :: out.2)
      end in
  match v with
  | VArray items =>
      VArray (List.filter (fun v' => negb (isUndefined v'))
                          (List.map sanitizeForFirestore items))
  | VObject fields => rebuilt (assign fields)
  | VObjectOf _ fields => rebuilt (assign fields)
  | _ => v
  end.

(** [undefined] occurs in [v]: [v] is [undefined], or an entry of an array
    or the value of a key, at any depth, is. *)
Fixpoint hasUndefined (v : value) : bool :=
  match v with
  | VUndefined => true
  | VArray items => existsb hasUndefined items
  | VObject fields => existsb (fun kv => hasUndefined (snd kv)) fields
  | VObjectOf _ fields => existsb (fun kv => hasUndefined (snd kv)) fields
  | _ => false
  end.


(** An object with a prototype that is neither [Object.prototype] nor
    [null] occurs in [v]. *)
Fixpoint hasCustomPrototype (v : value) : bool :=
  match v with
  | VArray items => existsb hasCustomPrototype items
  | VObject fields => existsb (fun kv => hasCustomPrototype (snd kv)) fields
  | VObjectOf NullPrototype fields =>
      existsb (fun kv => hasCustomPrototype (snd kv)) fields
  | VObjectOf CustomPrototype _ => true
  | _ => false
  end.

(** What the SDK accepts as document data: a plain object without
    [undefined] ("Firestore does not allow `undefined` values anywhere")
    in which every object is plain; it refuses an object with another
    prototype as a custom object. *)
Definition validDocument (v : value) : bool :=
  match v with
  | VObject _ | VObjectOf NullPrototype _ =>
      negb (hasUndefined v) && negb (hasCustomPrototype v)
  | _ => false
  end.

(** *** The remote services

    [pending] scripts the transport: each remote call consumes one entry,
    and [Some e] makes that call reject with [e].  A call made when the
    script is exhausted goes through. *)

Abbreviation fault := (option error).

Record World := {
  tripsConfig : option TripsJson;          (* document trips/config *)
  photoDocs : gmap string StoredPhoto;     (* collection photos *)
  familyDocs : gmap string FamilyMember;   (* collection familyMembers *)
  objects : gmap string File;              (* the blob store, by path *)
  urlOf : string -> string;                (* download URL of a path *)
  pending : list fault;
}.

Definition with_pending (fs : list fault) (w : World) : World :=
  {| tripsConfig := tripsConfig w; photoDocs := photoDocs w;
     familyDocs := familyDocs w; objects := objects w; urlOf := urlOf w;
     pending := fs |}.

Definition with_tripsConfig (t : option TripsJson) (w : World) : World :=
  {| tripsConfig := t; photoDocs := photoDocs w;
     familyDocs := familyDocs w; objects := objects w; urlOf := urlOf w;
     pending := pending w |}.

Definition with_photoDocs (d : gmap string StoredPhoto) (w : World) : World :=
  {| tripsConfig := tripsConfig w; photoDocs := d;
     familyDocs := familyDocs w; objects := objects w; urlOf := urlOf w;
     pending := pending w |}.

Definition with_objects (o : gmap string File) (w : World) : World :=
  {| tripsConfig := tripsConfig w; photoDocs := photoDocs w;
     familyDocs := familyDocs w; objects := o; urlOf := urlOf w;
     pending := pending w |}.

(** An [async] function over the remote services. *)
Definition io (A : Type) : Type := World -> World * result A.

#[export] Instance io_ret : MRet io := fun A a w => (w, Ok a).
#[export] Instance io_bind : MBind io := fun A B k m w =>
  match m w with
  | (w', Ok a) => k a w'
  | (w', Err e) => (w', Err e)
  end.

Definition throw {A} (e : error) : io A := fun w => (w, Err e).

(** [try { body } catch (error) { handler }] *)
Definition tryCatch {A} (body : io A) (handler : error -> io A) : io A :=
  fun w =>
    match body w with
    | (w', Ok a) => (w', Ok a)
    | (w', Err e) => handler e w'
    end.

(** One round trip: it fails as scripted, otherwise [act] runs. *)
Definition remote {A} (act : io A) : io A :=
  fun w =>
    match pending w with
    | Some e :: rest => (with_pending rest w, Err e)
    | None :: rest => act (with_pending rest w)
    | [] => act w
    end.

(** [getDoc(doc(db, 'trips', 'config'))]: [None] when [!docSnap.exists()]. *)
Definition getDoc_trips : io (option TripsJson) :=
  remote (fun w => (w, Ok (tripsConfig w))).

(** [setDoc(docRef, payload)]: the SDK validates [payload]; [data] is the
    document as later reads see it. *)
Definition setDoc_trips (payload : value) (data : TripsJson) : io unit :=
  remote (fun w =>
    if validDocument payload
    then (with_tripsConfig (Some data) w, Ok ())
    else (w, Err "invalid-argument")).

(** [getDocs(collection(db, 'photos'))] with [forEach ... push(doc.data())]. *)
Definition getDocs_photos : io (list StoredPhoto) :=
  remote (fun w => (w, Ok (snd <$> map_to_list (photoDocs w)))).

(** [getDocs(query(collection(db, 'photos'), where('countryIso', '==', iso)))] *)
Definition getDocs_photos_where (iso : string) : io (list StoredPhoto) :=
  remote (fun w =>
    (w, Ok (List.filter (fun p => String.eqb (countryIso p) iso)
                        (snd <$> map_to_list (photoDocs w))))).

Definition setDoc_photo (photoId : string) (payload : value) (photo : StoredPhoto)
  : io unit :=
  remote (fun w =>
    if validDocument payload
    then (with_photoDocs (<[photoId := photo]> (photoDocs w)) w, Ok ())
    else (w, Err "invalid-argument")).

(** [updateDoc] rejects when the document does not exist. *)
Definition updateDoc_photo (photoId : string) (payload : value)
    (upd : StoredPhoto -> StoredPhoto) : io unit :=
  remote (fun w =>
    if validDocument payload
    then match photoDocs w !! photoId with
         | Some p => (with_photoDocs (<[photoId := upd p]> (photoDocs w)) w, Ok ())
         | None => (w, Err "not-found")
         end
    else (w, Err "invalid-argument")).

Definition deleteDoc_photo (photoId : string) : io unit :=
  remote (fun w => (with_photoDocs (delete photoId (photoDocs w)) w, Ok ())).

Definition uploadBytes (path : string) (file : File) : io unit :=
  remote (fun w => (with_objects (<[path := file]> (objects w)) w, Ok ())).

Definition getDownloadURL (path : string) : io string :=
  remote (fun w =>
    match objects w !! path with
    | Some _ => (w, Ok (urlOf w path))
    | None => (w, Err "storage/object-not-found")
    end).

(** [deleteObject] rejects when there is no object at [path]. *)
Definition deleteObject (path : string) : io unit :=
  remote (fun w =>
    match objects w !! path with
    | Some _ => (with_objects (delete path (objects w)) w, Ok ())
    | None => (w, Err "storage/object-not-found")
    end).

(** *** Object literals as the SDK receives them

    An optional field that is not set is a key holding [undefined]. *)

Definition vOpt {A} (f : A -> value) (o : option A) : value :=
  match o with
  | Some a => f a
  | None => VUndefined
  end.

Definition vInt (z : Z) : value := VNumber (Q2Qc (inject_Z z)).

Definition vStrings (l : list string) : value := VArray (VString <$> l).

Definition boxValue (b : Box) : value :=
  VObject [("x", VNumber (x b)); ("y", VNumber (y b));
           ("width", VNumber (width b)); ("height", VNumber (height b))].

Definition faceTagValue (t : FaceTag) : value :=
  VObject [("memberId", VString (memberId t));
           ("memberName", VString (memberName t));
           ("box", boxValue (box t));
           ("confidence", vOpt VNumber (confidence t))].

Definition detectedFaceValue (f : DetectedFaceData) : value :=
  VObject [("id", VString (df_id f));
           ("thumbnail", VString (df_thumbnail f));
           ("box", boxValue (df_box f));
           ("descriptorString", VString (descriptorString f));
           ("assignedMemberId", vOpt VString (assignedMemberId f));
           ("assignedMemberName", vOpt VString (assignedMemberName f));
           ("suggestedMemberId", vOpt VString (suggestedMemberId f));
           ("suggestedMemberName", vOpt VString (suggestedMemberName f));
           ("confidence", vOpt VNumber (df_confidence f))].

Definition faceTagsValue (ts : list FaceTag) : value :=
  VArray (faceTagValue <$> ts).

Definition detectedFacesValue (fs : list DetectedFaceData) : value :=
  VArray (detectedFaceValue <$> fs).

Definition storedPhotoValue (p : StoredPhoto) : value :=
  VObject [("id", VString (id p));
           ("countryIso", VString (countryIso p));
           ("url", VString (url p));
           ("name", VString (name p));
           ("caption", VString (caption p));
           ("faceTags", faceTagsValue (faceTags p));
           ("detectedFaces", vOpt detectedFacesValue (detectedFaces p));
           ("createdAt", vInt (createdAt p))].

Definition tripValue (t : TripData) : value :=
  VObject [("countryName", VString (countryName t));
           ("iso2", VString (iso2 t));
           ("continent", VString (continent t));
           ("year", VString (year t));
           ("cities", vStrings (cities t));
           ("notes", VString (notes t));
           ("photos", vStrings (photos t));
           ("isHome", vOpt VBool (isHome t))].

Definition tripsJsonValue (d : TripsJson) : value :=
  VObject [("profile", VObject [("title", VString (title (profile d)));
                                ("subtitle", VString (subtitle (profile d)))]);
           ("homeCountry", vOpt VString (homeCountry d));
           ("visited", VArray (tripValue <$> visited d))].

(** *** Trips data *)

Definition getTripsData : io (option TripsJson) :=
  tryCatch
    (docSnap ← getDoc_trips;
     match docSnap with
     | Some data => mret (Some data)
     | None => mret None
     end)
    (fun _ => mret None).

Definition saveTripsData (data : TripsJson) : io unit :=
  tryCatch
    (setDoc_trips (sanitizeForFirestore (tripsJsonValue data)) data)
    (fun e => throw e).

Definition with_notes (n : string) (t : TripData) : TripData :=
  {| countryName := countryName t; iso2 := iso2 t; continent := continent t;
     year := year t; cities := cities t; notes := n; photos := photos t;
     isHome := isHome t |}.

Definition with_visited (v : list TripData) (d : TripsJson) : TripsJson :=
  {| profile := profile d; homeCountry := homeCountry d; visited := v |}.

Definition updateTripNotes (iso : string) (n : string) : io unit :=
  tryCatch
    (data ← getTripsData;
     match data with
     | None => mret ()
     | Some d =>
         let updatedVisited :=
           (fun trip => if String.eqb (iso2 trip) iso then with_notes n trip else trip)
             <$> visited d in
         saveTripsData (with_visited updatedVisited d)
     end)
    (fun e => throw e).

(** *** Photos *)

Definition with_caption (c : string) (p : StoredPhoto) : StoredPhoto :=
  {| id := id p; countryIso := countryIso p; url := url p; name := name p;
     caption := c; faceTags := faceTags p; detectedFaces := detectedFaces p;
     createdAt := createdAt p |}.

Definition with_faceTags (ts : list FaceTag) (p : StoredPhoto) : StoredPhoto :=
  {| id := id p; countryIso := countryIso p; url := url p; name := name p;
     caption := caption p; faceTags := ts; detectedFaces := detectedFaces p;
     createdAt := createdAt p |}.

Definition with_detectedFaces (fs : list DetectedFaceData) (p : StoredPhoto)
  : StoredPhoto :=
  {| id := id p; countryIso := countryIso p; url := url p; name := name p;
     caption := caption p; faceTags := faceTags p; detectedFaces := Some fs;
     createdAt := createdAt p |}.

(** [savePhoto]; [t_id] and [t_created] are the two readings of
    [Date.now()], [rnd] the nine characters drawn from [Math.random()]. *)
Definition savePhoto (t_id : Z) (rnd : string) (t_created : Z)
    (iso : string) (file : File) (cap : string)
    (tags : list FaceTag) (faces : list DetectedFaceData) : io StoredPhoto :=
  let photoId := iso +:+ "-" +:+ pretty t_id +:+ "-" +:+ rnd in
  tryCatch
    (let storageRef := "photos/" +:+ photoId in
     uploadBytes storageRef file;;
     link ← getDownloadURL storageRef;
     let photo :=
       {| id := photoId; countryIso := iso; url := link; name := file_name file;
          caption := cap; faceTags := tags; detectedFaces := Some faces;
          createdAt := t_created |} in
     setDoc_photo photoId (sanitizeForFirestore (storedPhotoValue photo)) photo;;
     mret photo)
    (fun e => throw e).

Definition updatePhotoCaption (photoId : string) (cap : string) : io unit :=
  tryCatch
    (updateDoc_photo photoId
       (sanitizeForFirestore (VObject [("caption", VString cap)]))
       (with_caption cap))
    (fun e => throw e).

Definition updatePhotoFaceTags (photoId : string) (tags : list FaceTag) : io unit :=
  tryCatch
    (updateDoc_photo photoId
       (sanitizeForFirestore (VObject [("faceTags", faceTagsValue tags)]))
       (with_faceTags tags))
    (fun e => throw e).

Definition updatePhotoDetectedFaces (photoId : string)
    (faces : list DetectedFaceData) : io unit :=
  tryCatch
    (updateDoc_photo photoId
       (sanitizeForFirestore (VObject [("detectedFaces", detectedFacesValue faces)]))
       (with_detectedFaces faces))
    (fun e => throw e).

Definition getPhotosForCountry (iso : string) : io (list StoredPhoto) :=
  tryCatch
    (photos ← getDocs_photos_where iso;
     mret (sortBy (fun a b => createdAt a - createdAt b) photos))
    (fun _ => mret []).

Definition deletePhoto (photoId : string) : io unit :=
  tryCatch
    (let storageRef := "photos/" +:+ photoId in
     deleteObject storageRef;;
     deleteDoc_photo photoId)
    (fun e => throw e).

Definition getAllPhotos : io (list StoredPhoto) :=
  tryCatch
    (photos ← getDocs_photos;
     mret photos)
    (fun _ => mret []).

End Storage.

Export Storage.

(** ** [src/lib/faceRecognition.ts] *)

Module FaceRecognition.

(** [DetectedFace]: a detection, and the match once [matchFaces] found one. *)
Record DetectedFace := {
  face_descriptor : Descriptor;
  face_box : Box;
  matchedMember : option FamilyMember;
  face_confidence : option Qc;
}.

Record LabeledFaceDescriptors := {
  label : string;
  lfd_descriptors : list Descriptor;
}.

Record FaceMatch := {
  match_label : string;
  distance : Qc;
}.

Definition MATCH_THRESHOLD : Qc := Q2Qc (55 # 100).

(** A promise of a pure computation. *)
Definition liftResult {A} (r : result A) : io A := fun w => (w, r).

Definition getDocs_family : io (list FamilyMember) :=
  remote (fun w => (w, Ok (snd <$> map_to_list (familyDocs w)))).

(** [`family-${Date.now()}-${Math.random().toString(36).substr(2, 9)}`],
    the id [createFamilyMember] and [saveFamilyMember] give a member. *)
Definition familyId (t_id : Z) (rnd : string) : string :=
  "family-" +:+ pretty t_id +:+ "-" +:+ rnd.

Section Library.

(** The runtime and the face-api.js library are not part of the
    repository; what is used of them is taken as parameters.
    - [localeCompare a b] is [a.localeCompare(b)];
    - [JSON_parse s] is [new Float32Array(JSON.parse(s))], [Err] when
      [JSON.parse] throws;
    - [fround x] is [Math.fround(x)], the single-precision number a
      [Float32Array] stores for [x];
    - [labelDistance query refs] is the distance the library's matcher
      computes between a query descriptor and the reference descriptors of
      one label, [Err] when it throws. *)
Variable localeCompare : string -> string -> Z.
Variable JSON_parse : string -> result Descriptor.
Variable fround : Qc -> Qc.
Variable labelDistance : Descriptor -> list Descriptor -> result Qc.

(** [new Float32Array(d)] for an array of numbers [d]. *)
Definition Float32Array (d : list Qc) : Descriptor := fround <$> d.

(** Modelled from the spec: face-api.js' [FaceMatcher] is an imported
    library, not under src/.  Of two candidate labels the one at the
    smaller distance is the better match. *)
Definition betterMatch (best curr : FaceMatch) : FaceMatch :=
  if Qclt_le_dec (distance best) (distance curr) then best else curr.

(** Modelled from the spec: face-api.js' [FaceMatcher] is an imported
    library, not under src/.  "Given labeled reference descriptor sets ...
    find the best-matching label": every label gets its distance to the
    query, the least one wins; the matcher is never built without labels. *)
Definition matchDescriptor (lds : list LabeledFaceDescriptors) (query : Descriptor)
  : result FaceMatch :=
  ms ← mapM (fun ld =>
               d ← labelDistance query (lfd_descriptors ld);
               Ok {| match_label := label ld; distance := d |}) lds;
  match ms with
  | [] => Err "FaceMatcher: expected at least one input"
  | m :: ms' => Ok (fold_left betterMatch ms' m)
  end.

(** Modelled from the spec: face-api.js' [FaceMatcher] is an imported
    library, not under src/.  "... and a distance threshold, find the
    best-matching label (or none)": by the comment above [MATCH_THRESHOLD]
    "a match happens when distance <= threshold"; none is the label
    ['unknown'], which [matchFaces] tests for. *)
Definition findBestMatch (lds : list LabeledFaceDescriptors) (threshold : Qc)
    (query : Descriptor) : result FaceMatch :=
  best ← matchDescriptor lds query;
  Ok (if Qclt_le_dec threshold (distance best)
      then {| match_label := "unknown"; distance := distance best |}
      else best).

(** [getMemberDescriptors]: the three stored formats, newest first. *)
Definition getMemberDescriptors (member : FamilyMember) : result (list Descriptor) :=
  match descriptorStrings member with
  | Some (s :: ss) => mapM JSON_parse (s :: ss)
  | _ =>
      match descriptors member with
      | Some (d :: ds) => Ok (Float32Array <$> d :: ds)
      | _ =>
          match descriptor member with
          | Some d => Ok [Float32Array d]
          | None => Ok []
          end
      end
  end.

(** The loop body of [getTrainingDescriptorsFromTaggedPhotos] for one
    face: skipped without an assignment or a descriptor string, and
    skipped when the string does not parse. *)
Definition trainingOfFace (f : DetectedFaceData) : list (string * Descriptor) :=
  match assignedMemberId f with
  | Some mid =>
      if truthy mid && truthy (descriptorString f) then
        match JSON_parse (descriptorString f) with
        | Ok d => [(mid, d)]
        | Err _ => []
        end
      else []
  | None => []
  end.

Definition trainingOfPhotos (photos : list StoredPhoto) : list (string * Descriptor) :=
  p ← photos; f ← default [] (detectedFaces p); trainingOfFace f.

Definition getTrainingDescriptorsFromTaggedPhotos : io (list (string * Descriptor)) :=
  tryCatch
    (photos ← getAllPhotos;
     mret (trainingOfPhotos photos))
    (fun _ => mret []).

Definition getFamilyMembers : io (list FamilyMember) :=
  tryCatch
    (members ← getDocs_family;
     mret (sortBy (fun a b => localeCompare (fm_name a) (fm_name b)) members))
    (fun _ => mret []).

(** [byMember]: the [Map] from member id to the descriptors pushed for it. *)
Definition groupByMember (training : list (string * Descriptor))
  : gmap string (list Descriptor) :=
  fold_left (fun byMember t => <[t.1 := default [] (byMember !! t.1) ++ [t.2]]> byMember)
            training ∅.

Definition labeledOfMember (byMember : gmap string (list Descriptor))
    (member : FamilyMember) : result LabeledFaceDescriptors :=
  let fromPhotos := default [] (byMember !! fm_id member) in
  fallback ← getMemberDescriptors member;
  let combined := if (0 <? length fromPhotos)%nat then fromPhotos else fallback in
  Ok {| label := fm_id member; lfd_descriptors := combined |}.

(** [labeledDescriptors] of [matchFaces]: the [map] followed by the [filter]. *)
Definition labeledDescriptorsOf (training : list (string * Descriptor))
    (familyMembers : list FamilyMember) : result (list LabeledFaceDescriptors) :=
  lds ← mapM (labeledOfMember (groupByMember training)) familyMembers;
  Ok (List.filter (fun ld => (0 <? length (lfd_descriptors ld))%nat) lds).

Definition matchOne (familyMembers : list FamilyMember)
    (lds : list LabeledFaceDescriptors) (face : DetectedFace) : result DetectedFace :=
  m ← findBestMatch lds MATCH_THRESHOLD (face_descriptor face);
  if negb (String.eqb (match_label m) "unknown") then
    Ok {| face_descriptor := face_descriptor face;
          face_box := face_box face;
          matchedMember :=
            List.find (fun fm => String.eqb (fm_id fm) (match_label m)) familyMembers;
          face_confidence := Some (1 - distance m)%Qc |}
  else Ok face.

Definition matchFaces (detected : list DetectedFace) : io (list DetectedFace) :=
  familyMembers ← getFamilyMembers;
  if (length familyMembers =? 0)%nat then mret detected else
  training ← getTrainingDescriptorsFromTaggedPhotos;
  labeledDescriptors ← liftResult (labeledDescriptorsOf training familyMembers);
  if (length labeledDescriptors =? 0)%nat then mret detected else
  liftResult (mapM (matchOne familyMembers labeledDescriptors) detected).

End Library.

End FaceRecognition.

(** ** [src/types/trips.ts]: the [usePhotoPreviews] hook *)

Module PhotoPreviews.

Record PreviewEntry := {
  pe_url : string;
  pe_createdAt : Z;
  pe_count : Z;
}.

Section CaseMapping.

(** The runtime's upper-case mapping of the characters outside ASCII. *)
Variable upper : string -> string.

(** [(v || '').trim().toUpperCase()].  The keys under which [byIso] is read
    and written are results of it: an upper-cased string holds no small
    letter of ASCII, which every property name of [Object.prototype] does,
    so that [byIso], a plain object, is read and written as a map. *)
Definition normalizeIso2 (v : string) : string := toUpperCase upper (trim v).

(** One iteration of the loop of [rebuildFromPhotos] over [next]. *)
Definition rebuildStep (next : gmap string PreviewEntry) (p : StoredPhoto)
  : gmap string PreviewEntry :=
  let iso := normalizeIso2 (countryIso p) in
  if negb (truthy iso) then next else
  let current := next !! iso in
  let entry :=
    match current with
    | Some c => {| pe_url := pe_url c; pe_createdAt := pe_createdAt c;
                   pe_count := pe_count c + 1 |}
    | None => {| pe_url := url p; pe_createdAt := createdAt p; pe_count := 1 |}
    end in
  (* Keep the latest photo as the preview image *)
  let later :=
    match current with
    | Some c => pe_createdAt c <? createdAt p
    | None => true
    end in
  let entry :=
    if later
    then {| pe_url := url p; pe_createdAt := createdAt p; pe_count := pe_count entry |}
    else entry in
  <[iso := entry]> next.

(** [rebuildFromPhotos]: the state [byIso] it sets. *)
Definition rebuildFromPhotos (photos : list StoredPhoto) : gmap string PreviewEntry :=
  fold_left rebuildStep photos ∅.

(** [registerPhoto]: the state [byIso] after the functional update of [prev]. *)
Definition registerPhoto (photo : StoredPhoto) (prev : gmap string PreviewEntry)
  : gmap string PreviewEntry :=
  let iso := normalizeIso2 (countryIso photo) in
  if negb (truthy iso) then prev else
  let current := prev !! iso in
  let nextEntry :=
    match current with
    | Some c => {| pe_url := pe_url c; pe_createdAt := pe_createdAt c;
                   pe_count := pe_count c + 1 |}
    | None => {| pe_url := url photo; pe_createdAt := createdAt photo; pe_count := 1 |}
    end in
  let later :=
    match current with
    | Some c => pe_createdAt c <=? createdAt photo
    | None => true
    end in
  let nextEntry :=
    if later
    then {| pe_url := url photo; pe_createdAt := createdAt photo;
            pe_count := pe_count nextEntry |}
    else nextEntry in
  <[iso := nextEntry]> prev.

End CaseMapping.

Definition photoPreviews (byIso : gmap string PreviewEntry) : gmap string string :=
  pe_url <$> byIso.

Definition photoCounts (byIso : gmap string PreviewEntry) : gmap string Z :=
  pe_count <$> byIso.

End PhotoPreviews.

(** ** [src/types/trips.ts]: the [useTripsData] hook *)

Module TripsData.

Definition TOTAL_COUNTRIES_IN_WORLD : Z := 195.

Record Country := {
  c_name : string;
  c_iso2 : string;
  c_continent : string;
}.

Definition ALL_COUNTRIES : list Country :=
  [ {| c_name := "Afghanistan"; c_iso2 := "AF"; c_continent := "Asia" |};
    {| c_name := "Albania"; c_iso2 := "AL"; c_continent := "Europe" |};
    {| c_name := "Algeria"; c_iso2 := "DZ"; c_continent := "Africa" |};
    {| c_name := "Andorra"; c_iso2 := "AD"; c_continent := "Europe" |};
    {| c_name := "Angola"; c_iso2 := "AO"; c_continent := "Africa" |};
    {| c_name := "Argentina"; c_iso2 := "AR"; c_continent := "South America" |};
    {| c_name := "Armenia"; c_iso2 := "AM"; c_continent := "Asia" |};
    {| c_name := "Australia"; c_iso2 := "AU"; c_continent := "Oceania" |};
    {| c_name := "Austria"; c_iso2 := "AT"; c_continent := "Europe" |};
    {| c_name := "Azerbaijan"; c_iso2 := "AZ"; c_continent := "Asia" |};
    {| c_name := "Belgium"; c_iso2 := "BE"; c_continent := "Europe" |};
    {| c_name := "Brazil"; c_iso2 := "BR"; c_continent := "South America" |};
    {| c_name := "Canada"; c_iso2 := "CA"; c_continent := "North America" |};
    {| c_name := "China"; c_iso2 := "CN"; c_continent := "Asia" |};
    {| c_name := "Colombia"; c_iso2 := "CO"; c_continent := "South America" |};
    {| c_name := "Czechia"; c_iso2 := "CZ"; c_continent := "Europe" |};
    {| c_name := "Denmark"; c_iso2 := "DK"; c_continent := "Europe" |};
    {| c_name := "Ecuador"; c_iso2 := "EC"; c_continent := "South America" |};
    {| c_name := "Estonia"; c_iso2 := "EE"; c_continent := "Europe" |};
    {| c_name := "Ethiopia"; c_iso2 := "ET"; c_continent := "Africa" |};
    {| c_name := "Finland"; c_iso2 := "FI"; c_continent := "Europe" |};
    {| c_name := "France"; c_iso2 := "FR"; c_continent := "Europe" |};
    {| c_name := "Georgia"; c_iso2 := "GE"; c_continent := "Asia" |};
    {| c_name := "Germany"; c_iso2 := "DE"; c_continent := "Europe" |};
    {| c_name := "Hong Kong"; c_iso2 := "HK"; c_continent := "Asia" |};
    {| c_name := "Hungary"; c_iso2 := "HU"; c_continent := "Europe" |};
    {| c_name := "India"; c_iso2 := "IN"; c_continent := "Asia" |};
    {| c_name := "Indonesia"; c_iso2 := "ID"; c_continent := "Asia" |};
    {| c_name := "Israel"; c_iso2 := "IL"; c_continent := "Asia" |};
    {| c_name := "Italy"; c_iso2 := "IT"; c_continent := "Europe" |};
    {| c_name := "Jordan"; c_iso2 := "JO"; c_continent := "Asia" |};
    {| c_name := "Kazakhstan"; c_iso2 := "KZ"; c_continent := "Asia" |};
    {| c_name := "Kyrgyzstan"; c_iso2 := "KG"; c_continent := "Asia" |};
    {| c_name := "Malaysia"; c_iso2 := "MY"; c_continent := "Asia" |};
    {| c_name := "Mexico"; c_iso2 := "MX"; c_continent := "North America" |};
    {| c_name := "Nigeria"; c_iso2 := "NG"; c_continent := "Africa" |};
    {| c_name := "Norway"; c_iso2 := "NO"; c_continent := "Europe" |};
    {| c_name := "Paraguay"; c_iso2 := "PY"; c_continent := "South America" |};
    {| c_name := "Poland"; c_iso2 := "PL"; c_continent := "Europe" |};
    {| c_name := "Portugal"; c_iso2 := "PT"; c_continent := "Europe" |};
    {| c_name := "Romania"; c_iso2 := "RO"; c_continent := "Europe" |};
    {| c_name := "Russia"; c_iso2 := "RU"; c_continent := "Europe" |};
    {| c_name := "Singapore"; c_iso2 := "SG"; c_continent := "Asia" |};
    {| c_name := "South Africa"; c_iso2 := "ZA"; c_continent := "Africa" |};
    {| c_name := "Spain"; c_iso2 := "ES"; c_continent := "Europe" |};
    {| c_name := "Sweden"; c_iso2 := "SE"; c_continent := "Europe" |};
    {| c_name := "Thailand"; c_iso2 := "TH"; c_continent := "Asia" |};
    {| c_name := "Turkey"; c_iso2 := "TR"; c_continent := "Europe" |};
    {| c_name := "Turkmenistan"; c_iso2 := "TM"; c_continent := "Asia" |};
    {| c_name := "Ukraine"; c_iso2 := "UA"; c_continent := "Europe" |};
    {| c_name := "United Arab Emirates"; c_iso2 := "AE"; c_continent := "Asia" |};
    {| c_name := "United Kingdom"; c_iso2 := "GB"; c_continent := "Europe" |};
    {| c_name := "United States"; c_iso2 := "US"; c_continent := "North America" |};
    {| c_name := "Uruguay"; c_iso2 := "UY"; c_continent := "South America" |};
    {| c_name := "Uzbekistan"; c_iso2 := "UZ"; c_continent := "Asia" |} ].

(** [data?.visited || []] *)
Definition visitedOf (data : option TripsJson) : list TripData :=
  match data with
  | Some d => visited d
  | None => []
  end.

Section CaseMapping.

(** The runtime's upper-case mapping of the characters outside ASCII. *)
Variable upper : string -> string.

(** [(v || '').trim().toUpperCase()] *)
Definition normalizeIso2 (v : string) : string := toUpperCase upper (trim v).

Definition getTripByIso (data : option TripsJson) (iso : string) : option TripData :=
  let n := normalizeIso2 iso in
  List.find (fun trip => String.eqb (normalizeIso2 (iso2 trip)) n) (visitedOf data).

Definition with_visited (v : list TripData) (d : TripsJson) : TripsJson :=
  {| profile := profile d; homeCountry := homeCountry d; visited := v |}.

Section Collation.

(** [a.localeCompare(b)] of the runtime. *)
Variable localeCompare : string -> string -> Z.

(** [addCountry]: the state [data] after the call; an early [return]
    leaves it as it was. *)
Definition addCountry (data : option TripsJson) (iso : string) : option TripsJson :=
  match data with
  | None => data
  | Some d =>
      let n := normalizeIso2 iso in
      if negb (truthy n) then data else
      if existsb (fun t => String.eqb (normalizeIso2 (iso2 t)) n) (visited d)
      then data else
      match List.find (fun c => String.eqb (c_iso2 c) n) ALL_COUNTRIES with
      | None => data
      | Some info =>
          let newTrip :=
            {| countryName := c_name info; iso2 := c_iso2 info;
               continent := c_continent info; year := ""; cities := [];
               notes := ""; photos := []; isHome := None |} in
          Some (with_visited
                  (sortBy (fun a b => localeCompare (countryName a) (countryName b))
                          (visited d ++ [newTrip]))
                  d)
      end
  end.

End Collation.

Definition removeCountry (data : option TripsJson) (iso : string) : option TripsJson :=
  match data with
  | None => data
  | Some d =>
      let n := normalizeIso2 iso in
      Some (with_visited
              (List.filter (fun t => negb (String.eqb (normalizeIso2 (iso2 t)) n)) (visited d))
              d)
  end.

End CaseMapping.

Record TravelStats := {
  countriesVisited : Z;
  worldPercentage : Z;
}.

(** [getTravelStats]: the two numbers of the returned object that are
    computed from [visited.length]; its [continentCounts] and
    [mostVisitedContinent] follow. *)
Definition getTravelStats (data : option TripsJson) : TravelStats :=
  let visited := visitedOf data in
  let len := Z.of_nat (length visited) in
  {| countriesVisited := len;
     worldPercentage :=
       Math_round ((inject_Z len / inject_Z TOTAL_COUNTRIES_IN_WORLD) * inject_Z 100)%Q |}.

(** [continentCounts] of [getTravelStats], a plain object, after the
    [forEach] over the visited trips. *)
Definition continentCounts (data : option TripsJson) : properties :=
  fold_left (fun counts trip => increment counts (continent trip)) (visitedOf data) [].

(** [(a, b) => b[1] - a[1]]: the difference of two numbers; with a string
    on either side it is [NaN], which [sort] takes for 0. *)
Definition byFallingCount (a b : string * slot) : Z :=
  match a.2, b.2 with
  | Num x, Num y => y - x
  | _, _ => 0
  end.

(** [byFallingCount] is a consistent comparator on the entries when no
    string is among the values or when the numbers among them are all
    equal; otherwise a string ties with two numbers that do not tie. *)
Definition consistentCounts (es : properties) : bool :=
  forallb isNumber es
  || match List.filter isNumber es with
     | [] => true
     | first :: rest => forallb (fun kv => byFallingCount first kv =? 0) rest
     end.

(** [mostVisitedContinent] of [getTravelStats]:
    [Object.entries(continentCounts).sort(...)[0]?.[0] || 'N/A'].  The sort
    is stable; for a comparator that is not consistent the order is left
    to the implementation by ECMAScript, and the answer is [None]. *)
Definition mostVisitedContinent (data : option TripsJson) : option string :=
  let es := entries (continentCounts data) in
  if consistentCounts es then
    Some match sortBy byFallingCount es with
         | (c, _) :: _ => if truthy c then c else "N/A"
         | [] => "N/A"
         end
  else None.

End TripsData.

(** ** [src/components/CountryPanel.tsx] *)

Module CountryPanel.

(** [peopleCount]: the larger of the detected faces and the distinct tagged ids. *)
Definition peopleCount (photo : StoredPhoto) : Z :=
  let detected := Z.of_nat (length (default [] (detectedFaces photo))) in
  let taggedUnique :=
    Z.of_nat (size (list_to_set (memberId <$> faceTags photo) : gset string)) in
  Z.max detected taggedUnique.

Definition tileHeightClass (photo : StoredPhoto) : string :=
  let detected := Z.of_nat (length (default [] (detectedFaces photo))) in
  if 5 <=? detected then "h-72"
  else if 3 <=? detected then "h-64"
  else if 2 <=? detected then "h-56"
  else "h-44".

(** [name.replace(/\.(ext)$/i, '.jpg')] for an extension [ext] given in
    lower case with its dot. *)
Definition replaceExtension (ext : string) (fileName : string) : string :=
  if endsWith (toLowerCase fileName) ext
  then String.substring 0 (String.length fileName - String.length ext) fileName +:+ ".jpg"
  else fileName.

Section Browser.

(** What the browser and the converter answer for a file.
    - [heic2any file]: [Err] when the import or the conversion throws,
      [Ok None] when the converter returns no blob;
    - [decodeImage file]: the width and height of the decoded image,
      [Err] when [img.onerror] fires;
    - [getContext2d]: whether [canvas.getContext('2d')] is not null;
    - [toJpegBlob file w h]: the canvas encoded as JPEG, [Err] when
      [toBlob] hands over null. *)
Variable heic2any : File -> result (option (list Byte.byte)).
Variable decodeImage : File -> result (Z * Z).
Variable getContext2d : bool.
Variable toJpegBlob : File -> Z -> Z -> result (list Byte.byte).

Definition isWebp (file : File) : bool :=
  let name := toLowerCase (file_name file) in
  let type := toLowerCase (file_type file) in
  String.eqb type "image/webp" || endsWith name ".webp".

Definition isHeic (file : File) : bool :=
  let name := toLowerCase (file_name file) in
  let type := toLowerCase (file_type file) in
  String.eqb type "image/heic" || String.eqb type "image/heif"
  || endsWith name ".heic" || endsWith name ".heif".

(** The side of the canvas for a side [d] of an image whose larger side
    is [m]: [Math.max(1, Math.round(d * Math.min(1, 2200 / m)))], computed
    on doubles as the code does.  [d] and [m] are sides of a decoded image,
    integers from 0 to 2^32 - 1; a side that is no number makes a canvas
    side of 0. *)
Definition scaledSide (d m : Z) : Z :=
  let maxDim := 2200 in
  let scale := Math_min (Number 1) (divide (Number maxDim) (Number m)) in
  match roundNumber (times (Number d) scale) with
  | Some r => Z.max 1 r
  | None => 0
  end.

(** [convertToJpegIfNeeded]; every exception is caught inside, so the
    promise always resolves and the result is the file itself. *)
Definition convertToJpegIfNeeded (file : File) : File :=
  if negb (isWebp file) && negb (isHeic file) then file else
  if isHeic file then
    match heic2any file with
    | Ok (Some outBlob) =>
        let replaced :=
          replaceExtension ".heif" (replaceExtension ".heic" (file_name file)) in
        let newName := if truthy replaced then replaced else "photo.jpg" in
        {| file_name := newName; file_type := "image/jpeg"; file_bytes := outBlob |}
    | Ok None => file
    | Err _ => file
    end
  else
    match decodeImage file with
    | Err _ => file
    | Ok (iw, ih) =>
        let w := scaledSide iw (Z.max iw ih) in
        let h := scaledSide ih (Z.max iw ih) in
        if negb getContext2d then file else
        match toJpegBlob file w h with
        | Err _ => file
        | Ok blob =>
            {| file_name := replaceExtension ".webp" (file_name file);
               file_type := "image/jpeg"; file_bytes := blob |}
        end
    end.

End Browser.

(** The part of the component state the tagging handlers use. *)
Record Panel := {
  photos : list StoredPhoto;
  activePhotoId : option string;
}.

Definition activePhoto (st : Panel) : option StoredPhoto :=
  match activePhotoId st with
  | None => None
  | Some i => List.find (fun p => String.eqb (id p) i) (photos st)
  end.

Definition setPhotos (f : list StoredPhoto -> list StoredPhoto) (st : Panel) : Panel :=
  {| photos := f (photos st); activePhotoId := activePhotoId st |}.

(** [handleUpdateFaceTags]: a failed write is reported by an alert and
    leaves the local state as it was; nothing is thrown further. *)
Definition handleUpdateFaceTags (photoId : string) (tags : list FaceTag) (st : Panel)
  : io Panel :=
  tryCatch
    (updatePhotoFaceTags photoId tags;;
     mret (setPhotos
             (fmap (fun p => if String.eqb (id p) photoId then with_faceTags tags p else p))
             st))
    (fun _ => mret st).

(** [const { assignedMemberId, assignedMemberName, ...rest } = df] *)
Definition withoutAssignment (df : DetectedFaceData) : DetectedFaceData :=
  {| df_id := df_id df; df_thumbnail := df_thumbnail df; df_box := df_box df;
     descriptorString := descriptorString df;
     assignedMemberId := None; assignedMemberName := None;
     suggestedMemberId := suggestedMemberId df;
     suggestedMemberName := suggestedMemberName df;
     df_confidence := df_confidence df |}.

(** [df.assignedMemberId !== memberId] *)
Definition assignedTo (member : string) (df : DetectedFaceData) : bool :=
  match assignedMemberId df with
  | Some a => String.eqb a member
  | None => false
  end.

Definition removePerson (member : string) (st : Panel) : io Panel :=
  match activePhoto st with
  | None => mret st
  | Some active =>
      let next :=
        List.filter (fun t => negb (String.eqb (memberId t) member)) (faceTags active) in
      st1 ← handleUpdateFaceTags (id active) next st;
      (* Also clear assignment from detectedFaces so counts/avatars stay consistent *)
      let dfs :=
        (fun df => if negb (assignedTo member df) then df else withoutAssignment df)
          <$> default [] (detectedFaces active) in
      if (0 <? length dfs)%nat then
        updatePhotoDetectedFaces (id active) dfs;;
        mret (setPhotos
                (fmap (fun p => if String.eqb (id p) (id active)
                                then with_detectedFaces dfs p else p))
                st1)
      else mret st1
  end.

End CountryPanel.

(** * Properties *)

(** ** Sorting and rounding *)

Module JsFacts.

Lemma insertBy_Permutation {A} (cmp : A -> A -> Z) (a : A) (l : list A) :
  Permutation (insertBy cmp a l) (a :: l).
Proof.
  induction l as [|b l IH]; simpl; [reflexivity|].
  destruct (cmp a b <=? 0); [reflexivity|].
  rewrite IH. apply perm_swap.
Qed.

Lemma sortBy_Permutation {A} (cmp : A -> A -> Z) (l : list A) :
  Permutation (sortBy cmp l) l.
Proof.
  induction l as [|a l IH]; simpl; [reflexivity|].
  unfold sortBy in *. simpl. rewrite insertBy_Permutation. by constructor.
Qed.

Lemma sortBy_length {A} (cmp : A -> A -> Z) (l : list A) :
  length (sortBy cmp l) = length l.
Proof. apply Permutation_length, sortBy_Permutation. Qed.

Lemma sortBy_elem_of {A} (cmp : A -> A -> Z) (l : list A) (a : A) :
  a ∈ sortBy cmp l ↔ a ∈ l.
Proof. by rewrite (sortBy_Permutation cmp l). Qed.

(** [Math.round(n / 195 * 100)] in integer arithmetic. *)
Lemma Math_round_percentage (n : Z) :
  Math_round ((inject_Z n / inject_Z 195) * inject_Z 100)%Q = (200 * n + 195) / 390.
Proof.
  unfold Math_round, Qfloor, Qdiv, Qmult, Qplus, Qinv, inject_Z. simpl.
  f_equal; lia.
Qed.

Lemma truthy_true (s : string) : truthy s = true ↔ s ≠ "".
Proof.
  unfold truthy. destruct (String.eqb_spec s ""); simpl; split; congruence.
Qed.

Lemma existsb_elem_of {A} (f : A -> bool) (l : list A) :
  existsb f l = true ↔ ∃ a, a ∈ l ∧ f a = true.
Proof.
  rewrite existsb_exists. setoid_rewrite list_elem_of_In. reflexivity.
Qed.

(** *** Plain objects *)

Lemma getOwn_setOwn (o : properties) (k c : string) (v : slot) :
  getOwn (setOwn k v o) c = if String.eqb k c then Some v else getOwn o c.
Proof.
  unfold getOwn. induction o as [|[k' v'] o IH]; cbn [setOwn List.find fst].
  - by destruct (String.eqb k c).
  - destruct (String.eqb_spec k' k) as [->|Hk]; cbn [List.find fst].
    + by destruct (String.eqb k c).
    + destruct (String.eqb_spec k' c) as [->|Hc].
      * destruct (String.eqb_spec k c) as [->|]; [done|done].
      * exact IH.
Qed.

Lemma setOwn_keys (o : properties) (k c : string) (v : slot) :
  c ∈ (setOwn k v o).*1 ↔ c = k ∨ c ∈ o.*1.
Proof.
  induction o as [|[k' v'] o IH]; cbn [setOwn].
  - rewrite fmap_cons. cbn [fst]. rewrite list_elem_of_singleton, elem_of_nil. tauto.
  - destruct (String.eqb_spec k' k) as [->|Hk]; rewrite !fmap_cons; cbn [fst].
    + rewrite !elem_of_cons. tauto.
    + rewrite !elem_of_cons, IH. tauto.
Qed.

Lemma setOwn_NoDup (o : properties) (k : string) (v : slot) :
  NoDup o.*1 → NoDup (setOwn k v o).*1.
Proof.
  induction o as [|[k' v'] o IH]; cbn [setOwn]; intros Hnd.
  - apply NoDup_singleton.
  - rewrite fmap_cons in Hnd. cbn [fst] in Hnd. apply NoDup_cons in Hnd as [Hk Hnd].
    destruct (String.eqb_spec k' k) as [->|Hkc]; rewrite fmap_cons; cbn [fst].
    + by apply NoDup_cons.
    + apply NoDup_cons. split; [|by apply IH].
      rewrite setOwn_keys. intros [->|H]; done.
Qed.

(** An object holds every key once. *)
Lemma increment_NoDup (o : properties) (k : string) :
  NoDup o.*1 → NoDup (increment o k).*1.
Proof.
  intros Hnd. unfold increment.
  destruct (getOwn o k) as [[n|origin ones]|]; try by apply setOwn_NoDup.
  destruct (String.eqb k "__proto__"); [done|].
  destruct (isInherited k); by apply setOwn_NoDup.
Qed.

Lemma getOwn_increment_other (o : properties) (k c : string) :
  k ≠ c → getOwn (increment o k) c = getOwn o c.
Proof.
  intros Hne. apply String.eqb_neq in Hne. unfold increment.
  destruct (getOwn o k) as [[n|origin ones]|]; rewrite ?getOwn_setOwn, ?Hne; try done.
  destruct (String.eqb k "__proto__"); [done|].
  destruct (isInherited k); by rewrite getOwn_setOwn, Hne.
Qed.

Lemma isInherited_proto (k : string) :
  isInherited k = false → String.eqb k "__proto__" = false.
Proof.
  intros H. destruct (String.eqb_spec k "__proto__") as [->|]; [|done].
  discriminate H.
Qed.

(** Counting under a key that [Object.prototype] does not have. *)
Lemma getOwn_increment_number (o : properties) (k : string) :
  isInherited k = false →
  match getOwn o k with
  | None => getOwn (increment o k) k = Some (Num 1)
  | Some (Num n) => getOwn (increment o k) k = Some (Num (n + 1))
  | Some (Text _ _) => True
  end.
Proof.
  intros Hk. unfold increment.
  destruct (getOwn o k) as [[n|origin ones]|] eqn:E; [| done |].
  - by rewrite getOwn_setOwn, String.eqb_refl.
  - rewrite (isInherited_proto k Hk), Hk. by rewrite getOwn_setOwn, String.eqb_refl.
Qed.

Lemma getOwn_elem_of (o : properties) (k : string) (v : slot) :
  NoDup o.*1 → (k, v) ∈ o ↔ getOwn o k = Some v.
Proof.
  unfold getOwn. induction o as [|[k' v'] o IH]; intros Hnd.
  - cbn. rewrite elem_of_nil. split; [done|discriminate].
  - rewrite fmap_cons in Hnd. cbn [fst] in Hnd. apply NoDup_cons in Hnd as [Hk Hnd].
    cbn [List.find fst]. rewrite elem_of_cons.
    destruct (String.eqb_spec k' k) as [->|Hne].
    + cbn. split.
      * intros [[= ->]|Hin]; [done|].
        exfalso. apply Hk. apply list_elem_of_fmap. by exists (k, v).
      * intros [= ->]. by left.
    + rewrite <- (IH Hnd). split.
      * intros [[= -> ->]|Hin]; done.
      * intros Hin. by right.
Qed.

(** The sum of the numbers an object holds. *)
Definition total (o : properties) : Z :=
  foldr (fun kv acc => match kv.2 with Num n => n | Text _ _ => 0 end + acc) 0 o.

Lemma setOwn_total (o : properties) (k : string) (n : Z) :
  total (setOwn k (Num n) o)
  = total o + n - match getOwn o k with Some (Num m) => m | _ => 0 end.
Proof.
  unfold total, getOwn. induction o as [|[k' v'] o IH]; cbn [setOwn foldr List.find fst snd].
  - cbn. lia.
  - destruct (String.eqb_spec k' k) as [->|Hk]; cbn [foldr fmap option_fmap option_map snd].
    + destruct v'; lia.
    + rewrite IH. lia.
Qed.

Lemma setOwn_isNumber (o : properties) (k : string) (n : Z) :
  forallb isNumber o = true → forallb isNumber (setOwn k (Num n) o) = true.
Proof.
  induction o as [|[k' v'] o IH]; cbn [setOwn forallb]; [done|].
  intros [Hv Ho]%andb_true_iff.
  destruct (String.eqb k' k); cbn [forallb].
  - by rewrite Ho.
  - by rewrite Hv, IH.
Qed.

Lemma getOwn_isNumber (o : properties) (k : string) (v : slot) :
  forallb isNumber o = true → getOwn o k = Some v → ∃ n, v = Num n.
Proof.
  unfold getOwn. induction o as [|[k' v'] o IH]; cbn [forallb List.find fst]; [done|].
  intros [Hv Ho]%andb_true_iff.
  destruct (String.eqb k' k); [|by apply IH].
  cbn. intros [= <-]. destruct v'; [by eexists|done].
Qed.

(** Counting under keys that [Object.prototype] does not have keeps
    numbers only and adds one to their sum. *)
Lemma increment_numbers (o : properties) (k : string) :
  isInherited k = false → forallb isNumber o = true →
  forallb isNumber (increment o k) = true ∧ total (increment o k) = total o + 1.
Proof.
  intros Hk Ho. unfold increment.
  destruct (getOwn o k) as [v|] eqn:E.
  - destruct (getOwn_isNumber o k v Ho E) as [n ->].
    split; [by apply setOwn_isNumber|]. rewrite setOwn_total, E. lia.
  - rewrite (isInherited_proto k Hk), Hk.
    split; [by apply setOwn_isNumber|]. rewrite setOwn_total, E. lia.
Qed.

Lemma filter_partition_Permutation {A} (f : A → bool) (l : list A) :
  Permutation (List.filter f l ++ List.filter (fun a => negb (f a)) l) l.
Proof.
  induction l as [|a l IH]; [done|]. cbn [List.filter].
  destruct (f a); cbn [negb app].
  - by constructor.
  - rewrite <- Permutation_middle. by constructor.
Qed.

(** [Object.entries] lists every own property once. *)
Lemma entries_Permutation (o : properties) : Permutation (entries o) o.
Proof.
  unfold entries. rewrite sortBy_Permutation. apply filter_partition_Permutation.
Qed.

Lemma forallb_Permutation {A} (f : A → bool) (l l' : list A) :
  Permutation l l' → forallb f l = forallb f l'.
Proof.
  induction 1 as [|a l l' _ IH|a b l|l l' l'' _ IH1 _ IH2]; cbn [forallb].
  - done.
  - by rewrite IH.
  - by destruct (f a), (f b).
  - by etrans.
Qed.

End JsFacts.

(** ** The trips hook *)

Module TripsFacts.

Import TripsData JsFacts.

Lemma known_codes_nonempty (c : Country) :
  c ∈ ALL_COUNTRIES → truthy (c_iso2 c) = true.
Proof.
  intros Hc.
  assert (Hall : forallb (fun c => truthy (c_iso2 c)) ALL_COUNTRIES = true)
    by (vm_compute; reflexivity).
  rewrite forallb_forall in Hall. apply Hall. by apply list_elem_of_In.
Qed.

Lemma find_elem_of {A} (f : A -> bool) (l : list A) (a : A) :
  List.find f l = Some a → a ∈ l ∧ f a = true.
Proof.
  intros H. apply find_some in H as [H1 H2]. split; [by apply list_elem_of_In|done].
Qed.

(** The trip record [addCountry] builds from a table entry. *)
Definition freshTrip (info : Country) : TripData :=
  {| countryName := c_name info; iso2 := c_iso2 info; continent := c_continent info;
     year := ""; cities := []; notes := ""; photos := []; isHome := None |}.

Section CaseMapping.

Variable upper : string → string.

(** The codes of the table are in normal form: two capital letters. *)
Lemma known_codes_normalized (c : Country) :
  c ∈ ALL_COUNTRIES → normalizeIso2 upper (c_iso2 c) = c_iso2 c.
Proof.
  intros Hc.
  assert (Hall : forallb (fun c => String.eqb (normalizeIso2 upper (c_iso2 c))
                                              (c_iso2 c))
                         ALL_COUNTRIES = true)
    by (vm_compute; reflexivity).
  rewrite forallb_forall in Hall. apply String.eqb_eq, Hall. by apply list_elem_of_In.
Qed.

(** The trips already visited under the normalized code [n]. *)
Definition visitedUnder (n : string) (d : TripsJson) : Prop :=
  ∃ t, t ∈ visited d ∧ normalizeIso2 upper (iso2 t) = n.

Lemma visitedUnder_existsb (n : string) (d : TripsJson) :
  existsb (fun t => String.eqb (normalizeIso2 upper (iso2 t)) n) (visited d) = true
  ↔ visitedUnder n d.
Proof.
  rewrite existsb_elem_of. unfold visitedUnder.
  split; intros (t & Ht & E); exists t; split; try done.
  - by apply String.eqb_eq.
  - by apply String.eqb_eq.
Qed.

(** C5. For every loaded trips state [d] and code [iso] with normalized
    form [n]: when a visited trip already has the normalized code [n],
    [addCountry] leaves the state as it is; when none has and [n] is the
    code of an entry of [ALL_COUNTRIES], the new visited list is the old
    one with exactly one trip added, built from that entry with empty
    year, cities, notes and photos, so it is one element longer (profile
    and home country are kept). *)
Theorem addCountry_inserts_once (localeCompare : string -> string -> Z)
    (d : TripsJson) (iso : string) :
  let n := normalizeIso2 upper iso in
  (visitedUnder n d → addCountry upper localeCompare (Some d) iso = Some d)
  ∧ (¬ visitedUnder n d →
     (∃ c, c ∈ ALL_COUNTRIES ∧ c_iso2 c = n) →
     ∃ info d',
       addCountry upper localeCompare (Some d) iso = Some d'
       ∧ info ∈ ALL_COUNTRIES ∧ c_iso2 info = n
       ∧ Permutation (visited d') (freshTrip info :: visited d)
       ∧ length (visited d') = S (length (visited d))
       ∧ profile d' = profile d ∧ homeCountry d' = homeCountry d).
Proof.
  intros n. split.
  - intros Hdup. apply visitedUnder_existsb in Hdup.
    unfold addCountry. fold n. rewrite Hdup.
    by destruct (negb (truthy n)).
  - intros Hnew (c & Hc & Hcn).
    assert (Hex : existsb (fun t => String.eqb (normalizeIso2 upper (iso2 t)) n) (visited d)
                  = false).
    { destruct (existsb _ _) eqn:E; [|done].
      apply visitedUnder_existsb in E. contradiction. }
    assert (Hn : truthy n = true) by (rewrite <- Hcn; by apply known_codes_nonempty).
    destruct (List.find (fun c => String.eqb (c_iso2 c) n) ALL_COUNTRIES) as [info|] eqn:Hfind.
    + apply find_elem_of in Hfind as Hinfo. destruct Hinfo as [Hin Heq].
      apply String.eqb_eq in Heq.
      eexists info, _. unfold addCountry. fold n. rewrite Hn, Hex, Hfind. simpl.
      split; [reflexivity|]. simpl.
      repeat split; try done.
      * rewrite sortBy_Permutation. fold (freshTrip info).
        by rewrite Permutation_app_comm.
      * rewrite sortBy_length, length_app. simpl. lia.
    + exfalso. apply list_elem_of_In in Hc.
      eapply find_none in Hfind; [|exact Hc]. simpl in Hfind.
      rewrite Hcn, String.eqb_refl in Hfind. discriminate.
Qed.

End CaseMapping.

(** C9. [getTravelStats] reports the visited share of a world of 195
    countries, [round(100 * visitedCount / 195)], which in integers is
    [(200 * visitedCount + 195) / 390]; with exactly 10 visited countries
    it is 5. *)
Theorem getTravelStats_worldPercentage (data : option TripsJson) :
  let count := Z.of_nat (length (visitedOf data)) in
  TOTAL_COUNTRIES_IN_WORLD = 195
  ∧ worldPercentage (getTravelStats data)
    = Math_round (inject_Z 100 * inject_Z count / inject_Z 195)%Q
  ∧ worldPercentage (getTravelStats data) = (200 * count + 195) / 390
  ∧ (length (visitedOf data) = 10%nat → worldPercentage (getTravelStats data) = 5).
Proof.
  intros count.
  assert (E : worldPercentage (getTravelStats data) = (200 * count + 195) / 390)
    by (unfold getTravelStats; simpl; apply Math_round_percentage).
  split; [reflexivity|]. split; [|split; [exact E|]].
  - rewrite E. unfold Math_round, Qfloor, Qdiv, Qmult, Qplus, Qinv, inject_Z. simpl.
    f_equal; lia.
  - intros H10. rewrite E. unfold count. rewrite H10. reflexivity.
Qed.

End TripsFacts.

(** ** The photo preview hook *)

Module PreviewFacts.

Import PhotoPreviews.

Section CaseMapping.

Variable upper : string → string.

Lemma rebuildFromPhotos_snoc (ps : list StoredPhoto) (p : StoredPhoto) :
  rebuildFromPhotos upper (ps ++ [p]) = rebuildStep upper (rebuildFromPhotos upper ps) p.
Proof. unfold rebuildFromPhotos. by rewrite fold_left_app. Qed.

(** The two updates count alike, whatever the state. *)
Lemma registerPhoto_counts (p : StoredPhoto) (m : gmap string PreviewEntry) :
  photoCounts (registerPhoto upper p m) = photoCounts (rebuildStep upper m p).
Proof.
  unfold registerPhoto, rebuildStep, photoCounts.
  destruct (negb (truthy (normalizeIso2 upper (countryIso p)))); [done|].
  rewrite !fmap_insert.
  destruct (m !! normalizeIso2 upper (countryIso p)) as [c|]; [|done].
  by destruct (pe_createdAt c <=? createdAt p), (pe_createdAt c <? createdAt p).
Qed.

(** The count of the photo's country grows by one, from 0 when it is new. *)
Lemma registerPhoto_count_succ (p : StoredPhoto) (m : gmap string PreviewEntry) :
  let iso := normalizeIso2 upper (countryIso p) in
  iso ≠ "" →
  photoCounts (registerPhoto upper p m) !! iso = Some (default 0 (photoCounts m !! iso) + 1).
Proof.
  intros iso Hiso. apply JsFacts.truthy_true in Hiso.
  unfold registerPhoto, photoCounts. fold iso. rewrite Hiso. simpl.
  rewrite fmap_insert, lookup_insert_eq, lookup_fmap.
  destruct (m !! iso) as [c|]; simpl; [|done].
  by destruct (pe_createdAt c <=? createdAt p).
Qed.

(** The two updates agree on the whole state unless the new photo carries
    the very timestamp of the current preview of its country. *)
Lemma registerPhoto_rebuildStep (p : StoredPhoto) (m : gmap string PreviewEntry) :
  (∀ c, m !! normalizeIso2 upper (countryIso p) = Some c → pe_createdAt c ≠ createdAt p) →
  registerPhoto upper p m = rebuildStep upper m p.
Proof.
  intros Hne. unfold registerPhoto, rebuildStep.
  destruct (negb (truthy (normalizeIso2 upper (countryIso p)))); [done|].
  destruct (m !! normalizeIso2 upper (countryIso p)) as [c|] eqn:E; [|done].
  specialize (Hne c eq_refl). simpl.
  destruct (Z.leb_spec (pe_createdAt c) (createdAt p)),
           (Z.ltb_spec (pe_createdAt c) (createdAt p)); try done; lia.
Qed.

Lemma registerPhoto_refines_rebuild (ps : list StoredPhoto) (p : StoredPhoto) :
  (∀ c, rebuildFromPhotos upper ps !! normalizeIso2 upper (countryIso p) = Some c →
        pe_createdAt c ≠ createdAt p) →
  registerPhoto upper p (rebuildFromPhotos upper ps) = rebuildFromPhotos upper (ps ++ [p]).
Proof. intros H. rewrite rebuildFromPhotos_snoc. by apply registerPhoto_rebuildStep. Qed.

Lemma registerPhoto_rebuild_counts (ps : list StoredPhoto) (p : StoredPhoto) :
  photoCounts (registerPhoto upper p (rebuildFromPhotos upper ps))
  = photoCounts (rebuildFromPhotos upper (ps ++ [p])).
Proof. rewrite rebuildFromPhotos_snoc. apply registerPhoto_counts. Qed.

(** Two photos of France stored in the same millisecond. *)
Definition tiedFirst : StoredPhoto :=
  {| id := "FR-1700000000000-aaaaaaaaa"; countryIso := "FR";
     url := "https://photos.example/first.jpg"; name := "first.jpg"; caption := "";
     faceTags := []; detectedFaces := Some []; createdAt := 1700000000000 |}.

Definition tiedSecond : StoredPhoto :=
  {| id := "FR-1700000000000-bbbbbbbbb"; countryIso := "FR";
     url := "https://photos.example/second.jpg"; name := "second.jpg"; caption := "";
     faceTags := []; detectedFaces := Some []; createdAt := 1700000000000 |}.

(** C3. The incremental update and the full rebuild part ways on a tie of
    timestamps: after [rebuildFromPhotos [tiedFirst]], registering
    [tiedSecond] shows the second photo for FR ([>=] in [registerPhoto]),
    while rebuilding from both photos shows the first ([>] in
    [rebuildFromPhotos]); both count 2. *)
Theorem registerPhoto_rebuild_differ_on_tie :
  photoPreviews (registerPhoto upper tiedSecond (rebuildFromPhotos upper [tiedFirst])) !! "FR"
    = Some "https://photos.example/second.jpg"
  ∧ photoPreviews (rebuildFromPhotos upper ([tiedFirst] ++ [tiedSecond])) !! "FR"
    = Some "https://photos.example/first.jpg"
  ∧ photoCounts (registerPhoto upper tiedSecond (rebuildFromPhotos upper [tiedFirst])) !! "FR"
    = Some 2
  ∧ photoCounts (rebuildFromPhotos upper ([tiedFirst] ++ [tiedSecond])) !! "FR" = Some 2.
Proof. repeat split; vm_compute; reflexivity. Qed.

End CaseMapping.

End PreviewFacts.

(** ** Sanitizing what is written *)

Module SanitizeFacts.

Import JsFacts.

(** Induction over values, with the hypothesis for every entry of an
    array and every field of an object. *)
Lemma value_induction (P : value → Prop) :
  P VUndefined → P VNull → (∀ b, P (VBool b)) → (∀ n, P (VNumber n)) →
  (∀ s, P (VString s)) →
  (∀ items, Forall P items → P (VArray items)) →
  (∀ fields, Forall (fun kv => P kv.2) fields → P (VObject fields)) →
  (∀ proto fields, Forall (fun kv => P kv.2) fields → P (VObjectOf proto fields)) →
  ∀ v, P v.
Proof.
  intros Hu Hn Hb Hnum Hs Harr Hobj Hof. fix IH 1.
  intros [ | | b | n | s | items | fields | proto fields].
  - exact Hu.
  - exact Hn.
  - apply Hb.
  - apply Hnum.
  - apply Hs.
  - apply Harr. induction items as [|x items IHitems]; constructor.
    + apply IH.
    + exact IHitems.
  - apply Hobj. induction fields as [|[k x] fields IHfields]; constructor.
    + apply IH.
    + exact IHfields.
  - apply Hof. induction fields as [|[k x] fields IHfields]; constructor.
    + apply IH.
    + exact IHfields.
Qed.

Definition defined (v : value) : bool := negb (isUndefined v).

Definition sanitizeField (kv : string * value) : string * value :=
  (kv.1, sanitizeForFirestore kv.2).

(** The field is kept under the key ['__proto__']. *)
Definition isProtoKey (kv : string * value) : bool := String.eqb kv.1 "__proto__".

(** The fields that become own properties of the rebuilt object. *)
Definition kept (kv : string * value) : bool := defined kv.2 && negb (isProtoKey kv).


(** Some object in [v] has an own key ['__proto__'].  An object literal
    cannot have one; [JSON.parse] makes one for the key ["__proto__"]. *)
Fixpoint hasProtoKey (v : value) : bool :=
  match v with
  | VArray items => existsb hasProtoKey items
  | VObject fields => existsb (fun kv => isProtoKey kv || hasProtoKey kv.2) fields
  | VObjectOf _ fields => existsb (fun kv => isProtoKey kv || hasProtoKey kv.2) fields
  | _ => false
  end.

(** Every object in [v] has the prototype [Object.prototype] and no own
    key ['__proto__']. *)
Fixpoint isPlain (v : value) : bool :=
  match v with
  | VArray items => forallb isPlain items
  | VObject fields => forallb (fun kv => negb (isProtoKey kv) && isPlain kv.2) fields
  | VObjectOf _ _ => false
  | _ => true
  end.

(** The loop of [sanitizeForFirestore] over the entries of an object. *)
Fixpoint assignAll (fs : list (string * value)) : option prototype * list (string * value) :=
  match fs with
  | [] => (None, [])
  | (k, v') :: fs' =>
      let next := sanitizeForFirestore v' in
      let out := assignAll fs' in
      if isUndefined next then out
      else if String.eqb k "__proto__" then
        (match out.1 with
         | Some later => Some later
         | None => prototypeFrom next
         end, out.2)
      else (out.1, (k, next) :: out.2)
  end.

Lemma sanitize_array (items : list value) :
  sanitizeForFirestore (VArray items)
  = VArray (List.filter defined (List.map sanitizeForFirestore items)).
Proof. reflexivity. Qed.

Lemma sanitize_object (fields : list (string * value)) :
  sanitizeForFirestore (VObject fields) = rebuilt (assignAll fields).
Proof. reflexivity. Qed.

Lemma sanitize_objectOf (proto : prototype) (fields : list (string * value)) :
  sanitizeForFirestore (VObjectOf proto fields) = rebuilt (assignAll fields).
Proof. reflexivity. Qed.

(** Only [undefined] is sanitized to [undefined]. *)
Lemma sanitize_isUndefined (v : value) :
  isUndefined (sanitizeForFirestore v) = isUndefined v.
Proof.
  destruct v as [ | | b | n | s | items | fields | proto fields]; try done.
  - rewrite sanitize_object. unfold rebuilt. by destruct (assignAll fields).1.
  - rewrite sanitize_objectOf. unfold rebuilt. by destruct (assignAll fields).1.
Qed.

Lemma sanitize_defined (v : value) : defined (sanitizeForFirestore v) = defined v.
Proof. unfold defined. by rewrite sanitize_isUndefined. Qed.

Lemma filter_map_sanitize (items : list value) :
  List.filter defined (List.map sanitizeForFirestore items)
  = List.map sanitizeForFirestore (List.filter defined items).
Proof.
  induction items as [|x items IH]; [done|].
  cbn [List.map List.filter]. rewrite sanitize_defined.
  destruct (defined x); cbn [List.map]; by rewrite IH.
Qed.

(** The own properties after the loop: the fields that are kept, in
    order, with their values sanitized. *)
Lemma assignAll_fields (fields : list (string * value)) :
  (assignAll fields).2 = List.map sanitizeField (List.filter kept fields).
Proof.
  induction fields as [|[k x] fields IH]; [done|].
  cbn [assignAll List.filter]. rewrite sanitize_isUndefined.
  unfold kept at 1, defined, isProtoKey. cbn [fst snd].
  destruct (isUndefined x); cbn [negb andb]; [exact IH|].
  destruct (String.eqb k "__proto__"); cbn [negb snd List.map]; [exact IH|].
  by rewrite IH.
Qed.

(** Without a key ['__proto__'] the prototype stays [Object.prototype]. *)
Lemma assignAll_prototype (fields : list (string * value)) :
  existsb isProtoKey fields = false → (assignAll fields).1 = None.
Proof.
  induction fields as [|[k x] fields IH]; [done|].
  cbn [existsb]. unfold isProtoKey at 1. cbn [fst].
  intros [Hk Hrest]%orb_false_iff. cbn [assignAll]. rewrite Hk.
  destruct (isUndefined (sanitizeForFirestore x)); cbn [fst]; by apply IH.
Qed.


Lemma hasUndefined_rebuilt (out : option prototype * list (string * value)) :
  hasUndefined (rebuilt out) = existsb (fun kv => hasUndefined kv.2) out.2.
Proof. unfold rebuilt. by destruct out.1. Qed.


Lemma hasProtoKey_rebuilt (out : option prototype * list (string * value)) :
  hasProtoKey (rebuilt out)
  = existsb (fun kv => isProtoKey kv || hasProtoKey kv.2) out.2.
Proof. unfold rebuilt. by destruct out.1. Qed.

Lemma defined_false (v : value) : defined v = true ↔ isUndefined v = false.
Proof. unfold defined. by destruct (isUndefined v). Qed.

Lemma kept_defined (kv : string * value) : kept kv = true → isUndefined kv.2 = false.
Proof. unfold kept. intros [H _]%andb_true_iff. by apply defined_false. Qed.

Lemma sanitize_fields_clean (fields : list (string * value)) :
  Forall (fun kv => isUndefined kv.2 = false → hasUndefined (sanitizeForFirestore kv.2) = false)
         fields →
  existsb (fun kv => hasUndefined kv.2) (assignAll fields).2 = false.
Proof.
  intros IH. rewrite assignAll_fields.
  induction IH as [|[k x] fields Hx _ IHfields]; [done|].
  cbn [List.filter]. destruct (kept (k, x)) eqn:Ek; [|done].
  apply kept_defined in Ek. cbn [List.map existsb sanitizeField fst snd] in *.
  by rewrite (Hx Ek).
Qed.

Lemma sanitize_hasUndefined (v : value) :
  isUndefined v = false → hasUndefined (sanitizeForFirestore v) = false.
Proof.
  induction v as [ | | b | n | s | items IH | fields IH | proto fields IH]
    using value_induction; intros Hv; try done.
  - rewrite sanitize_array, filter_map_sanitize. cbn [hasUndefined]. clear Hv.
    induction IH as [|x items Hx _ IHitems]; [done|].
    cbn [List.filter]. destruct (defined x) eqn:Ex; [|done].
    apply defined_false in Ex. cbn [List.map existsb]. by rewrite Hx.
  - rewrite sanitize_object, hasUndefined_rebuilt. by apply sanitize_fields_clean.
  - rewrite sanitize_objectOf, hasUndefined_rebuilt. by apply sanitize_fields_clean.
Qed.






Lemma existsb_isProtoKey (fields : list (string * value)) :
  existsb (fun kv => isProtoKey kv || hasProtoKey kv.2) fields = false →
  existsb isProtoKey fields = false.
Proof.
  induction fields as [|kv fields IH]; [done|]. cbn [existsb].
  intros [[Hk _]%orb_false_iff Hrest]%orb_false_iff. rewrite Hk. by apply IH.
Qed.

Lemma sanitize_fields_isPlain (fields : list (string * value)) :
  Forall (fun kv => hasProtoKey kv.2 = false → isPlain (sanitizeForFirestore kv.2) = true)
         fields →
  existsb (fun kv => isProtoKey kv || hasProtoKey kv.2) fields = false →
  isPlain (rebuilt (assignAll fields)) = true.
Proof.
  intros IH Hp. unfold rebuilt.
  rewrite (assignAll_prototype fields (existsb_isProtoKey fields Hp)).
  cbn [isPlain]. rewrite assignAll_fields.
  induction IH as [|[k x] fields Hx _ IHfields]; [done|].
  cbn [existsb snd] in *.
  apply orb_false_iff in Hp as [[Hk Hx']%orb_false_iff Hrest].
  cbn [List.filter]. destruct (kept (k, x)); [|by apply IHfields].
  cbn [List.map forallb sanitizeField fst snd].
  change (isProtoKey (sanitizeField (k, x))) with (isProtoKey (k, x)).
  rewrite Hk, (Hx Hx'). by apply IHfields.
Qed.

(** Of a value without own keys ['__proto__'] every object is rebuilt on
    [Object.prototype]. *)
Lemma sanitize_isPlain (v : value) :
  hasProtoKey v = false → isPlain (sanitizeForFirestore v) = true.
Proof.
  induction v as [ | | b | n | s | items IH | fields IH | proto fields IH]
    using value_induction; try done.
  - rewrite sanitize_array, filter_map_sanitize. cbn [isPlain hasProtoKey].
    induction IH as [|x items Hx _ IHitems]; [done|].
    cbn [existsb]. intros [Hp Hrest]%orb_false_iff.
    cbn [List.filter]. destruct (defined x); [|by apply IHitems].
    cbn [List.map forallb]. rewrite (Hx Hp). by apply IHitems.
  - intros Hp. rewrite sanitize_object. by apply sanitize_fields_isPlain.
  - intros Hp. rewrite sanitize_objectOf. by apply sanitize_fields_isPlain.
Qed.

Lemma isPlain_hasCustomPrototype (v : value) :
  isPlain v = true → hasCustomPrototype v = false.
Proof.
  induction v as [ | | b | n | s | items IH | fields IH | proto fields IH]
    using value_induction; try done.
  - cbn [isPlain hasCustomPrototype].
    induction IH as [|x items Hx _ IHitems]; [done|].
    cbn [forallb existsb]. intros [Hp Hrest]%andb_true_iff.
    rewrite (Hx Hp). by apply IHitems.
  - cbn [isPlain hasCustomPrototype].
    induction IH as [|[k x] fields Hx _ IHfields]; [done|].
    cbn [forallb existsb snd] in *. intros [[_ Hp]%andb_true_iff Hrest]%andb_true_iff.
    rewrite (Hx Hp). by apply IHfields.
Qed.

Lemma isPlain_hasProtoKey (v : value) : isPlain v = true → hasProtoKey v = false.
Proof.
  induction v as [ | | b | n | s | items IH | fields IH | proto fields IH]
    using value_induction; try done.
  - cbn [isPlain hasProtoKey].
    induction IH as [|x items Hx _ IHitems]; [done|].
    cbn [forallb existsb]. intros [Hp Hrest]%andb_true_iff.
    rewrite (Hx Hp). by apply IHitems.
  - cbn [isPlain hasProtoKey].
    induction IH as [|[k x] fields Hx _ IHfields]; [done|].
    cbn [forallb existsb snd] in *. intros [[Hk Hp]%andb_true_iff Hrest]%andb_true_iff.
    apply negb_true_iff in Hk. rewrite Hk, (Hx Hp). by apply IHfields.
Qed.

(** What an object without own keys ['__proto__'] is sanitized to is
    accepted as document data. *)
Lemma sanitize_object_valid (fields : list (string * value)) :
  hasProtoKey (VObject fields) = false →
  validDocument (sanitizeForFirestore (VObject fields)) = true.
Proof.
  intros Hp.
  pose proof (sanitize_hasUndefined (VObject fields) eq_refl) as Hu.
  pose proof (isPlain_hasCustomPrototype _ (sanitize_isPlain _ Hp)) as Hc.
  rewrite sanitize_object in *. unfold rebuilt in *.
  cbn [hasProtoKey] in Hp.
  rewrite (assignAll_prototype fields (existsb_isProtoKey fields Hp)) in *.
  unfold validDocument. by rewrite Hu, Hc.
Qed.

Lemma hasProtoKey_fmap {A} (f : A → value) (l : list A) :
  (∀ a, hasProtoKey (f a) = false) → existsb hasProtoKey (f <$> l) = false.
Proof.
  intros H. induction l as [|a l IH]; [done|].
  rewrite fmap_cons. cbn [existsb]. by rewrite H, IH.
Qed.

(** The payloads of [storage.ts] are object literals over typed records:
    no own key ['__proto__'] occurs in them. *)
Lemma boxValue_keys (b : Box) : hasProtoKey (boxValue b) = false.
Proof. reflexivity. Qed.

Lemma faceTagValue_keys (t : FaceTag) : hasProtoKey (faceTagValue t) = false.
Proof. unfold faceTagValue. by destruct (confidence t). Qed.

Lemma detectedFaceValue_keys (f : DetectedFaceData) :
  hasProtoKey (detectedFaceValue f) = false.
Proof.
  unfold detectedFaceValue.
  by destruct (assignedMemberId f), (assignedMemberName f), (suggestedMemberId f),
    (suggestedMemberName f), (df_confidence f).
Qed.

Lemma faceTagsValue_keys (ts : list FaceTag) : hasProtoKey (faceTagsValue ts) = false.
Proof. apply hasProtoKey_fmap, faceTagValue_keys. Qed.

Lemma detectedFacesValue_keys (fs : list DetectedFaceData) :
  hasProtoKey (detectedFacesValue fs) = false.
Proof. apply hasProtoKey_fmap, detectedFaceValue_keys. Qed.

Lemma vStrings_keys (l : list string) : hasProtoKey (vStrings l) = false.
Proof. by apply hasProtoKey_fmap. Qed.

Lemma storedPhotoValue_keys (p : StoredPhoto) : hasProtoKey (storedPhotoValue p) = false.
Proof.
  unfold storedPhotoValue. cbn [hasProtoKey existsb isProtoKey fst snd].
  rewrite faceTagsValue_keys.
  destruct (detectedFaces p) as [fs|]; cbn [vOpt]; [|done].
  by rewrite detectedFacesValue_keys.
Qed.

Lemma tripValue_keys (t : TripData) : hasProtoKey (tripValue t) = false.
Proof.
  unfold tripValue. cbn [hasProtoKey existsb isProtoKey fst snd].
  rewrite !vStrings_keys. by destruct (isHome t).
Qed.

Lemma tripsJsonValue_keys (d : TripsJson) : hasProtoKey (tripsJsonValue d) = false.
Proof.
  unfold tripsJsonValue. cbn [hasProtoKey existsb isProtoKey fst snd].
  rewrite (hasProtoKey_fmap tripValue (visited d) tripValue_keys).
  by destruct (homeCountry d).
Qed.

Lemma caption_payload_valid (cap : string) :
  validDocument (sanitizeForFirestore (VObject [("caption", VString cap)])) = true.
Proof. by apply sanitize_object_valid. Qed.

Lemma faceTags_payload_valid (tags : list FaceTag) :
  validDocument (sanitizeForFirestore (VObject [("faceTags", faceTagsValue tags)])) = true.
Proof.
  apply sanitize_object_valid. cbn [hasProtoKey existsb isProtoKey fst snd].
  by rewrite faceTagsValue_keys.
Qed.

Lemma detectedFaces_payload_valid (faces : list DetectedFaceData) :
  validDocument (sanitizeForFirestore (VObject [("detectedFaces", detectedFacesValue faces)]))
  = true.
Proof.
  apply sanitize_object_valid. cbn [hasProtoKey existsb isProtoKey fst snd].
  by rewrite detectedFacesValue_keys.
Qed.

(** The payloads of the five write paths of [storage.ts] are accepted. *)
Lemma write_payloads_valid :
  (∀ data, validDocument (sanitizeForFirestore (tripsJsonValue data)) = true)
  ∧ (∀ photo, validDocument (sanitizeForFirestore (storedPhotoValue photo)) = true)
  ∧ (∀ cap, validDocument (sanitizeForFirestore (VObject [("caption", VString cap)])) = true)
  ∧ (∀ tags, validDocument
               (sanitizeForFirestore (VObject [("faceTags", faceTagsValue tags)])) = true)
  ∧ (∀ faces, validDocument
                (sanitizeForFirestore (VObject [("detectedFaces", detectedFacesValue faces)]))
              = true).
Proof.
  split; [|split; [|split; [|split]]].
  - intros data. apply sanitize_object_valid, tripsJsonValue_keys.
  - intros photo. apply sanitize_object_valid, storedPhotoValue_keys.
  - apply caption_payload_valid.
  - apply faceTags_payload_valid.
  - apply detectedFaces_payload_valid.
Qed.


(** [JSON.parse('{"__proto__":null,"a":1}')] *)
Definition protoPayload : value :=
  VObject [("__proto__", VNull); ("a", VNumber 1)].




End SanitizeFacts.

(** ** Reading and deleting *)

Module StorageFacts.

Import JsFacts.

(** Unfolds the sequencing of remote calls. *)
Ltac io_unfold :=
  unfold tryCatch, throw, remote, mbind, mret, io_bind, io_ret in *; simpl in *.

(** A world in which nothing is stored and every call goes through. *)
Definition emptyWorld (urls : string → string) : World :=
  {| tripsConfig := None; photoDocs := ∅; familyDocs := ∅; objects := ∅;
     urlOf := urls; pending := [] |}.

Lemma remote_failure {A} (act : io A) (w : World) (e : error) (rest : list fault) :
  pending w = Some e :: rest → remote act w = (with_pending rest w, Err e).
Proof. intros H. unfold remote. by rewrite H. Qed.

(** The reads resolve whatever the transport does. *)
Lemma reads_resolve (localeCompare : string → string → Z) (iso : string) (w : World) :
  (∃ w' r, getTripsData w = (w', Ok r))
  ∧ (∃ w' r, getPhotosForCountry iso w = (w', Ok r))
  ∧ (∃ w' r, getAllPhotos w = (w', Ok r))
  ∧ (∃ w' r, FaceRecognition.getFamilyMembers localeCompare w = (w', Ok r)).
Proof.
  unfold getTripsData, getPhotosForCountry, getAllPhotos,
    FaceRecognition.getFamilyMembers, getDoc_trips, getDocs_photos_where,
    getDocs_photos, FaceRecognition.getDocs_family.
  io_unfold.
  repeat split; destruct (pending w) as [|[e|] rest]; simpl; eauto;
    destruct (tripsConfig _); eauto.
Qed.

(** C10. When the round trip of a read fails, the failure is caught:
    [getTripsData] resolves to [null], [getPhotosForCountry], [getAllPhotos]
    and [getFamilyMembers] resolve to the empty list; these are the very
    answers given by a store that holds nothing, so the caller cannot tell
    the two apart. *)
Theorem reads_swallow_failures (localeCompare : string → string → Z) (iso : string)
    (w : World) (e : error) (rest : list fault) :
  pending w = Some e :: rest →
  (getTripsData w = (with_pending rest w, Ok None)
   ∧ getPhotosForCountry iso w = (with_pending rest w, Ok [])
   ∧ getAllPhotos w = (with_pending rest w, Ok [])
   ∧ FaceRecognition.getFamilyMembers localeCompare w = (with_pending rest w, Ok []))
  ∧ (∀ urls,
       (getTripsData (emptyWorld urls)).2 = (getTripsData w).2
       ∧ (getPhotosForCountry iso (emptyWorld urls)).2 = (getPhotosForCountry iso w).2
       ∧ (getAllPhotos (emptyWorld urls)).2 = (getAllPhotos w).2
       ∧ (FaceRecognition.getFamilyMembers localeCompare (emptyWorld urls)).2
         = (FaceRecognition.getFamilyMembers localeCompare w).2).
Proof.
  intros Hfail.
  assert (H : getTripsData w = (with_pending rest w, Ok None)
   ∧ getPhotosForCountry iso w = (with_pending rest w, Ok [])
   ∧ getAllPhotos w = (with_pending rest w, Ok [])
   ∧ FaceRecognition.getFamilyMembers localeCompare w = (with_pending rest w, Ok [])).
  { unfold getTripsData, getPhotosForCountry, getAllPhotos,
      FaceRecognition.getFamilyMembers, getDoc_trips, getDocs_photos_where,
      getDocs_photos, FaceRecognition.getDocs_family.
    unfold tryCatch, mbind, io_bind.
    rewrite !(remote_failure _ w e rest Hfail). by repeat split. }
  split; [exact H|].
  intros urls. destruct H as (-> & -> & -> & ->).
  repeat split; vm_compute; reflexivity.
Qed.

(** Every photo document is stored under its own [id], as [savePhoto] does. *)
Definition keyed (w : World) : Prop :=
  ∀ k p, photoDocs w !! k = Some p → id p = k.

(** A remote call keeps what its action keeps of the photo documents. *)
Lemma remote_photoDocs {A} (act : io A) (P : gmap string StoredPhoto → Prop) (w w' : World)
    (r : result A) :
  (∀ v v' r', act v = (v', r') → P (photoDocs v) → P (photoDocs v')) →
  remote act w = (w', r) → P (photoDocs w) → P (photoDocs w').
Proof.
  intros Hact. unfold remote.
  destruct (pending w) as [|[e|] rest].
  - apply Hact.
  - intros [= <- <-]. simpl. done.
  - intros H Hp. exact (Hact _ _ _ H Hp).
Qed.

(** [savePhoto] stores the new document under the id it carries. *)
Lemma savePhoto_keyed (t_id : Z) (rnd : string) (t_created : Z) (iso : string)
    (file : File) (cap : string) (tags : list FaceTag) (faces : list DetectedFaceData)
    (w w' : World) (r : result StoredPhoto) :
  savePhoto t_id rnd t_created iso file cap tags faces w = (w', r) →
  keyed w → keyed w'.
Proof.
  unfold savePhoto, tryCatch, throw, mbind, mret, io_bind, io_ret.
  set (photoId := iso +:+ "-" +:+ pretty t_id +:+ "-" +:+ rnd).
  destruct (uploadBytes _ file w) as [w1 r1] eqn:E1.
  assert (K1 : keyed w → keyed w1).
  { unfold keyed.
    apply (remote_photoDocs _ (fun d => ∀ k p, d !! k = Some p → id p = k) _ _ _)
      with (2 := E1).
    intros v v' r' [= <- <-]. done. }
  destruct r1 as [[]|e]; [|intros [= <- <-]; exact K1].
  destruct (getDownloadURL _ w1) as [w2 r2] eqn:E2.
  assert (K2 : keyed w1 → keyed w2).
  { unfold keyed.
    apply (remote_photoDocs _ (fun d => ∀ k p, d !! k = Some p → id p = k) _ _ _)
      with (2 := E2).
    intros v v' r'. destruct (objects v !! _); intros [= <- <-]; done. }
  destruct r2 as [link|e]; [|intros [= <- <-]; auto].
  destruct (setDoc_photo _ _ _ w2) as [w3 r3] eqn:E3.
  assert (K3 : keyed w2 → keyed w3).
  { unfold keyed.
    apply (remote_photoDocs _ (fun d => ∀ k p, d !! k = Some p → id p = k) _ _ _)
      with (2 := E3).
    intros v v' r'. destruct (validDocument _); intros [= <- <-]; [|done].
    simpl. intros Hv k p. destruct (decide (photoId = k)) as [<-|Hne].
    - rewrite lookup_insert_eq. by intros [= <-].
    - rewrite lookup_insert_ne by done. apply Hv. }
  destruct r3 as [[]|e]; intros [= <- <-]; auto.
Qed.
Lemma getPhotosForCountry_stored (iso : string) (w w' : World) (ps : list StoredPhoto)
    (p : StoredPhoto) :
  getPhotosForCountry iso w = (w', Ok ps) → p ∈ ps →
  ∃ k, photoDocs w !! k = Some p ∧ countryIso p = iso.
Proof.
  unfold getPhotosForCountry, getDocs_photos_where. io_unfold.
  intros Hrun Hp.
  assert (Hin : p ∈ List.filter (fun p => String.eqb (countryIso p) iso)
                      (snd <$> map_to_list (photoDocs w))).
  { destruct (pending w) as [|[e|] rest]; simpl in Hrun;
      injection Hrun as _ <-; try (by apply sortBy_elem_of in Hp).
    by apply elem_of_nil in Hp. }
  apply list_elem_of_In, filter_In in Hin as [Hin Hiso].
  apply list_elem_of_In, list_elem_of_fmap in Hin as ([k q] & -> & Hkq).
  apply elem_of_map_to_list in Hkq. apply String.eqb_eq in Hiso. eauto.
Qed.

(** C8. [deletePhoto] deletes the blob [photos/{photoId}] first and the
    metadata document second, and re-raises what either step throws
    without undoing the other: when the blob deletion fails, the documents
    and the blobs are as before; when the document deletion fails, the blob
    is gone and the documents are as before; when both succeed, blob and
    document are gone and no later [getPhotosForCountry] returns a photo
    with this id. *)
Theorem deletePhoto_blob_then_document (photoId : string) (w : World) :
  let path := "photos/" +:+ photoId in
  (∀ w1 e, deleteObject path w = (w1, Err e) →
     deletePhoto photoId w = (w1, Err e)
     ∧ photoDocs w1 = photoDocs w ∧ objects w1 = objects w)
  ∧ (∀ w1 w2 e,
       deleteObject path w = (w1, Ok ()) → deleteDoc_photo photoId w1 = (w2, Err e) →
       deletePhoto photoId w = (w2, Err e)
       ∧ photoDocs w2 = photoDocs w ∧ objects w2 = delete path (objects w))
  ∧ (∀ w1 w2,
       deleteObject path w = (w1, Ok ()) → deleteDoc_photo photoId w1 = (w2, Ok ()) →
       deletePhoto photoId w = (w2, Ok ())
       ∧ photoDocs w2 = delete photoId (photoDocs w)
       ∧ objects w2 = delete path (objects w)
       ∧ (keyed w → ∀ iso w3 ps p,
            getPhotosForCountry iso w2 = (w3, Ok ps) → p ∈ ps → id p ≠ photoId)).
Proof.
  intros path.
  assert (Hblob : ∀ w1 r, deleteObject path w = (w1, r) →
            photoDocs w1 = photoDocs w
            ∧ match r with
              | Ok _ => objects w1 = delete path (objects w)
              | Err _ => objects w1 = objects w
              end).
  { intros w1 r. unfold deleteObject, remote.
    destruct (pending w) as [|[e|] rest]; simpl;
      try destruct (objects w !! path); intros [= <- <-]; done. }
  assert (Hdoc : ∀ w1 w2 r, deleteDoc_photo photoId w1 = (w2, r) →
            objects w2 = objects w1
            ∧ match r with
              | Ok _ => photoDocs w2 = delete photoId (photoDocs w1)
              | Err _ => photoDocs w2 = photoDocs w1
              end).
  { intros w1 w2 r. unfold deleteDoc_photo, remote.
    destruct (pending w1) as [|[e|] rest]; simpl; intros [= <- <-]; done. }
  split; [|split].
  - intros w1 e Hd. destruct (Hblob _ _ Hd) as [? ?].
    unfold deletePhoto, tryCatch, mbind, io_bind, throw. fold path. by rewrite Hd.
  - intros w1 w2 e Hd1 Hd2.
    destruct (Hblob _ _ Hd1) as [E1 E2], (Hdoc _ _ _ Hd2) as [E3 E4].
    unfold deletePhoto, tryCatch, mbind, io_bind, throw. fold path. rewrite Hd1, Hd2.
    repeat split; congruence.
  - intros w1 w2 Hd1 Hd2.
    destruct (Hblob _ _ Hd1) as [E1 E2], (Hdoc _ _ _ Hd2) as [E3 E4].
    unfold deletePhoto, tryCatch, mbind, io_bind, throw. fold path. rewrite Hd1, Hd2.
    repeat split; try congruence.
    intros Hkeyed iso w3 ps p Hget Hp Heq.
    destruct (getPhotosForCountry_stored _ _ _ _ _ Hget Hp) as (k & Hk & _).
    rewrite E4, E1 in Hk.
    destruct (decide (photoId = k)) as [<-|Hne].
    + by rewrite lookup_delete_eq in Hk.
    + rewrite lookup_delete_ne in Hk by done. apply Hkeyed in Hk. congruence.
Qed.

End StorageFacts.

(** ** The country panel *)

Module PanelFacts.

Import CountryPanel JsFacts SanitizeFacts StorageFacts.

(** C6. A file that is neither WebP nor HEIC/HEIF, judged by its MIME type
    and by its file name in lower case, is returned as it is, whatever the
    converter and the canvas would answer: the normalizer does not re-encode
    or downscale it. *)
Theorem convertToJpegIfNeeded_supported_unchanged
    (heic2any : File → result (option (list Byte.byte)))
    (decodeImage : File → result (Z * Z)) (getContext2d : bool)
    (toJpegBlob : File → Z → Z → result (list Byte.byte)) (file : File) :
  let name := toLowerCase (file_name file) in
  let type := toLowerCase (file_type file) in
  type ≠ "image/webp" → type ≠ "image/heic" → type ≠ "image/heif" →
  endsWith name ".webp" = false → endsWith name ".heic" = false →
  endsWith name ".heif" = false →
  convertToJpegIfNeeded heic2any decodeImage getContext2d toJpegBlob file = file.
Proof.
  intros name type Hwebp Hheic Hheif Nwebp Nheic Nheif.
  unfold convertToJpegIfNeeded, isWebp, isHeic. fold name type.
  rewrite Nwebp, Nheic, Nheif.
  apply String.eqb_neq in Hwebp, Hheic, Hheif.
  by rewrite Hwebp, Hheic, Hheif.
Qed.

Lemma updateDoc_photo_ok (k : string) (payload : value)
    (upd : StoredPhoto → StoredPhoto) (w : World) (p : StoredPhoto) :
  pending w = [] → photoDocs w !! k = Some p → validDocument payload = true →
  updateDoc_photo k payload upd w
  = (with_photoDocs (<[k := upd p]> (photoDocs w)) w, Ok ()).
Proof.
  intros Hpend Hk Hvalid. unfold updateDoc_photo, remote.
  by rewrite Hpend, Hvalid, Hk.
Qed.

Lemma find_fmap_keeping {A} (g : A → bool) (f : A → A) (l : list A) :
  (∀ a, g (f a) = g a) → List.find g (f <$> l) = f <$> List.find g l.
Proof.
  intros Hg. induction l as [|a l IH]; [done|].
  simpl. rewrite Hg. by destruct (g a).
Qed.

(** The local copy of a photo after the two updates of [removePerson]. *)
Definition untagged (member : string) (p : StoredPhoto) : StoredPhoto :=
  let next := List.filter (fun t => negb (String.eqb (memberId t) member)) (faceTags p) in
  let dfs := (fun df => if negb (assignedTo member df) then df else withoutAssignment df)
               <$> default [] (detectedFaces p) in
  if (0 <? length dfs)%nat
  then with_detectedFaces dfs (with_faceTags next p)
  else with_faceTags next p.

(** How a detected face relates to itself after member [m] was removed. *)
Definition unassigned (m : string) (df df' : DetectedFaceData) : Prop :=
  (assignedMemberId df = Some m
   ∧ assignedMemberId df' = None ∧ assignedMemberName df' = None
   ∧ df_id df' = df_id df ∧ df_thumbnail df' = df_thumbnail df
   ∧ df_box df' = df_box df ∧ descriptorString df' = descriptorString df
   ∧ suggestedMemberId df' = suggestedMemberId df
   ∧ suggestedMemberName df' = suggestedMemberName df
   ∧ df_confidence df' = df_confidence df)
  ∨ (assignedMemberId df ≠ Some m ∧ df' = df).

Lemma assignedTo_spec (m : string) (df : DetectedFaceData) :
  assignedTo m df = true ↔ assignedMemberId df = Some m.
Proof.
  unfold assignedTo. destruct (assignedMemberId df) as [a|]; [|done].
  rewrite String.eqb_eq. split; congruence.
Qed.

Lemma unassigned_fmap (m : string) (dfs : list DetectedFaceData) :
  Forall2 (unassigned m) dfs
    ((fun df => if negb (assignedTo m df) then df else withoutAssignment df) <$> dfs).
Proof.
  induction dfs as [|df dfs IH]; constructor; [|exact IH].
  destruct (assignedTo m df) eqn:E; simpl.
  - left. apply assignedTo_spec in E. by repeat split.
  - right. split; [|done]. intros H. apply assignedTo_spec in H. congruence.
Qed.

Lemma updatePhotoFaceTags_ok (k : string) (tags : list FaceTag) (w : World)
    (p : StoredPhoto) :
  pending w = [] → photoDocs w !! k = Some p →
  updatePhotoFaceTags k tags w
  = (with_photoDocs (<[k := with_faceTags tags p]> (photoDocs w)) w, Ok ()).
Proof.
  intros Hpend Hk. unfold updatePhotoFaceTags, tryCatch.
  by rewrite (updateDoc_photo_ok _ _ _ _ p Hpend Hk (faceTags_payload_valid tags)).
Qed.

Lemma updatePhotoDetectedFaces_ok (k : string) (faces : list DetectedFaceData)
    (w : World) (p : StoredPhoto) :
  pending w = [] → photoDocs w !! k = Some p →
  updatePhotoDetectedFaces k faces w
  = (with_photoDocs (<[k := with_detectedFaces faces p]> (photoDocs w)) w, Ok ()).
Proof.
  intros Hpend Hk. unfold updatePhotoDetectedFaces, tryCatch.
  by rewrite (updateDoc_photo_ok _ _ _ _ p Hpend Hk (detectedFaces_payload_valid faces)).
Qed.

Lemma handleUpdateFaceTags_ok (k : string) (tags : list FaceTag) (st : Panel)
    (w : World) (p : StoredPhoto) :
  pending w = [] → photoDocs w !! k = Some p →
  handleUpdateFaceTags k tags st w
  = (with_photoDocs (<[k := with_faceTags tags p]> (photoDocs w)) w,
     Ok (setPhotos
           (fmap (fun p => if String.eqb (id p) k then with_faceTags tags p else p)) st)).
Proof.
  intros Hpend Hk. unfold handleUpdateFaceTags, tryCatch, mbind, io_bind.
  by rewrite (updatePhotoFaceTags_ok _ _ _ p Hpend Hk).
Qed.

Lemma activePhoto_id (st : Panel) (active : StoredPhoto) :
  activePhoto st = Some active → activePhotoId st = Some (id active).
Proof.
  unfold activePhoto. destruct (activePhotoId st) as [i|]; [|done].
  intros H. apply find_some in H as [_ H]. apply String.eqb_eq in H. by rewrite H.
Qed.

Lemma activePhoto_setPhotos (f : StoredPhoto → StoredPhoto) (st : Panel) :
  (∀ p, id (f p) = id p) →
  activePhoto (setPhotos (fmap f) st) = f <$> activePhoto st.
Proof.
  intros Hid. unfold activePhoto, setPhotos. simpl.
  destruct (activePhotoId st) as [i|]; [|done].
  apply find_fmap_keeping. intros p. by rewrite Hid.
Qed.

Lemma untagged_faceTags (m : string) (p : StoredPhoto) :
  faceTags (untagged m p)
  = List.filter (fun t => negb (String.eqb (memberId t) m)) (faceTags p).
Proof. unfold untagged. by destruct (0 <? _)%nat. Qed.

Lemma untagged_detectedFaces (m : string) (p : StoredPhoto) :
  default [] (detectedFaces (untagged m p))
  = (fun df => if negb (assignedTo m df) then df else withoutAssignment df)
      <$> default [] (detectedFaces p).
Proof.
  unfold untagged. destruct (0 <? _)%nat eqn:E; [done|]. simpl.
  destruct (default [] (detectedFaces p)); [done|discriminate].
Qed.

Lemma filter_sublist {A} (f : A → bool) (l : list A) : sublist (List.filter f l) l.
Proof.
  induction l as [|a l IH]; [done|]. simpl. destruct (f a); by constructor.
Qed.

(** C7. With an active photo whose document exists and with both writes
    going through, [removePerson m] resolves and leaves, in the panel and in
    the store alike, the photo with exactly its face tags whose [memberId]
    is not [m], in their order, and with its detected faces in place, those
    assigned to [m] having lost [assignedMemberId] and [assignedMemberName]
    and nothing else, the others being as they were; the other fields of
    the photo, the other photos and the other documents are untouched. *)
Theorem removePerson_clears_tag_and_assignment (m : string) (st : Panel) (w : World)
    (active stored : StoredPhoto) :
  activePhoto st = Some active →
  pending w = [] →
  photoDocs w !! id active = Some stored →
  ∃ w' st' active' stored',
    removePerson m st w = (w', Ok st')
    ∧ activePhoto st' = Some active'
    ∧ photoDocs w' !! id active = Some stored'
    ∧ (∀ t, t ∈ faceTags active' ↔ t ∈ faceTags active ∧ memberId t ≠ m)
    ∧ sublist (faceTags active') (faceTags active)
    ∧ Forall2 (unassigned m)
        (default [] (detectedFaces active)) (default [] (detectedFaces active'))
    ∧ (id active', countryIso active', url active', name active', caption active',
       createdAt active')
      = (id active, countryIso active, url active, name active, caption active,
         createdAt active)
    ∧ faceTags stored' = faceTags active'
    ∧ (default [] (detectedFaces active) ≠ [] →
       detectedFaces stored' = detectedFaces active')
    ∧ Forall2 (fun p p' => id p ≠ id active → p' = p) (photos st) (photos st')
    ∧ (∀ k, k ≠ id active → photoDocs w' !! k = photoDocs w !! k).
Proof.
  intros Hactive Hpend Hstored.
  set (next := List.filter (fun t => negb (String.eqb (memberId t) m)) (faceTags active)).
  set (dfs := (fun df => if negb (assignedTo m df) then df else withoutAssignment df)
                <$> default [] (detectedFaces active)).
  set (w1 := with_photoDocs (<[id active := with_faceTags next stored]> (photoDocs w)) w).
  set (f1 := fun p => if String.eqb (id p) (id active) then with_faceTags next p else p).
  set (f2 := fun p => if String.eqb (id p) (id active) then with_detectedFaces dfs p else p).
  assert (Hid1 : ∀ p, id (f1 p) = id p) by (intros p; unfold f1; by destruct (String.eqb _ _)).
  assert (Hid2 : ∀ p, id (f2 p) = id p) by (intros p; unfold f2; by destruct (String.eqb _ _)).
  assert (Hrun1 : handleUpdateFaceTags (id active) next st w = (w1, Ok (setPhotos (fmap f1) st)))
    by (by apply handleUpdateFaceTags_ok).
  assert (Htags : ∀ t, t ∈ next ↔ t ∈ faceTags active ∧ memberId t ≠ m).
  { intros t. unfold next. rewrite !list_elem_of_In, filter_In, negb_true_iff.
    by rewrite String.eqb_neq. }
  assert (Hsub : sublist next (faceTags active)).
  { apply filter_sublist. }
  exists (if (0 <? length dfs)%nat
          then with_photoDocs
                 (<[id active := with_detectedFaces dfs (with_faceTags next stored)]>
                    (photoDocs w1)) w1
          else w1),
         (if (0 <? length dfs)%nat
          then setPhotos (fmap f2) (setPhotos (fmap f1) st)
          else setPhotos (fmap f1) st),
         (untagged m active),
         (if (0 <? length dfs)%nat
          then with_detectedFaces dfs (with_faceTags next stored)
          else with_faceTags next stored).
  assert (Hrun : removePerson m st w
                 = (if (0 <? length dfs)%nat
                    then with_photoDocs
                           (<[id active := with_detectedFaces dfs (with_faceTags next stored)]>
                              (photoDocs w1)) w1
                    else w1,
                    Ok (if (0 <? length dfs)%nat
                        then setPhotos (fmap f2) (setPhotos (fmap f1) st)
                        else setPhotos (fmap f1) st))).
  { unfold removePerson. rewrite Hactive. fold next dfs.
    unfold mbind at 1, io_bind at 1. rewrite Hrun1.
    destruct (0 <? length dfs)%nat; [|done].
    unfold mbind, io_bind, mret, io_ret.
    rewrite (updatePhotoDetectedFaces_ok _ _ w1 (with_faceTags next stored)); [done|done|].
    unfold w1. simpl. apply lookup_insert_eq. }
  split; [exact Hrun|].
  assert (Heqb : String.eqb (id active) (id active) = true) by apply String.eqb_refl.
  split; [|split; [|split; [|split; [|split; [|split; [|split; [|split; [|split]]]]]]]].
  - unfold untagged. fold next dfs.
    destruct (0 <? length dfs)%nat.
    + rewrite !activePhoto_setPhotos, Hactive by done. simpl.
      unfold f2, f1. rewrite Heqb. simpl. by rewrite Heqb.
    + rewrite activePhoto_setPhotos, Hactive by done. simpl.
      unfold f1. by rewrite Heqb.
  - destruct (0 <? length dfs)%nat; simpl; apply lookup_insert_eq.
  - intros t. rewrite untagged_faceTags. apply Htags.
  - rewrite untagged_faceTags. exact Hsub.
  - rewrite untagged_detectedFaces. apply unassigned_fmap.
  - unfold untagged. by destruct (0 <? _)%nat.
  - rewrite untagged_faceTags. by destruct (0 <? length dfs)%nat.
  - intros Hne. unfold untagged. fold next dfs.
    destruct (0 <? length dfs)%nat eqn:E; [done|].
    exfalso. apply Hne. unfold dfs in E.
    destruct (default [] (detectedFaces active)); [done|discriminate].
  - assert (H1 : Forall2 (fun p p' => id p ≠ id active → p' = p)
                   (photos st) (f1 <$> photos st)).
    { apply Forall2_fmap_r, Forall_Forall2_diag, Forall_forall. intros p _ Hp.
      unfold f1. apply String.eqb_neq in Hp. by rewrite Hp. }
    destruct (0 <? length dfs)%nat; simpl; [|exact H1].
    rewrite <- list_fmap_compose.
    apply Forall2_fmap_r, Forall_Forall2_diag, Forall_forall. intros p _ Hp.
    unfold f1, f2. simpl. apply String.eqb_neq in Hp. rewrite Hp. by rewrite Hp.
  - intros k Hk.
    destruct (0 <? length dfs)%nat; simpl; by rewrite ?lookup_insert_ne.
Qed.

End PanelFacts.

(** ** Face matching *)

Module FaceFacts.

Import FaceRecognition JsFacts StorageFacts.

Lemma mapM_Ok {A B} (f : A → result B) (g : A → B) (l : list A) :
  (∀ a, a ∈ l → f a = Ok (g a)) → mapM f l = Ok (g <$> l).
Proof.
  induction l as [|a l IH]; intros H; [done|]. simpl.
  rewrite (H a) by left. simpl. rewrite IH; [done|].
  intros b Hb. apply H. by right.
Qed.

Lemma mapM_inv {A B} (f : A → result B) (l : list A) (ys : list B) :
  mapM f l = Ok ys → Forall2 (fun a y => f a = Ok y) l ys.
Proof.
  revert ys. induction l as [|a l IH]; intros ys; simpl.
  - intros [= <-]. constructor.
  - destruct (f a) as [y|e] eqn:Ea; simpl; [|done].
    destruct (mapM f l) as [ys'|e] eqn:El; simpl; [|done].
    intros [= <-]. constructor; [done|]. by apply IH.
Qed.

(** The descriptors confirmed for member id [mid] on tagged photos, in the
    order in which the photos and their faces are read. *)
Definition taggedDescriptors (training : list (string * Descriptor)) (mid : string)
  : list Descriptor :=
  snd <$> List.filter (fun t => String.eqb t.1 mid) training.

Lemma groupByMember_fold (training : list (string * Descriptor))
    (acc : gmap string (list Descriptor)) (mid : string) :
  default []
    (fold_left (fun byMember t => <[t.1 := default [] (byMember !! t.1) ++ [t.2]]> byMember)
               training acc !! mid)
  = default [] (acc !! mid) ++ taggedDescriptors training mid.
Proof.
  revert acc. induction training as [|[k d] training IH]; intros acc.
  - unfold taggedDescriptors. simpl. by rewrite app_nil_r.
  - simpl. rewrite IH. unfold taggedDescriptors. simpl.
    destruct (String.eqb_spec k mid) as [->|Hne]; simpl.
    + rewrite lookup_insert_eq. simpl. by rewrite <- app_assoc.
    + by rewrite lookup_insert_ne.
Qed.

Lemma groupByMember_lookup (training : list (string * Descriptor)) (mid : string) :
  default [] (groupByMember training !! mid) = taggedDescriptors training mid.
Proof. unfold groupByMember. by rewrite groupByMember_fold, lookup_empty. Qed.

Section Decoding.

Variable JSON_parse : string → result Descriptor.
Variable fround : Qc → Qc.

(** A training descriptor comes from a stored face that is assigned to the
    member and whose descriptor string parses. *)
Lemma trainingOfPhotos_elem (photos : list StoredPhoto) (mid : string) (d : Descriptor) :
  (mid, d) ∈ trainingOfPhotos JSON_parse photos
  ↔ ∃ p f, p ∈ photos ∧ f ∈ default [] (detectedFaces p)
           ∧ assignedMemberId f = Some mid ∧ mid ≠ "" ∧ descriptorString f ≠ ""
           ∧ JSON_parse (descriptorString f) = Ok d.
Proof.
  unfold trainingOfPhotos. rewrite list_elem_of_bind.
  setoid_rewrite list_elem_of_bind.
  assert (Hface : ∀ f, (mid, d) ∈ trainingOfFace JSON_parse f
            ↔ assignedMemberId f = Some mid ∧ mid ≠ "" ∧ descriptorString f ≠ ""
              ∧ JSON_parse (descriptorString f) = Ok d).
  { intros f. unfold trainingOfFace.
    destruct (assignedMemberId f) as [a|].
    - destruct (truthy a) eqn:Ea; simpl.
      + destruct (truthy (descriptorString f)) eqn:Es.
        * apply truthy_true in Ea, Es.
          destruct (JSON_parse (descriptorString f)) as [d'|e].
          -- rewrite list_elem_of_singleton. split.
             ++ intros [= -> ->]. done.
             ++ intros ([= ->] & _ & _ & [= ->]). done.
          -- rewrite elem_of_nil. split; [done|]. intros (_ & _ & _ & ?). done.
        * rewrite elem_of_nil. split; [done|]. intros (_ & _ & Hs & _).
          apply truthy_true in Hs. congruence.
      + rewrite elem_of_nil. split; [done|]. intros ([= ->] & Hm & _).
        apply truthy_true in Hm. congruence.
    - rewrite elem_of_nil. split; [done|]. intros (? & _). done. }
  split.
  - intros (p & (f & Hf & Hfp) & Hp). apply Hface in Hf. exists p, f. tauto.
  - intros (p & f & Hp & Hfp & H). exists p. split; [|done].
    exists f. split; [|done]. by apply Hface.
Qed.

(** The numbers of [d] in single precision, as a descriptor holds them. *)
Definition rounded (d : list Qc) : Descriptor := fround <$> d.

(** The member's own stored descriptors as the specification has them:
    decoded from [descriptorStrings] when that list has an entry, else
    from [descriptors] when that list has one, else from [descriptor]. *)
Definition ownDecoded (member : FamilyMember) : result (list Descriptor) :=
  let strings := default [] (descriptorStrings member) in
  let nested := default [] (descriptors member) in
  if (0 <? length strings)%nat then mapM JSON_parse strings
  else if (0 <? length nested)%nat then Ok (rounded <$> nested)
  else Ok (option_list (rounded <$> descriptor member)).

(** [getMemberDescriptors] decodes as the specification says. *)
Lemma getMemberDescriptors_decodes (member : FamilyMember) :
  getMemberDescriptors JSON_parse fround member = ownDecoded member.
Proof.
  unfold getMemberDescriptors, ownDecoded.
  destruct (descriptorStrings member) as [[|s ss]|]; try done;
    destruct (descriptors member) as [[|d ds]|]; try done;
    by destruct (descriptor member).
Qed.

(** The member's own descriptors, none when they do not decode. *)
Definition ownDescriptors (member : FamilyMember) : list Descriptor :=
  match ownDecoded member with
  | Ok ds => ds
  | Err _ => []
  end.

(** The reference set the specification gives a member: the tagged-photo
    descriptors when there is at least one, the member's own otherwise. *)
Definition referenceSet (training : list (string * Descriptor)) (member : FamilyMember)
  : list Descriptor :=
  match taggedDescriptors training (fm_id member) with
  | [] => ownDescriptors member
  | tagged => tagged
  end.

Definition hasReference (training : list (string * Descriptor)) (member : FamilyMember)
  : bool :=
  match referenceSet training member with
  | [] => false
  | _ => true
  end.

Definition labeled (training : list (string * Descriptor)) (member : FamilyMember)
  : LabeledFaceDescriptors :=
  {| label := fm_id member; lfd_descriptors := referenceSet training member |}.

(** The face [matchFaces] returns for the best match [m] of its
    descriptor: the face itself when the matcher found none, else the face
    with the member of that id and the confidence [1 - distance]. *)
Definition withMatch (members : list FamilyMember) (face : DetectedFace) (m : FaceMatch)
  : DetectedFace :=
  if String.eqb (match_label m) "unknown" then face
  else {| face_descriptor := face_descriptor face;
          face_box := face_box face;
          matchedMember :=
            List.find (fun fm => String.eqb (fm_id fm) (match_label m)) members;
          face_confidence := Some (1 - distance m)%Qc |}.

Lemma labeledOfMember_decoded (training : list (string * Descriptor))
    (member : FamilyMember) (own : list Descriptor) :
  getMemberDescriptors JSON_parse fround member = Ok own →
  labeledOfMember JSON_parse fround (groupByMember training) member
  = Ok (labeled training member).
Proof.
  intros Hown. unfold labeledOfMember, labeled, referenceSet, ownDescriptors.
  rewrite <- getMemberDescriptors_decodes, Hown, groupByMember_lookup. simpl.
  by destruct (taggedDescriptors training (fm_id member)).
Qed.

Lemma filter_labeled (training : list (string * Descriptor)) (members : list FamilyMember) :
  List.filter (fun ld => (0 <? length (lfd_descriptors ld))%nat)
              (labeled training <$> members)
  = labeled training <$> List.filter (hasReference training) members.
Proof.
  induction members as [|m members IH]; [done|].
  rewrite fmap_cons. cbn [List.filter]. rewrite IH.
  unfold hasReference. unfold labeled at 1. cbn [lfd_descriptors].
  by destruct (referenceSet training m).
Qed.

Variable localeCompare : string → string → Z.
Variable labelDistance : Descriptor → list Descriptor → result Qc.

(** The family members and the training descriptors stored in a world. *)
Definition membersOf (w : World) : list FamilyMember :=
  sortBy (fun a b => localeCompare (fm_name a) (fm_name b))
         (snd <$> map_to_list (familyDocs w)).

Definition trainingOf (w : World) : list (string * Descriptor) :=
  trainingOfPhotos JSON_parse (snd <$> map_to_list (photoDocs w)).

(** The next remote call goes through. *)
Definition readable (w : World) : bool :=
  match pending w with
  | Some _ :: _ => false
  | _ => true
  end.

(** The world after one remote call that writes nothing. *)
Definition afterRead (w : World) : World :=
  match pending w with
  | [] => w
  | _ :: rest => with_pending rest w
  end.

(** What [getFamilyMembers] and [getTrainingDescriptorsFromTaggedPhotos]
    answer in a world: what is stored, and nothing when the read fails. *)
Definition membersRead (w : World) : list FamilyMember :=
  if readable w then membersOf w else [].

Definition trainingRead (w : World) : list (string * Descriptor) :=
  if readable w then trainingOf w else [].

Lemma getFamilyMembers_run (w : World) :
  getFamilyMembers localeCompare w = (afterRead w, Ok (membersRead w)).
Proof.
  unfold getFamilyMembers, getDocs_family, membersRead, readable, afterRead, membersOf.
  unfold tryCatch, remote, mbind, mret, io_bind, io_ret.
  by destruct (pending w) as [|[e|] rest].
Qed.

Lemma getTrainingDescriptorsFromTaggedPhotos_run (w : World) :
  getTrainingDescriptorsFromTaggedPhotos JSON_parse w = (afterRead w, Ok (trainingRead w)).
Proof.
  unfold getTrainingDescriptorsFromTaggedPhotos, getAllPhotos, getDocs_photos.
  unfold trainingRead, readable, afterRead, trainingOf.
  unfold tryCatch, remote, mbind, mret, io_bind, io_ret.
  by destruct (pending w) as [|[e|] rest].
Qed.

Lemma afterRead_settled (w : World) : pending w = [] → afterRead w = w.
Proof. intros H. unfold afterRead. by rewrite H. Qed.

Lemma membersRead_settled (w : World) : pending w = [] → membersRead w = membersOf w.
Proof. intros H. unfold membersRead, readable. by rewrite H. Qed.

Lemma trainingRead_settled (w : World) : pending w = [] → trainingRead w = trainingOf w.
Proof. intros H. unfold trainingRead, readable. by rewrite H. Qed.

(** [matchFaces] in any world. *)
Lemma matchFaces_run_any (detected : list DetectedFace) (w : World) :
  matchFaces localeCompare JSON_parse fround labelDistance detected w
  = match membersRead w with
    | [] => (afterRead w, Ok detected)
    | _ =>
        (afterRead (afterRead w),
         lds ← labeledDescriptorsOf JSON_parse fround (trainingRead (afterRead w))
                                    (membersRead w);
         if (length lds =? 0)%nat then Ok detected
         else mapM (matchOne labelDistance (membersRead w) lds) detected)
    end.
Proof.
  unfold matchFaces. unfold mbind at 1. unfold io_bind.
  rewrite getFamilyMembers_run.
  destruct (membersRead w) as [|m members]; [done|].
  cbn [length Nat.eqb]. unfold mbind at 1. unfold io_bind.
  rewrite getTrainingDescriptorsFromTaggedPhotos_run.
  unfold mbind at 1. unfold io_bind, liftResult.
  destruct (labeledDescriptorsOf _ _ _ _) as [lds|e]; [|done].
  cbn [mbind result_bind Js.bind]. by destruct (length lds =? 0)%nat.
Qed.

(** [matchFaces] when both reads go through. *)
Lemma matchFaces_run (detected : list DetectedFace) (w : World) :
  pending w = [] →
  matchFaces localeCompare JSON_parse fround labelDistance detected w
  = (w,
     if (length (membersOf w) =? 0)%nat then Ok detected else
     lds ← labeledDescriptorsOf JSON_parse fround (trainingOf w) (membersOf w);
     if (length lds =? 0)%nat then Ok detected
     else mapM (matchOne labelDistance (membersOf w) lds) detected).
Proof.
  intros Hpend. rewrite matchFaces_run_any.
  rewrite (afterRead_settled w Hpend), (afterRead_settled w Hpend).
  rewrite (membersRead_settled w Hpend), (trainingRead_settled w Hpend).
  by destruct (membersOf w).
Qed.

Lemma labeledDescriptorsOf_decoded (training : list (string * Descriptor))
    (members : list FamilyMember) :
  (∀ m, m ∈ members → ∃ own, getMemberDescriptors JSON_parse fround m = Ok own) →
  labeledDescriptorsOf JSON_parse fround training members
  = Ok (labeled training <$> List.filter (hasReference training) members).
Proof.
  intros Hdec. unfold labeledDescriptorsOf.
  rewrite (mapM_Ok _ (labeled training)).
  - simpl. by rewrite filter_labeled.
  - intros m Hm. destruct (Hdec m Hm) as [own Hown].
    by apply (labeledOfMember_decoded training m own).
Qed.

(** The labelled sets exist exactly when every member's own descriptors
    decode: [getMemberDescriptors] runs for every member, and the first
    failure is the failure of the whole. *)
Lemma labeledDescriptorsOf_spec (training : list (string * Descriptor))
    (members : list FamilyMember) :
  labeledDescriptorsOf JSON_parse fround training members
  = (_ ← mapM ownDecoded members;
     Ok (labeled training <$> List.filter (hasReference training) members)).
Proof.
  destruct (mapM ownDecoded members) as [owns|e] eqn:Eown.
  - cbn [mbind result_bind Js.bind]. apply labeledDescriptorsOf_decoded.
    intros m Hm. apply mapM_inv in Eown.
    apply list_elem_of_lookup in Hm as [i Hi].
    destruct (Forall2_lookup_l _ _ _ _ _ Eown Hi) as (own & _ & Hown).
    exists own. by rewrite getMemberDescriptors_decodes.
  - cbn [mbind result_bind Js.bind]. unfold labeledDescriptorsOf.
    assert (Hfail : mapM (labeledOfMember JSON_parse fround (groupByMember training)) members
                    = Err e).
    { revert e Eown. induction members as [|m members IH]; intros e; [done|].
      cbn [mapM]. unfold labeledOfMember at 1.
      rewrite getMemberDescriptors_decodes.
      destruct (ownDecoded m) as [own|e']; cbn [mbind result_bind Js.bind];
        [|by intros [= ->]].
      destruct (mapM ownDecoded members) as [owns|e'']; cbn [Js.bind]; [done|].
      intros [= ->]. by rewrite (IH _ eq_refl). }
    by rewrite Hfail.
Qed.

Lemma taggedDescriptors_elem (training : list (string * Descriptor)) (mid : string)
    (d : Descriptor) :
  d ∈ taggedDescriptors training mid ↔ (mid, d) ∈ training.
Proof.
  unfold taggedDescriptors. rewrite list_elem_of_fmap. split.
  - intros ([k d'] & -> & H). apply list_elem_of_In, filter_In in H as [H E].
    simpl in E. apply String.eqb_eq in E. subst k. by apply list_elem_of_In.
  - intros H. exists (mid, d). split; [done|].
    apply list_elem_of_In, filter_In. split; [by apply list_elem_of_In|].
    simpl. apply String.eqb_refl.
Qed.

Lemma matchOne_withMatch (members : list FamilyMember)
    (lds : list LabeledFaceDescriptors) (face : DetectedFace) :
  matchOne labelDistance members lds face
  = (m ← findBestMatch labelDistance lds MATCH_THRESHOLD (face_descriptor face);
     Ok (withMatch members face m)).
Proof.
  unfold matchOne, withMatch.
  destruct (findBestMatch _ _ _ _) as [m|e]; [|done].
  cbn [mbind result_bind Js.bind]. by destruct (String.eqb (match_label m) "unknown").
Qed.

Lemma mapM_ext {A B} (f g : A → result B) (l : list A) :
  (∀ a, f a = g a) → mapM f l = mapM g l.
Proof. intros H. induction l as [|a l IH]; [done|]. cbn [mapM]. by rewrite H, IH. Qed.

(** C2. In any world, with [members] what the read of the family
    collection gives and [training] what the read of the photos gives
    (nothing when that read fails): the training descriptors are those of
    the stored faces that are assigned to a member and whose descriptor
    string parses; the reference set of a member is the list of the
    training descriptors for its id when there is at least one, and
    otherwise its own descriptors, which [getMemberDescriptors] decodes
    from [descriptorStrings] when that has an entry, else from
    [descriptors] when that has one, else from [descriptor]; and
    [matchFaces] asks the matcher, for every detected face, for the best
    match among the members that have a reference, each labelled with its
    id and holding its reference set, the members without a reference
    being left out.  [matchFaces] rejects, and no matcher is built, when
    the own descriptors of some member do not decode. *)
Theorem matchFaces_reference_sets (detected : list DetectedFace) (w : World) :
  let members := membersRead w in
  let training := trainingRead (afterRead w) in
  let expected := labeled training <$> List.filter (hasReference training) members in
  (∀ mid d,
     (mid, d) ∈ training
     ↔ readable (afterRead w) = true
       ∧ ∃ k p f, photoDocs w !! k = Some p ∧ f ∈ default [] (detectedFaces p)
                  ∧ assignedMemberId f = Some mid ∧ mid ≠ "" ∧ descriptorString f ≠ ""
                  ∧ JSON_parse (descriptorString f) = Ok d)
  ∧ (∀ m,
       (∀ ss, descriptorStrings m = Some ss → ss ≠ [] →
          getMemberDescriptors JSON_parse fround m = mapM JSON_parse ss)
       ∧ (∀ ds, default [] (descriptorStrings m) = [] → descriptors m = Some ds →
            ds ≠ [] →
            getMemberDescriptors JSON_parse fround m
            = Ok (rounded <$> ds))
       ∧ (∀ d, default [] (descriptorStrings m) = [] → default [] (descriptors m) = [] →
            descriptor m = Some d →
            getMemberDescriptors JSON_parse fround m = Ok [rounded d])
       ∧ (default [] (descriptorStrings m) = [] → default [] (descriptors m) = [] →
          descriptor m = None →
          getMemberDescriptors JSON_parse fround m = Ok []))
  ∧ (∀ m, m ∈ members →
       let tagged := taggedDescriptors training (fm_id m) in
       (∀ d, d ∈ tagged ↔ (fm_id m, d) ∈ training)
       ∧ (tagged ≠ [] → referenceSet training m = tagged)
       ∧ (tagged = [] → ∀ own,
            getMemberDescriptors JSON_parse fround m = Ok own →
            referenceSet training m = own)
       ∧ (labeled training m ∈ expected ↔ referenceSet training m ≠ []))
  ∧ matchFaces localeCompare JSON_parse fround labelDistance detected w
    = match members with
      | [] => (afterRead w, Ok detected)
      | _ =>
          (afterRead (afterRead w),
           _ ← mapM (getMemberDescriptors JSON_parse fround) members;
           match expected with
           | [] => Ok detected
           | _ =>
               mapM (fun face =>
                       m ← findBestMatch labelDistance expected MATCH_THRESHOLD
                                         (face_descriptor face);
                       Ok (withMatch members face m))
                    detected
           end)
      end.
Proof.
  intros members training expected. split; [|split; [|split]].
  - intros mid d. unfold training, trainingRead.
    destruct (readable (afterRead w)).
    + unfold trainingOf. rewrite trainingOfPhotos_elem.
      assert (Hdocs : photoDocs (afterRead w) = photoDocs w)
        by (unfold afterRead; by destruct (pending w)).
      rewrite Hdocs. split.
      * intros (p & f & Hp & H). split; [done|].
        apply list_elem_of_fmap in Hp as ([k q] & -> & Hkq).
        apply elem_of_map_to_list in Hkq. eauto.
      * intros (_ & k & p & f & Hk & H). exists p, f. split; [|done].
        apply list_elem_of_fmap. exists (k, p). split; [done|].
        by apply elem_of_map_to_list.
    + rewrite elem_of_nil. split; [done|]. by intros [? _].
  - intros m. rewrite getMemberDescriptors_decodes. unfold ownDecoded.
    split; [|split; [|split]].
    + intros ss -> Hss. cbn [default]. by destruct ss.
    + intros ds -> -> Hds. cbn [default length Nat.ltb Nat.leb]. by destruct ds.
    + by intros d -> -> ->.
    + by intros -> -> ->.
  - intros m Hm tagged.
    split; [intros d; apply taggedDescriptors_elem|].
    split; [|split].
    + intros Hne. unfold referenceSet. fold tagged. by destruct tagged.
    + intros Hnil own Hown. rewrite getMemberDescriptors_decodes in Hown.
      unfold referenceSet, ownDescriptors. fold tagged. by rewrite Hnil, Hown.
    + unfold expected. rewrite list_elem_of_fmap. split.
      * intros (m' & Heq & Hm').
        apply list_elem_of_In, filter_In in Hm' as [_ Hm'].
        unfold hasReference in Hm'.
        assert (E : referenceSet training m' = referenceSet training m)
          by (by injection Heq).
        rewrite E in Hm'. by destruct (referenceSet training m).
      * intros Hne. exists m. split; [done|].
        apply list_elem_of_In, filter_In. split; [by apply list_elem_of_In|].
        unfold hasReference. by destruct (referenceSet training m).
  - rewrite matchFaces_run_any. fold members training. subst expected.
    destruct members as [|m members'] eqn:Em; [done|]. f_equal. rewrite <- Em.
    rewrite labeledDescriptorsOf_spec.
    rewrite (mapM_ext (getMemberDescriptors JSON_parse fround) ownDecoded)
      by apply getMemberDescriptors_decodes.
    destruct (mapM ownDecoded members) as [owns|e]; [|done].
    cbn [mbind result_bind Js.bind].
    destruct (labeled training <$> List.filter (hasReference training) members)
      as [|ld lds]; [done|].
    cbn [length Nat.eqb]. apply mapM_ext. intros face. apply matchOne_withMatch.
Qed.

(** [{ ...face, matchedMember, confidence: 1 - 0 }] *)
Definition matchedWith (member : FamilyMember) (face : DetectedFace) : DetectedFace :=
  {| face_descriptor := face_descriptor face; face_box := face_box face;
     matchedMember := Some member; face_confidence := Some 1%Qc |}.

Lemma findBestMatch_self (lbl : string) (d : Descriptor) :
  (∀ a, labelDistance a [a] = Ok 0%Qc) →
  findBestMatch labelDistance [{| label := lbl; lfd_descriptors := [d] |}]
                MATCH_THRESHOLD d
  = Ok {| match_label := lbl; distance := 0%Qc |}.
Proof.
  intros Hself. unfold findBestMatch, matchDescriptor. simpl.
  by rewrite (Hself d).
Qed.

Lemma membersOf_singleton (w : World) (k : string) (m : FamilyMember) :
  familyDocs w = {[k := m]} → membersOf w = [m].
Proof. intros H. unfold membersOf. by rewrite H, map_to_list_singleton. Qed.

Lemma labeledDescriptorsOf_enrolled (m : FamilyMember) (d : Descriptor) :
  getMemberDescriptors JSON_parse fround m = Ok [d] →
  labeledDescriptorsOf JSON_parse fround [] [m]
  = Ok [{| label := fm_id m; lfd_descriptors := [d] |}].
Proof.
  intros Hown. unfold labeledDescriptorsOf, labeledOfMember, groupByMember. simpl.
  by rewrite lookup_empty, Hown.
Qed.

(** An id made by [createFamilyMember] or [saveFamilyMember] is not the
    label ['unknown'] of the matcher. *)
Lemma familyId_not_unknown (t_id : Z) (rnd : string) : familyId t_id rnd ≠ "unknown".
Proof. unfold familyId. simpl. discriminate. Qed.

(** One enrolled member with the single reference [d] and no training
    descriptors: every face with descriptor [d] is matched to the member
    at distance 0. *)
Lemma matchOne_enrolled (m : FamilyMember) (d : Descriptor) (face : DetectedFace) :
  (∀ a, labelDistance a [a] = Ok 0%Qc) →
  fm_id m ≠ "unknown" →
  face_descriptor face = d →
  matchOne labelDistance [m] [{| label := fm_id m; lfd_descriptors := [d] |}] face
  = Ok (matchedWith m face).
Proof.
  intros Hself Hid Hface.
  unfold matchOne. rewrite Hface, (findBestMatch_self (fm_id m) d Hself). simpl.
  apply String.eqb_neq in Hid. rewrite Hid, String.eqb_refl. simpl.
  unfold matchedWith. rewrite Hface. apply f_equal, f_equal, f_equal.
  apply Qcplus_0_r.
Qed.

(** C1. With a family-member collection holding exactly one member,
    enrolled under an id [family-<time>-<random>] as [createFamilyMember]
    and [saveFamilyMember] make it, whose only reference descriptor is [d],
    with the read of the collection going through and no training
    descriptor from tagged photos, [matchFaces] returns every detected face
    with descriptor [d] with [matchedMember] set to that member and
    [confidence] 1: the distance is 0, within the threshold of 0.55. *)
Theorem matchFaces_exact_descriptor (faces : list DetectedFace) (w : World)
    (k : string) (t_id : Z) (rnd : string) (m : FamilyMember) (d : Descriptor) :
  (∀ a, labelDistance a [a] = Ok 0%Qc) →
  readable w = true →
  familyDocs w = {[k := m]} →
  fm_id m = familyId t_id rnd →
  getMemberDescriptors JSON_parse fround m = Ok [d] →
  trainingRead (afterRead w) = [] →
  Forall (fun face => face_descriptor face = d) faces →
  matchFaces localeCompare JSON_parse fround labelDistance faces w
  = (afterRead (afterRead w), Ok (matchedWith m <$> faces)).
Proof.
  intros Hself Hread Hfam Hid Hown Htrain Hfaces.
  rewrite matchFaces_run_any. unfold membersRead. rewrite Hread.
  rewrite (membersOf_singleton w k m Hfam), Htrain.
  rewrite (labeledDescriptorsOf_enrolled m d Hown). simpl. f_equal.
  apply mapM_Ok. intros face Hface.
  rewrite Forall_forall in Hfaces. specialize (Hfaces face Hface).
  apply matchOne_enrolled; [done| |done].
  rewrite Hid. apply familyId_not_unknown.
Qed.

End Decoding.

End FaceFacts.

(** ** Concrete runs *)

Module Examples.

Import TripsData TripsFacts PhotoPreviews PreviewFacts SanitizeFacts StorageFacts.
Import FaceRecognition FaceFacts.

(** Stand-ins for the runtime: code-unit order for [localeCompare], a
    case mapping that leaves the characters outside ASCII as they are, a
    parser that knows two descriptor strings, a rounding that is exact on
    the numbers used here, 0 and 1, and for the matcher's distance the mean
    over the references of the summed squared differences (it throws on
    unequal lengths). *)
Definition unmapped (run : string) : string := run.

Definition froundExact (x : Qc) : Qc := x.

Definition codeUnitCompare (a b : string) : Z :=
  match String.compare a b with
  | Lt => -1
  | Eq => 0
  | Gt => 1
  end.

Definition parseKnown (s : string) : result Descriptor :=
  if String.eqb s "[1,0]" then Ok [1%Qc; 0%Qc]
  else if String.eqb s "[0,1]" then Ok [0%Qc; 1%Qc]
  else Err "SyntaxError".

Fixpoint sumSquares (a b : Descriptor) : Qc :=
  match a, b with
  | x :: a', y :: b' => ((x - y) * (x - y) + sumSquares a' b')%Qc
  | _, _ => 0%Qc
  end.

Definition squaredDistance (a b : Descriptor) : result Qc :=
  if (length a =? length b)%nat then Ok (sumSquares a b)
  else Err "euclideanDistance: arr1.length !== arr2.length".

Definition meanSquaredDistance (query : Descriptor) (refs : list Descriptor)
  : result Qc :=
  ds ← mapM (fun d => squaredDistance d query) refs;
  Ok (foldr Qcplus 0%Qc ds
      / Q2Qc (inject_Z (Z.of_nat (if (length refs =? 0)%nat then 1 else length refs))))%Qc.

Lemma squaredDistance_self (a : Descriptor) : squaredDistance a a = Ok 0%Qc.
Proof.
  unfold squaredDistance. rewrite Nat.eqb_refl. f_equal.
  induction a as [|x a IH]; [done|]. simpl. rewrite IH. ring.
Qed.

Lemma meanSquaredDistance_self (a : Descriptor) : meanSquaredDistance a [a] = Ok 0%Qc.
Proof.
  unfold meanSquaredDistance. simpl. rewrite squaredDistance_self. simpl.
  apply f_equal. rewrite Qcplus_0_r. apply Qcmult_0_l.
Qed.

Definition unitBox : Box := {| x := 0%Qc; y := 0%Qc; width := 1%Qc; height := 1%Qc |}.

Definition dad : FamilyMember :=
  {| fm_id := "family-1700000000000-k3j9x0q2a"; fm_name := "Dad";
     descriptorStrings := Some ["[1,0]"]; photoUrls := Some []; fm_createdAt := 1700000000000;
     descriptor := None; descriptors := None; photoUrl := None |}.

Definition detection (d : Descriptor) : DetectedFace :=
  {| face_descriptor := d; face_box := unitBox; matchedMember := None;
     face_confidence := None |}.

Definition familyWorld (key : string) (member : FamilyMember) : World :=
  {| tripsConfig := None; photoDocs := ∅; familyDocs := {[key := member]};
     objects := ∅; urlOf := fun path => "https://blobs.example/" +:+ path;
     pending := [] |}.

Lemma matchFaces_exact_descriptor_witness :
  matchFaces codeUnitCompare parseKnown froundExact meanSquaredDistance
             [detection [1%Qc; 0%Qc]] (familyWorld (fm_id dad) dad)
  = (familyWorld (fm_id dad) dad, Ok [matchedWith dad (detection [1%Qc; 0%Qc])]).
Proof.
  apply (matchFaces_exact_descriptor parseKnown froundExact codeUnitCompare
           meanSquaredDistance [detection [1%Qc; 0%Qc]] (familyWorld (fm_id dad) dad)
           (fm_id dad) 1700000000000 "k3j9x0q2a" dad [1%Qc; 0%Qc]).
  - exact meanSquaredDistance_self.
  - reflexivity.
  - reflexivity.
  - reflexivity.
  - reflexivity.
  - reflexivity.
  - repeat constructor.
Defined.

(** A photo of France on which one face is assigned to [dad]. *)
Definition taggedFace : DetectedFaceData :=
  {| df_id := "1700000000100-0-x7k2p"; df_thumbnail := "data:image/jpeg;base64,";
     df_box := unitBox; descriptorString := "[0,1]";
     assignedMemberId := Some (fm_id dad); assignedMemberName := Some "Dad";
     suggestedMemberId := None; suggestedMemberName := None; df_confidence := None |}.

Definition otherFace : DetectedFaceData :=
  {| df_id := "1700000000100-1-m4n8q"; df_thumbnail := "data:image/jpeg;base64,";
     df_box := unitBox; descriptorString := "[1,0]";
     assignedMemberId := Some "family-1700000000001-mom000000";
     assignedMemberName := Some "Mom";
     suggestedMemberId := None; suggestedMemberName := None; df_confidence := None |}.

Definition dadTag : FaceTag :=
  {| memberId := fm_id dad; memberName := "Dad"; box := unitBox; confidence := None |}.

Definition momTag : FaceTag :=
  {| memberId := "family-1700000000001-mom000000"; memberName := "Mom"; box := unitBox;
     confidence := None |}.

Definition paris : StoredPhoto :=
  {| id := "FR-1700000000100-a1b2c3d4e"; countryIso := "FR";
     url := "https://blobs.example/photos/FR-1700000000100-a1b2c3d4e";
     name := "paris.jpg"; caption := ""; faceTags := [dadTag; momTag];
     detectedFaces := Some [taggedFace; otherFace]; createdAt := 1700000000100 |}.

Definition parisFile : File :=
  {| file_name := "paris.jpg"; file_type := "image/jpeg"; file_bytes := [] |}.

Definition parisWorld : World :=
  {| tripsConfig := None; photoDocs := {[id paris := paris]};
     familyDocs := {[fm_id dad := dad]};
     objects := {["photos/" +:+ id paris := parisFile]};
     urlOf := fun path => "https://blobs.example/" +:+ path;
     pending := [] |}.

Lemma parisWorld_members : membersOf codeUnitCompare parisWorld = [dad].
Proof. apply (membersOf_singleton codeUnitCompare parisWorld (fm_id dad)). reflexivity. Qed.

Lemma matchFaces_reference_sets_witness :
  taggedDescriptors (trainingRead parseKnown (afterRead parisWorld)) (fm_id dad)
  = [[0%Qc; 1%Qc]]
  ∧ getMemberDescriptors parseKnown froundExact dad = Ok [[1%Qc; 0%Qc]]
  ∧ referenceSet parseKnown froundExact (trainingRead parseKnown (afterRead parisWorld)) dad
    = taggedDescriptors (trainingRead parseKnown (afterRead parisWorld)) (fm_id dad).
Proof.
  split; [vm_compute; reflexivity|]. split; [reflexivity|].
  destruct (matchFaces_reference_sets parseKnown froundExact codeUnitCompare
              meanSquaredDistance [] parisWorld) as (_ & _ & Hmember & _).
  destruct (Hmember dad) as (_ & Htagged & _).
  - unfold membersRead. cbn [readable parisWorld pending].
    rewrite parisWorld_members. by left.
  - apply Htagged.
    assert (E : taggedDescriptors (trainingRead parseKnown (afterRead parisWorld))
                                  (fm_id dad)
                = [[0%Qc; 1%Qc]]) by (vm_compute; reflexivity).
    rewrite E. discriminate.
Defined.

Definition lisbonTrips : TripsJson :=
  {| profile := {| title := "Dad"; subtitle := "60" |}; homeCountry := Some "KZ";
     visited := [ {| countryName := "Portugal"; iso2 := "PT"; continent := "Europe";
                     year := "2019"; cities := ["Lisbon"]; notes := ""; photos := [];
                     isHome := None |} ] |}.

Lemma addCountry_inserts_once_witness :
  addCountry unmapped codeUnitCompare (Some lisbonTrips) " pt " = Some lisbonTrips
  ∧ ∃ d', addCountry unmapped codeUnitCompare (Some lisbonTrips) "fr" = Some d'
          ∧ length (visited d') = 2%nat.
Proof.
  split.
  - apply (addCountry_inserts_once unmapped codeUnitCompare lisbonTrips " pt ").
    exists (hd (freshTrip {| c_name := ""; c_iso2 := ""; c_continent := "" |})
               (visited lisbonTrips)).
    split; [by left|reflexivity].
  - destruct (addCountry_inserts_once unmapped codeUnitCompare lisbonTrips "fr") as [_ Hnew].
    destruct Hnew as (info & d' & Hadd & _ & _ & _ & Hlen & _).
    + intros (t & Ht & Hn). apply list_elem_of_singleton in Ht as ->. discriminate.
    + exists {| c_name := "France"; c_iso2 := "FR"; c_continent := "Europe" |}.
      split; [|reflexivity]. do 21 right. left.
    + exists d'. split; [exact Hadd|exact Hlen].
Defined.

Definition tenTrips : TripsJson :=
  {| profile := {| title := "Dad"; subtitle := "60" |}; homeCountry := None;
     visited := replicate 10 (freshTrip {| c_name := "France"; c_iso2 := "FR";
                                           c_continent := "Europe" |}) |}.

Lemma getTravelStats_worldPercentage_witness :
  length (visitedOf (Some tenTrips)) = 10%nat
  ∧ worldPercentage (getTravelStats (Some tenTrips)) = 5.
Proof.
  split; [reflexivity|].
  apply (getTravelStats_worldPercentage (Some tenTrips)). reflexivity.
Defined.

(** A browser without converter, decoder and canvas. *)
Definition noConverter (file : File) : result (option (list Byte.byte)) :=
  Err "heic2any: not available".

Definition noDecoder (file : File) : result (Z * Z) :=
  Err "image: decode failed".

Definition noCanvas (file : File) (w h : Z) : result (list Byte.byte) :=
  Err "canvas: toBlob returned null".

Lemma convertToJpegIfNeeded_supported_unchanged_witness :
  CountryPanel.convertToJpegIfNeeded noConverter noDecoder false noCanvas parisFile
  = parisFile.
Proof.
  apply (PanelFacts.convertToJpegIfNeeded_supported_unchanged
           noConverter noDecoder false noCanvas parisFile);
    try (vm_compute; reflexivity); intros H; vm_compute in H; discriminate H.
Defined.

Definition parisPanel : CountryPanel.Panel :=
  {| CountryPanel.photos := [paris]; CountryPanel.activePhotoId := Some (id paris) |}.

Lemma removePerson_clears_tag_and_assignment_witness :
  ∃ w' st' active',
    CountryPanel.removePerson (fm_id dad) parisPanel parisWorld = (w', Ok st')
    ∧ CountryPanel.activePhoto st' = Some active'
    ∧ (dadTag ∉ faceTags active') ∧ (momTag ∈ faceTags active').
Proof.
  destruct (PanelFacts.removePerson_clears_tag_and_assignment
              (fm_id dad) parisPanel parisWorld paris paris)
    as (w' & st' & active' & stored' & Hrun & Hactive & _ & Htags & _).
  - vm_compute; reflexivity.
  - reflexivity.
  - vm_compute; reflexivity.
  - exists w', st', active'. split; [exact Hrun|]. split; [exact Hactive|]. split.
    + intros Hdad. apply Htags in Hdad as [_ Hne]. by apply Hne.
    + apply Htags. split; [right; left|]. intros H. vm_compute in H. discriminate H.
Defined.

Lemma parisWorld_keyed : keyed parisWorld.
Proof.
  intros k p H. unfold parisWorld in H. cbn [photoDocs] in H.
  apply lookup_singleton_Some in H as [<- <-]. reflexivity.
Qed.

Lemma deletePhoto_blob_then_document_witness :
  ∃ w2, deletePhoto (id paris) parisWorld = (w2, Ok ())
        ∧ photoDocs w2 = ∅ ∧ objects w2 = ∅
        ∧ ∀ iso w3 ps p,
            getPhotosForCountry iso w2 = (w3, Ok ps) → p ∈ ps → id p ≠ id paris.
Proof.
  destruct (deletePhoto_blob_then_document (id paris) parisWorld) as (_ & _ & Hok).
  destruct (Hok (with_objects ∅ parisWorld)
                (with_photoDocs ∅ (with_objects ∅ parisWorld)))
    as (Hrun & Hdocs & Hobjects & Hgone).
  - vm_compute; reflexivity.
  - vm_compute; reflexivity.
  - exists (with_photoDocs ∅ (with_objects ∅ parisWorld)).
    split; [exact Hrun|]. split; [reflexivity|]. split; [reflexivity|].
    apply Hgone. exact parisWorld_keyed.
Defined.

Definition offlineWorld : World := with_pending [Some "unavailable"] parisWorld.

Lemma reads_swallow_failures_witness :
  pending offlineWorld = [Some "unavailable"]
  ∧ (getTripsData offlineWorld).2 = Ok None
  ∧ (getPhotosForCountry "FR" offlineWorld).2 = Ok []
  ∧ (getAllPhotos offlineWorld).2 = Ok []
  ∧ (getFamilyMembers codeUnitCompare offlineWorld).2 = Ok [].
Proof.
  split; [reflexivity|].
  destruct (reads_swallow_failures codeUnitCompare "FR" offlineWorld "unavailable" []
              eq_refl) as ((H1 & H2 & H3 & H4) & _).
  rewrite H1, H2, H3, H4. repeat split.
Defined.

End Examples.

(** * Further properties of the code *)


(** ** [src/types/trips.ts]: the rest of the [useTripsData] hook *)

Module TripsHook.

Import TripsData.

(** [Partial<TripData>]: a field is [Some] when the key is given. *)
Record TripUpdates := {
  u_countryName : option string;
  u_iso2 : option string;
  u_continent : option string;
  u_year : option string;
  u_cities : option (list string);
  u_notes : option string;
  u_photos : option (list string);
  u_isHome : option bool;
}.

(** [{ ...t, ...updates }] *)
Definition applyUpdates (t : TripData) (u : TripUpdates) : TripData :=
  {| countryName := default (countryName t) (u_countryName u);
     iso2 := default (iso2 t) (u_iso2 u);
     continent := default (continent t) (u_continent u);
     year := default (year t) (u_year u);
     cities := default (cities t) (u_cities u);
     notes := default (notes t) (u_notes u);
     photos := default (photos t) (u_photos u);
     isHome := match u_isHome u with Some b => Some b | None => isHome t end |}.

Section CaseMapping.

Variable upper : string -> string.

Definition updateTrip (data : option TripsJson) (iso : string) (updates : TripUpdates)
  : option TripsJson :=
  match data with
  | None => data
  | Some d =>
      let n := normalizeIso2 upper iso in
      Some (with_visited
              ((fun t => if String.eqb (normalizeIso2 upper (iso2 t)) n
                         then applyUpdates t updates else t) <$> visited d)
              d)
  end.

(** [out.add(x)] on a [Set], whose elements are kept in insertion order. *)
Definition setAdd (out : list string) (x : string) : list string :=
  if bool_decide (x ∈ out) then out else out ++ [x].

(** [new Set(xs)] *)
Definition setOf (xs : list string) : list string := fold_left setAdd xs [].

(** [normalizeIso2(data?.homeCountry || '')] *)
Definition homeCountryOf (data : option TripsJson) : string :=
  normalizeIso2 upper (default "" (data ≫= homeCountry)).

Definition visitedIsoCodes (data : option TripsJson) : list string :=
  let visited :=
    List.filter truthy ((fun t => normalizeIso2 upper (iso2 t)) <$> visitedOf data) in
  let out := setOf visited in
  let home := homeCountryOf data in
  if truthy home then setAdd out home else out.

End CaseMapping.

(** The state of the hook: [data], [loading] and [error]. *)
Record HookState := {
  hs_data : option TripsJson;
  hs_loading : bool;
  hs_error : option string;
}.

(** A promise that settles as [r] without a remote call. *)
Definition settled {A} (r : result A) : io A := fun w => (w, r).

(** The [try] block of [load], while the component stays mounted: the
    data it hands to [setData].  [bundled] is what fetching and decoding
    [/data/trips.json] gives, [Err] with the message thrown when the
    response is not ok or the fetch fails. *)
Definition loadData (bundled : result TripsJson) : io TripsJson :=
  cloud ← getTripsData;
  match cloud with
  | Some c => mret c
  | None =>
      json ← settled bundled;
      saveTripsData json;;
      mret json
  end.

(** [load] of the first effect: the state it leaves; it never rejects. *)
Definition load (bundled : result TripsJson) (w : World) : World * HookState :=
  match loadData bundled w with
  | (w', Ok d) => (w', {| hs_data := Some d; hs_loading := false; hs_error := None |})
  | (w', Err e) =>
      (w', {| hs_data := None; hs_loading := false;
              hs_error := Some (if truthy e then e else "Неизвестная ошибка") |})
  end.

(** The second effect: a best-effort save of the loaded data. *)
Definition persist (st : HookState) : io unit :=
  match hs_data st with
  | None => mret ()
  | Some d =>
      if hs_loading st then mret ()
      else tryCatch (saveTripsData d) (fun _ => mret ())
  end.

End TripsHook.

Module TripsHookFacts.

Import TripsData TripsHook JsFacts TripsFacts.

Lemma find_existsb {A} (f : A → bool) (l : list A) :
  existsb f l = true → ∃ a, List.find f l = Some a ∧ f a = true.
Proof.
  induction l as [|a l IH]; [done|]. simpl.
  destruct (f a) eqn:E; [by exists a|]. exact IH.
Qed.

Lemma find_filter_keeps {A} (g f : A → bool) (l : list A) :
  (∀ a, g a = true → f a = true) → List.find g (List.filter f l) = List.find g l.
Proof.
  intros H. induction l as [|a l IH]; [done|]. simpl.
  destruct (g a) eqn:Eg.
  - rewrite (H a Eg). simpl. by rewrite Eg.
  - destruct (f a); simpl; [by rewrite Eg|done].
Qed.

Lemma find_filter_drops {A} (g f : A → bool) (l : list A) :
  (∀ a, f a = true → g a = false) → List.find g (List.filter f l) = None.
Proof.
  intros H. induction l as [|a l IH]; [done|]. simpl.
  destruct (f a) eqn:Ef; [|done]. simpl. by rewrite (H a Ef).
Qed.

Lemma filter_Permutation_bool {A} (f : A → bool) (l l' : list A) :
  Permutation l l' → Permutation (List.filter f l) (List.filter f l').
Proof.
  induction 1 as [|a l l' _ IH|a b l|l l' l'' _ IH1 _ IH2]; simpl.
  - done.
  - destruct (f a); [by constructor|done].
  - destruct (f a), (f b); try done. apply perm_swap.
  - by etrans.
Qed.

Lemma filter_all {A} (f : A → bool) (l : list A) :
  (∀ a, a ∈ l → f a = true) → List.filter f l = l.
Proof.
  induction l as [|a l IH]; intros H; [done|]. simpl.
  rewrite (H a) by left. f_equal. apply IH. intros b Hb. apply H. by right.
Qed.

Lemma visited_with_visited (v : list TripData) (d : TripsJson) :
  visited (TripsData.with_visited v d) = v.
Proof. reflexivity. Qed.

Lemma setAdd_elem_of (out : list string) (x y : string) :
  y ∈ setAdd out x ↔ y ∈ out ∨ y = x.
Proof.
  unfold setAdd. case_bool_decide as Hx.
  - split; [by left|]. intros [H| ->]; done.
  - rewrite elem_of_app, list_elem_of_singleton. done.
Qed.

Lemma setAdd_NoDup (out : list string) (x : string) : NoDup out → NoDup (setAdd out x).
Proof.
  intros Hnd. unfold setAdd. case_bool_decide as Hx; [done|].
  apply NoDup_app. split; [done|]. split.
  - intros y Hy Hyx. apply list_elem_of_singleton in Hyx as ->. contradiction.
  - apply NoDup_singleton.
Qed.

Lemma fold_setAdd_elem_of (xs out : list string) (y : string) :
  y ∈ fold_left setAdd xs out ↔ y ∈ out ∨ y ∈ xs.
Proof.
  revert out. induction xs as [|x xs IH]; intros out; simpl.
  - rewrite elem_of_nil. tauto.
  - rewrite IH, setAdd_elem_of, elem_of_cons. tauto.
Qed.

Lemma fold_setAdd_NoDup (xs out : list string) :
  NoDup out → NoDup (fold_left setAdd xs out).
Proof.
  revert out. induction xs as [|x xs IH]; intros out Hnd; simpl; [done|].
  by apply IH, setAdd_NoDup.
Qed.

Section CaseMapping.

Variable upper : string → string.

(** The state [addCountry] leaves for a code that is new and known. *)
Lemma addCountry_new (localeCompare : string → string → Z) (d : TripsJson)
    (iso : string) (info : Country) :
  let n := normalizeIso2 upper iso in
  existsb (fun t => String.eqb (normalizeIso2 upper (iso2 t)) n) (visited d) = false →
  List.find (fun c => String.eqb (c_iso2 c) n) ALL_COUNTRIES = Some info →
  addCountry upper localeCompare (Some d) iso
  = Some (with_visited
            (sortBy (fun a b => localeCompare (countryName a) (countryName b))
                    (visited d ++ [freshTrip info]))
            d)
  ∧ c_iso2 info = n ∧ truthy n = true ∧ info ∈ ALL_COUNTRIES.
Proof.
  intros n Hex Hfind.
  apply find_elem_of in Hfind as Hinfo. destruct Hinfo as [Hin Heq].
  apply String.eqb_eq in Heq.
  assert (Hn : truthy n = true) by (rewrite <- Heq; by apply known_codes_nonempty).
  unfold addCountry. fold n. by rewrite Hn, Hex, Hfind.
Qed.

Lemma freshTrip_listed (localeCompare : string → string → Z) (d : TripsJson)
    (iso : string) (info : Country) :
  info ∈ ALL_COUNTRIES →
  c_iso2 info = normalizeIso2 upper iso →
  existsb (fun t => String.eqb (normalizeIso2 upper (iso2 t)) (normalizeIso2 upper iso))
    (sortBy (fun a b => localeCompare (countryName a) (countryName b))
            (visited d ++ [freshTrip info])) = true.
Proof.
  intros Hin Heq. apply existsb_elem_of. exists (freshTrip info). split.
  - apply sortBy_elem_of, elem_of_app. right. by left.
  - simpl. rewrite (known_codes_normalized upper info Hin), Heq.
    apply String.eqb_refl.
Qed.

(** X2. Adding the same country twice is adding it once, for every state and
    every spelling of the code. *)
Theorem addCountry_idempotent (localeCompare : string → string → Z)
    (data : option TripsJson) (iso : string) :
  addCountry upper localeCompare (addCountry upper localeCompare data iso) iso
  = addCountry upper localeCompare data iso.
Proof.
  destruct data as [d|]; [|done].
  set (n := normalizeIso2 upper iso).
  destruct (truthy n) eqn:Hn.
  2:{ unfold addCountry. fold n. by rewrite Hn. }
  destruct (existsb (fun t => String.eqb (normalizeIso2 upper (iso2 t)) n) (visited d)) eqn:Hex.
  { assert (E : addCountry upper localeCompare (Some d) iso = Some d)
      by (unfold addCountry; fold n; by rewrite Hn, Hex).
    by rewrite E. }
  destruct (List.find (fun c => String.eqb (c_iso2 c) n) ALL_COUNTRIES) as [info|] eqn:Hfind.
  2:{ assert (E : addCountry upper localeCompare (Some d) iso = Some d)
        by (unfold addCountry; fold n; by rewrite Hn, Hex, Hfind).
      by rewrite E. }
  destruct (addCountry_new localeCompare d iso info Hex Hfind) as (E & Hinfo & _ & Hin).
  rewrite E.
  pose proof (freshTrip_listed localeCompare d iso info Hin Hinfo) as Hl. fold n in Hl.
  unfold addCountry. fold n. rewrite Hn, visited_with_visited.
  cbn [negb]. by rewrite Hl.
Qed.

(** X3. After [addCountry] with a code of the table, [getTripByIso] finds a trip
    under that code, whether it was there before or not. *)
Theorem addCountry_then_getTripByIso (localeCompare : string → string → Z)
    (d : TripsJson) (iso : string) :
  (∃ c, c ∈ ALL_COUNTRIES ∧ c_iso2 c = normalizeIso2 upper iso) →
  ∃ t, getTripByIso upper (addCountry upper localeCompare (Some d) iso) iso = Some t
       ∧ normalizeIso2 upper (iso2 t) = normalizeIso2 upper iso.
Proof.
  intros (c & Hc & Hcn). set (n := normalizeIso2 upper iso).
  assert (Hfound : ∀ d', existsb (fun t => String.eqb (normalizeIso2 upper (iso2 t)) n) (visited d')
                         = true →
            ∃ t, getTripByIso upper (Some d') iso = Some t ∧ normalizeIso2 upper (iso2 t) = n).
  { intros d' H. apply find_existsb in H as (t & Ht & E).
    exists t. split; [exact Ht|]. by apply String.eqb_eq. }
  destruct (existsb (fun t => String.eqb (normalizeIso2 upper (iso2 t)) n) (visited d)) eqn:Hex.
  - assert (E : addCountry upper localeCompare (Some d) iso = Some d).
    { unfold addCountry. fold n. rewrite Hex. by destruct (negb (truthy n)). }
    rewrite E. by apply Hfound.
  - destruct (List.find (fun c => String.eqb (c_iso2 c) n) ALL_COUNTRIES)
      as [info|] eqn:Hfind.
    + destruct (addCountry_new localeCompare d iso info Hex Hfind)
        as (E & Hinfo & _ & Hin).
      rewrite E. apply Hfound. rewrite visited_with_visited.
      by apply freshTrip_listed.
    + exfalso. apply list_elem_of_In in Hc.
      eapply find_none in Hfind; [|exact Hc]. simpl in Hfind.
      fold n in Hcn. rewrite Hcn, String.eqb_refl in Hfind. discriminate.
Qed.

(** X4. After [removeCountry], [getTripByIso] finds nothing under the removed
    code, in any spelling, and finds under every other code what it found
    before. *)
Theorem removeCountry_then_getTripByIso (d : TripsJson) (iso : string) :
  getTripByIso upper (removeCountry upper (Some d) iso) iso = None
  ∧ ∀ iso', normalizeIso2 upper iso' ≠ normalizeIso2 upper iso →
            getTripByIso upper (removeCountry upper (Some d) iso) iso'
            = getTripByIso upper (Some d) iso'.
Proof.
  unfold getTripByIso, removeCountry. simpl. split.
  - apply find_filter_drops. intros t Ht.
    apply negb_true_iff in Ht. exact Ht.
  - intros iso' Hne. apply find_filter_keeps. intros t Ht.
    apply String.eqb_eq in Ht. apply negb_true_iff, String.eqb_neq. congruence.
Qed.

(** X5. Removing a country that was just added, and was not there before,
    gives back the trips there were, possibly in another order; profile and
    home country are kept. *)
Theorem addCountry_then_removeCountry (localeCompare : string → string → Z)
    (d : TripsJson) (iso : string) :
  ¬ visitedUnder upper (normalizeIso2 upper iso) d →
  ∃ d', removeCountry upper (addCountry upper localeCompare (Some d) iso) iso = Some d'
        ∧ Permutation (visited d') (visited d)
        ∧ profile d' = profile d ∧ homeCountry d' = homeCountry d.
Proof.
  intros Hnew. set (n := normalizeIso2 upper iso).
  assert (Hex : existsb (fun t => String.eqb (normalizeIso2 upper (iso2 t)) n) (visited d) = false).
  { destruct (existsb _ _) eqn:E; [|done].
    apply visitedUnder_existsb in E. contradiction. }
  assert (Hkeep : List.filter (fun t => negb (String.eqb (normalizeIso2 upper (iso2 t)) n))
                    (visited d) = visited d).
  { apply filter_all. intros t Ht. apply negb_true_iff.
    destruct (String.eqb_spec (normalizeIso2 upper (iso2 t)) n) as [E|]; [|done].
    exfalso. apply Hnew. by exists t. }
  assert (Hsame : addCountry upper localeCompare (Some d) iso = Some d →
            ∃ d', removeCountry upper (addCountry upper localeCompare (Some d) iso) iso = Some d'
                  ∧ Permutation (visited d') (visited d)
                  ∧ profile d' = profile d ∧ homeCountry d' = homeCountry d).
  { intros ->. eexists. split; [reflexivity|]. simpl. fold n. by rewrite Hkeep. }
  destruct (truthy n) eqn:Hn.
  2:{ apply Hsame. unfold addCountry. fold n. by rewrite Hn. }
  destruct (List.find (fun c => String.eqb (c_iso2 c) n) ALL_COUNTRIES) as [info|] eqn:Hfind.
  2:{ apply Hsame. unfold addCountry. fold n. by rewrite Hn, Hex, Hfind. }
  destruct (addCountry_new localeCompare d iso info Hex Hfind) as (E & Hinfo & _ & Hin).
  rewrite E. eexists. split; [reflexivity|]. simpl. fold n. split; [|done].
  rewrite (filter_Permutation_bool _ _ _ (sortBy_Permutation _ _)).
  rewrite List.filter_app, Hkeep. simpl. fold n in Hinfo.
  rewrite (known_codes_normalized upper info Hin), Hinfo, String.eqb_refl. simpl.
  by rewrite app_nil_r.
Qed.

(** X6. An update that does not change the code is seen by [getTripByIso] on
    the trip it found under that code, and under every other code the
    lookup answers as before; the number of trips stays. *)
Theorem updateTrip_then_getTripByIso (d : TripsJson) (iso : string)
    (updates : TripUpdates) :
  u_iso2 updates = None →
  getTripByIso upper (updateTrip upper (Some d) iso updates) iso
  = (fun t => applyUpdates t updates) <$> getTripByIso upper (Some d) iso
  ∧ (∀ iso', normalizeIso2 upper iso' ≠ normalizeIso2 upper iso →
             getTripByIso upper (updateTrip upper (Some d) iso updates) iso'
             = getTripByIso upper (Some d) iso')
  ∧ length (visitedOf (updateTrip upper (Some d) iso updates)) = length (visited d).
Proof.
  intros Hiso. set (n := normalizeIso2 upper iso).
  set (h := fun t => if String.eqb (normalizeIso2 upper (iso2 t)) n
                     then applyUpdates t updates else t).
  assert (Hcode : ∀ t, iso2 (h t) = iso2 t).
  { intros t. unfold h. destruct (String.eqb _ _); [|done].
    unfold applyUpdates. simpl. by rewrite Hiso. }
  unfold getTripByIso, updateTrip. simpl. fold n h. split; [|split].
  - rewrite (PanelFacts.find_fmap_keeping _ h) by (intros t; by rewrite Hcode).
    destruct (List.find _ (visited d)) as [t|] eqn:E; [|done].
    simpl. apply find_some in E as [_ E]. unfold h. by rewrite E.
  - intros iso' Hne.
    rewrite (PanelFacts.find_fmap_keeping _ h) by (intros t; by rewrite Hcode).
    destruct (List.find _ (visited d)) as [t|] eqn:E; [|done].
    simpl. apply find_some in E as [_ E]. apply String.eqb_eq in E.
    unfold h. destruct (String.eqb_spec (normalizeIso2 upper (iso2 t)) n); [congruence|done].
  - by rewrite length_fmap.
Qed.

(** X7. The codes handed to the map hold no code twice and no blank code; they
    are the normalized codes of the visited trips and of the home country,
    which is always among them when it is set. *)
Theorem visitedIsoCodes_spec (data : option TripsJson) :
  NoDup (visitedIsoCodes upper data)
  ∧ (∀ c, c ∈ visitedIsoCodes upper data
          ↔ c ≠ "" ∧ (c = homeCountryOf upper data
                      ∨ ∃ t, t ∈ visitedOf data ∧ normalizeIso2 upper (iso2 t) = c))
  ∧ (homeCountryOf upper data ≠ "" →
     homeCountryOf upper data ∈ visitedIsoCodes upper data).
Proof.
  set (codes := List.filter truthy
                  ((fun t => normalizeIso2 upper (iso2 t)) <$> visitedOf data)).
  assert (Hcodes : ∀ c, c ∈ codes
            ↔ c ≠ "" ∧ ∃ t, t ∈ visitedOf data ∧ normalizeIso2 upper (iso2 t) = c).
  { intros c. unfold codes.
    rewrite list_elem_of_In, filter_In, <- list_elem_of_In, list_elem_of_fmap, truthy_true.
    split.
    - intros ((t & -> & Ht) & Hc). eauto.
    - intros (Hc & t & Ht & <-). eauto. }
  assert (Hset : ∀ c, c ∈ setOf codes ↔ c ∈ codes).
  { intros c. unfold setOf. rewrite fold_setAdd_elem_of, elem_of_nil. tauto. }
  assert (Hnd : NoDup (setOf codes)) by apply fold_setAdd_NoDup, NoDup_nil_2.
  unfold visitedIsoCodes. fold codes.
  destruct (truthy (homeCountryOf upper data)) eqn:Hhome.
  - apply truthy_true in Hhome. split; [by apply setAdd_NoDup|]. split.
    + intros c. rewrite setAdd_elem_of, Hset, Hcodes. split.
      * intros [(Hc & H)| ->]; eauto.
      * intros (Hc & [->|H]); eauto.
    + intros _. apply setAdd_elem_of. by right.
  - split; [done|]. split.
    + intros c. rewrite Hset, Hcodes. split.
      * intros (Hc & H). eauto.
      * intros (Hc & [->|H]); [|eauto].
        apply truthy_true in Hc. congruence.
    + intros Hne. apply truthy_true in Hne. congruence.
Qed.

End CaseMapping.

(** The number of trips on continent [c]. *)
Definition onContinent (c : string) (trips : list TripData) : Z :=
  Z.of_nat (length (List.filter (fun t => String.eqb (continent t) c) trips)).

(** The first entry of a list of numbers sorted by falling count has the
    largest count. *)
Lemma sortBy_falling_head (l : properties) :
  forallb isNumber l = true → l ≠ [] →
  ∃ c m rest, sortBy byFallingCount l = (c, Num m) :: rest
              ∧ ∀ k n, (k, Num n) ∈ l → n ≤ m.
Proof.
  induction l as [|[k v] l IH]; [done|]. cbn [forallb].
  intros [Hv Hl]%andb_true_iff _.
  destruct v as [n|origin ones]; [|done].
  destruct l as [|kv' l'].
  - exists k, n, []. split; [done|]. intros k' n' Hin.
    apply list_elem_of_singleton in Hin as [= -> ->]. lia.
  - destruct (IH Hl) as (c & m & rest & E & Hmax); [done|].
    unfold sortBy in *. cbn [foldr]. cbn [foldr] in E. rewrite E.
    cbn [insertBy]. unfold byFallingCount at 1. cbn [snd].
    destruct (Z.leb_spec (m - n) 0).
    + exists k, n, ((c, Num m) :: rest). split; [done|]. intros k' n' Hin.
      apply elem_of_cons in Hin as [[= -> ->]|Hin]; [lia|].
      specialize (Hmax k' n' Hin). lia.
    + exists c, m, (insertBy byFallingCount (k, Num n) rest).
      split; [done|]. intros k' n' Hin.
      apply elem_of_cons in Hin as [[= -> ->]|Hin]; [lia|]. by apply (Hmax k' n').
Qed.

Lemma continentCounts_snoc (trips : list TripData) (t : TripData) :
  fold_left (fun counts trip => increment counts (continent trip)) (trips ++ [t]) []
  = increment (fold_left (fun counts trip => increment counts (continent trip)) trips [])
              (continent t).
Proof. by rewrite fold_left_app. Qed.

(** X8. [getTravelStats] counts every visited trip once.  The object
    [continentCounts] holds every key once, and under every key that is
    not a property name of [Object.prototype] the number of trips on that
    continent, the key not being set when there is none.  When no visited
    trip has a property name of [Object.prototype] for its continent, the
    counts are all numbers, they add up to [countriesVisited], and the most
    visited continent is a key with the largest count (['N/A'] when nothing
    is visited or that key is the empty string). *)
Theorem getTravelStats_continentCounts (data : option TripsJson) :
  let trips := visitedOf data in
  let counts := continentCounts data in
  countriesVisited (getTravelStats data) = Z.of_nat (length trips)
  ∧ NoDup counts.*1
  ∧ (∀ c, isInherited c = false →
          getOwn counts c
          = if onContinent c trips =? 0 then None else Some (Num (onContinent c trips)))
  ∧ (Forall (fun t => isInherited (continent t) = false) trips →
     forallb isNumber counts = true
     ∧ total counts = countriesVisited (getTravelStats data)
     ∧ (trips = [] → mostVisitedContinent data = Some "N/A")
     ∧ (trips ≠ [] →
        ∃ c m, getOwn counts c = Some (Num m)
               ∧ (∀ c' m', getOwn counts c' = Some (Num m') → m' ≤ m)
               ∧ mostVisitedContinent data = Some (if truthy c then c else "N/A"))).
Proof.
  intros trips counts.
  assert (Hnd : NoDup counts.*1).
  { unfold counts, continentCounts. fold trips.
    induction trips as [|t ts IH] using rev_ind; [apply NoDup_nil_2|].
    rewrite continentCounts_snoc. by apply increment_NoDup. }
  assert (Hcount : ∀ c, isInherited c = false →
            getOwn counts c
            = if onContinent c trips =? 0 then None else Some (Num (onContinent c trips))).
  { intros c Hc. unfold counts, continentCounts. fold trips.
    induction trips as [|t ts IH] using rev_ind; [done|].
    rewrite continentCounts_snoc. unfold onContinent in *.
    rewrite List.filter_app, length_app. cbn [List.filter].
    destruct (String.eqb_spec (continent t) c) as [E|Hne]; cbn [length].
    - rewrite E. pose proof (getOwn_increment_number
        (fold_left (fun counts trip => increment counts (continent trip)) ts []) c Hc) as Hinc.
      rewrite IH in Hinc.
      destruct (Z.eqb_spec (Z.of_nat (length (List.filter
                 (fun t0 => String.eqb (continent t0) c) ts))) 0) as [Hz|Hz].
      + rewrite Hinc. destruct (Z.eqb_spec (Z.of_nat (length (List.filter
                 (fun t0 => String.eqb (continent t0) c) ts) + 1)) 0); [lia|].
        do 2 f_equal. lia.
      + rewrite Hinc. destruct (Z.eqb_spec (Z.of_nat (length (List.filter
                 (fun t0 => String.eqb (continent t0) c) ts) + 1)) 0); [lia|].
        do 2 f_equal. lia.
    - rewrite (getOwn_increment_other _ _ _ Hne), IH. by rewrite Nat.add_0_r. }
  split; [done|]. split; [exact Hnd|]. split; [exact Hcount|].
  intros Hord.
  assert (Hnum : forallb isNumber counts = true ∧ total counts = Z.of_nat (length trips)).
  { unfold counts, continentCounts. fold trips. clear Hnd Hcount counts.
    induction trips as [|t ts IH] using rev_ind; [done|].
    apply Forall_app in Hord as [Hts Ht]. apply Forall_cons in Ht as [Ht _].
    destruct (IH Hts) as [Hn Htot].
    rewrite continentCounts_snoc.
    destruct (increment_numbers _ (continent t) Ht Hn) as [Hn' Htot'].
    split; [exact Hn'|]. rewrite Htot', Htot, length_app. cbn [length]. lia. }
  destruct Hnum as [Hn Htot].
  split; [exact Hn|]. split; [exact Htot|].
  assert (Hes : forallb isNumber (entries counts) = true)
    by (by rewrite (forallb_Permutation _ _ _ (entries_Permutation counts))).
  unfold mostVisitedContinent. fold counts. unfold consistentCounts. rewrite Hes.
  cbn [orb]. split.
  - intros Hnil. unfold counts, continentCounts. fold trips. by rewrite Hnil.
  - intros Hne.
    assert (Hcounts : entries counts ≠ []).
    { intros E. pose proof (entries_Permutation counts) as Hp. rewrite E in Hp.
      apply Permutation_nil in Hp. rewrite Hp in Htot. cbn in Htot.
      destruct trips; [done|]. cbn [length] in Htot. lia. }
    destruct (sortBy_falling_head (entries counts) Hes Hcounts)
      as (c & m & rest & E & Hmax).
    exists c, m. rewrite E. split; [|split; [|done]].
    + apply getOwn_elem_of; [exact Hnd|].
      rewrite <- (entries_Permutation counts).
      apply (sortBy_elem_of byFallingCount). rewrite E. by left.
    + intros c' m' Hc'. apply (Hmax c').
      rewrite (entries_Permutation counts). by apply getOwn_elem_of.
Qed.

Lemma with_pending_same (w : World) : with_pending (pending w) w = w.
Proof. by destruct w. Qed.

Lemma tripsJson_payload_valid (d : TripsJson) :
  validDocument (sanitizeForFirestore (tripsJsonValue d)) = true.
Proof. apply SanitizeFacts.write_payloads_valid. Qed.

(** [saveTripsData] when the write goes through. *)
Lemma saveTripsData_ok (d : TripsJson) (w : World) :
  hd None (pending w) = None →
  saveTripsData d w = (with_tripsConfig (Some d) (with_pending (tl (pending w)) w), Ok ()).
Proof.
  intros Hnext. unfold saveTripsData, tryCatch, setDoc_trips, remote.
  rewrite tripsJson_payload_valid.
  destruct (pending w) as [|[e|] rest] eqn:E; simpl in *; [|done|done].
  by rewrite <- E, with_pending_same.
Qed.

(** [saveTripsData] when the write fails. *)
Lemma saveTripsData_fails (d : TripsJson) (w : World) (e : error) (rest : list fault) :
  pending w = Some e :: rest → saveTripsData d w = (with_pending rest w, Err e).
Proof.
  intros Hp. unfold saveTripsData, tryCatch, setDoc_trips, throw.
  by rewrite (StorageFacts.remote_failure _ w e rest Hp).
Qed.

(** What [getTripsData] answers in a world: the stored document, and
    nothing when there is none or the read fails. *)
Definition cloudRead (w : World) : option TripsJson :=
  match pending w with
  | Some _ :: _ => None
  | _ => tripsConfig w
  end.

(** The world after one remote call that writes nothing. *)
Definition afterCall (w : World) : World :=
  match pending w with
  | [] => w
  | _ :: rest => with_pending rest w
  end.

Lemma afterCall_tail (w : World) : with_pending (tl (pending w)) w = afterCall w.
Proof.
  unfold afterCall. destruct (pending w) eqn:E; [|done].
  cbn [tl]. by rewrite <- E, with_pending_same.
Qed.

(** [e?.message || 'Неизвестная ошибка'] *)
Definition shownError (msg : string) : string :=
  if truthy msg then msg else "Неизвестная ошибка".

Lemma getTripsData_run (w : World) : getTripsData w = (afterCall w, Ok (cloudRead w)).
Proof.
  unfold getTripsData, tryCatch, mbind, io_bind, getDoc_trips, remote, cloudRead, afterCall.
  destruct (pending w) as [|[e|] rest]; cbn [tripsConfig with_pending];
    try done; by destruct (tripsConfig w).
Qed.

(** X9. What [load] shows and what it does to the stored document, in
    every world and for every outcome of fetching the bundled JSON:
    - a stored document that is read is shown and left alone;
    - when nothing is stored or the read fails, and the bundled JSON is
      had and written, the bundled JSON is shown and is the stored
      document from then on, whatever was stored before;
    - when nothing is stored or the read fails, and the bundled JSON
      cannot be had, the message is shown, or the default message when it
      is empty, and the store is left alone;
    - when nothing is stored or the read fails, and seeding the store
      fails, the message of the write is shown, or the default message,
      and no data is, although the bundled JSON was there. *)
Theorem load_outcomes (w : World) :
  tripsConfig (afterCall w) = tripsConfig w
  ∧ (∀ bundled c, cloudRead w = Some c →
       load bundled w
       = (afterCall w, {| hs_data := Some c; hs_loading := false; hs_error := None |}))
  ∧ (∀ json, cloudRead w = None → hd None (pending (afterCall w)) = None →
       load (Ok json) w
       = (with_tripsConfig (Some json) (afterCall (afterCall w)),
          {| hs_data := Some json; hs_loading := false; hs_error := None |}))
  ∧ (∀ msg, cloudRead w = None →
       load (Err msg) w
       = (afterCall w,
          {| hs_data := None; hs_loading := false; hs_error := Some (shownError msg) |}))
  ∧ (∀ json e rest, cloudRead w = None → pending (afterCall w) = Some e :: rest →
       load (Ok json) w
       = (with_pending rest (afterCall w),
          {| hs_data := None; hs_loading := false; hs_error := Some (shownError e) |})).
Proof.
  split; [|split; [|split; [|split]]].
  - unfold afterCall. by destruct (pending w).
  - intros bundled c Hc.
    unfold load, loadData, mbind, io_bind. by rewrite getTripsData_run, Hc.
  - intros json Hnone Hnext.
    unfold load, loadData, mbind, io_bind, settled. rewrite getTripsData_run, Hnone.
    rewrite saveTripsData_ok by done. by rewrite afterCall_tail.
  - intros msg Hnone.
    unfold load, loadData, mbind, io_bind, settled. by rewrite getTripsData_run, Hnone.
  - intros json e rest Hnone Hp.
    unfold load, loadData, mbind, io_bind, settled. rewrite getTripsData_run, Hnone.
    by rewrite (saveTripsData_fails json _ e rest Hp).
Qed.

(** X10. The second effect never rejects, and what it saves is what the next
    [load] shows when the calls go through. *)
Theorem persist_then_load (st : HookState) (d : TripsJson) (w : World) :
  (∃ w', persist st w = (w', Ok ()))
  ∧ (pending w = [] → hs_data st = Some d → hs_loading st = false →
     ∃ w', persist st w = (w', Ok ())
           ∧ ∀ bundled,
               load bundled w'
               = (w', {| hs_data := Some d; hs_loading := false; hs_error := None |})).
Proof.
  split.
  - unfold persist. destruct (hs_data st) as [d'|]; [|by eexists].
    destruct (hs_loading st); [by eexists|].
    unfold tryCatch. destruct (saveTripsData d' w) as [w' [[]|e]]; by eexists.
  - intros Hp Hd Hl. unfold persist. rewrite Hd, Hl. unfold tryCatch.
    rewrite saveTripsData_ok by (by rewrite Hp).
    eexists. split; [reflexivity|]. intros bundled.
    unfold load, loadData, mbind, io_bind, getTripsData, tryCatch, getDoc_trips, remote.
    simpl. by rewrite Hp.
Qed.

End TripsHookFacts.

(** ** [src/types/trips.ts]: the rest of the [usePhotoPreviews] hook *)

Module PreviewsHook.

Import PhotoPreviews.

(** [refresh]: the state [byIso] it sets from what [getAllPhotos] answers. *)
Definition refresh (upper : string -> string) : io (gmap string PreviewEntry) :=
  photos ← getAllPhotos;
  mret (rebuildFromPhotos upper photos).

End PreviewsHook.

Module PreviewsHookFacts.

Import PhotoPreviews PreviewsHook PreviewFacts JsFacts.

Section CaseMapping.

Variable upper : string → string.

(** The photos filed under the normalized code [iso]. *)
Definition filedUnder (iso : string) (ps : list StoredPhoto) : list StoredPhoto :=
  List.filter (fun p => String.eqb (normalizeIso2 upper (countryIso p)) iso) ps.

(** What the entry of a code says about the photos it was built from. *)
Definition summarizes (iso : string) (ps : list StoredPhoto) (e : PreviewEntry) : Prop :=
  iso ≠ ""
  ∧ pe_count e = Z.of_nat (length (filedUnder iso ps))
  ∧ ∃ p, p ∈ filedUnder iso ps ∧ url p = pe_url e ∧ createdAt p = pe_createdAt e
         ∧ ∀ q, q ∈ filedUnder iso ps → createdAt q ≤ pe_createdAt e.

Lemma filedUnder_snoc (iso : string) (ps : list StoredPhoto) (p : StoredPhoto) :
  filedUnder iso (ps ++ [p])
  = filedUnder iso ps
    ++ (if String.eqb (normalizeIso2 upper (countryIso p)) iso then [p] else []).
Proof. unfold filedUnder. by rewrite List.filter_app. Qed.

Lemma rebuildFromPhotos_inv (ps : list StoredPhoto) (iso : string) :
  match rebuildFromPhotos upper ps !! iso with
  | Some e => summarizes iso ps e
  | None => iso = "" ∨ filedUnder iso ps = []
  end.
Proof.
  unfold summarizes.
  revert iso. induction ps as [|p ps IH] using rev_ind; intros iso.
  { unfold rebuildFromPhotos. simpl. rewrite lookup_empty. by right. }
  rewrite rebuildFromPhotos_snoc, !filedUnder_snoc.
  set (m := rebuildFromPhotos upper ps) in *.
  set (k := normalizeIso2 upper (countryIso p)).
  unfold rebuildStep. fold k.
  destruct (truthy k) eqn:Hk; simpl.
  2:{ assert (Ek : k = "").
      { unfold truthy in Hk. apply negb_false_iff, String.eqb_eq in Hk. exact Hk. }
      specialize (IH iso). destruct (String.eqb_spec k iso) as [<-|Hne].
      - rewrite Ek in *. destruct (m !! ""); [by destruct IH|by left].
      - by rewrite app_nil_r. }
  apply truthy_true in Hk.
  destruct (String.eqb_spec k iso) as [<-|Hne].
  2:{ rewrite lookup_insert_ne by done. rewrite app_nil_r. apply IH. }
  rewrite lookup_insert_eq. specialize (IH k).
  destruct (m !! k) as [c|] eqn:Ec.
  - destruct IH as (_ & Hcount & p0 & Hp0 & Hurl & Hat & Hmax).
    split; [done|]. split.
    { destruct (pe_createdAt c <? createdAt p); simpl;
        rewrite length_app, Hcount; simpl; lia. }
    destruct (Z.ltb_spec (pe_createdAt c) (createdAt p)); simpl.
    + exists p. split; [apply elem_of_app; right; by left|]. split; [done|].
      split; [done|]. intros q Hq. apply elem_of_app in Hq as [Hq|Hq].
      * specialize (Hmax q Hq). lia.
      * apply list_elem_of_singleton in Hq as ->. lia.
    + exists p0. split; [apply elem_of_app; by left|]. split; [done|].
      split; [done|]. intros q Hq. apply elem_of_app in Hq as [Hq|Hq].
      * by apply Hmax.
      * apply list_elem_of_singleton in Hq as ->. lia.
  - destruct IH as [E|E]; [done|]. rewrite E. simpl.
    split; [done|]. split; [done|].
    exists p. split; [by left|]. split; [done|]. split; [done|].
    intros q Hq. apply list_elem_of_singleton in Hq as ->. lia.
Qed.

(** X11. After a rebuild the count of a code is the number of photos filed under
    it, the preview is the URL of one of them, none of them is newer than
    it, and a code without photos, like the blank code, has no entry. *)
Theorem rebuildFromPhotos_summarizes (ps : list StoredPhoto) (iso : string) :
  (∀ e, rebuildFromPhotos upper ps !! iso = Some e → summarizes iso ps e)
  ∧ (rebuildFromPhotos upper ps !! iso = None ↔ iso = "" ∨ filedUnder iso ps = [])
  ∧ photoCounts (rebuildFromPhotos upper ps) !! iso
    = (if String.eqb iso "" then None
       else match filedUnder iso ps with
            | [] => None
            | filed => Some (Z.of_nat (length filed))
            end).
Proof.
  pose proof (rebuildFromPhotos_inv ps iso) as Hinv.
  unfold photoCounts. rewrite lookup_fmap.
  destruct (rebuildFromPhotos upper ps !! iso) as [e|] eqn:E.
  - pose proof Hinv as Hsum. destruct Hinv as (Hiso & Hcount & p & Hp & Hrest).
    split; [by intros ? [= <-]|]. split.
    + split; [done|]. intros [?|Hnil]; [done|]. rewrite Hnil in Hp.
      by apply elem_of_nil in Hp.
    + simpl. apply String.eqb_neq in Hiso. rewrite Hiso, Hcount.
      destruct (filedUnder iso ps); [by apply elem_of_nil in Hp|done].
  - split; [done|]. split; [done|]. simpl.
    destruct Hinv as [->|Hnil]; [done|]. rewrite Hnil. by destruct (String.eqb iso "").
Qed.

(** X12. A refresh whose read fails leaves no preview at all: [getAllPhotos]
    answers the empty list and the state is rebuilt from it. *)
Theorem refresh_failure_clears (w : World) (e : error) (rest : list fault) :
  pending w = Some e :: rest →
  refresh upper w = (with_pending rest w, Ok ∅).
Proof.
  intros Hp. unfold refresh, getAllPhotos, getDocs_photos.
  unfold tryCatch, mbind, io_bind.
  by rewrite (StorageFacts.remote_failure _ w e rest Hp).
Qed.

End CaseMapping.

End PreviewsHookFacts.

(** ** More of [src/lib/storage.ts] *)

Module StorageMoreFacts.

Import JsFacts SanitizeFacts StorageFacts.

Lemma existsb_false_Forall {A} (f : A → bool) (l : list A) :
  existsb f l = false ↔ Forall (fun a => f a = false) l.
Proof.
  induction l as [|a l IH]; simpl.
  - split; [constructor|done].
  - rewrite orb_false_iff, Forall_cons, IH. done.
Qed.

Lemma sanitize_fields_clean_same (fields : list (string * value)) :
  Forall (fun kv => isPlain kv.2 = true → hasUndefined kv.2 = false →
                    sanitizeForFirestore kv.2 = kv.2) fields →
  forallb (fun kv => negb (isProtoKey kv) && isPlain kv.2) fields = true →
  existsb (fun kv => hasUndefined kv.2) fields = false →
  List.map sanitizeField (List.filter kept fields) = fields.
Proof.
  intros IH. induction IH as [|[k x] fields Hx _ IHfields]; [done|].
  cbn [forallb existsb snd] in *.
  intros [[Hk Hp]%andb_true_iff Hrest]%andb_true_iff [Hu Hclean]%orb_false_iff.
  cbn [List.filter]. unfold kept at 1, defined. cbn [snd]. rewrite Hk.
  destruct x; try done; cbn [isUndefined negb andb List.map];
    unfold sanitizeField at 1; cbn [fst snd];
    rewrite (Hx Hp Hu), (IHfields Hrest Hclean); done.
Qed.

Lemma forallb_isProtoKey (fields : list (string * value)) :
  forallb (fun kv => negb (isProtoKey kv) && isPlain kv.2) fields = true →
  existsb isProtoKey fields = false.
Proof.
  induction fields as [|kv fields IH]; [done|]. cbn [forallb existsb].
  intros [[Hk _]%andb_true_iff Hrest]%andb_true_iff.
  apply negb_true_iff in Hk. rewrite Hk. by apply IH.
Qed.

(** A value of plain objects without [undefined] is sanitized to itself. *)
Lemma sanitize_clean (v : value) :
  isPlain v = true → hasUndefined v = false → sanitizeForFirestore v = v.
Proof.
  induction v as [ | | b | n | s | items IH | fields IH | proto fields IH]
    using value_induction; try done.
  - intros Hplain Hclean. rewrite sanitize_array. f_equal.
    cbn [isPlain hasUndefined] in *. apply existsb_false_Forall in Hclean.
    induction IH as [|x items Hx _ IHitems]; [done|].
    apply Forall_cons in Hclean as [Hcx Hclean].
    cbn [forallb] in Hplain. apply andb_true_iff in Hplain as [Hpx Hplain].
    cbn [List.map List.filter]. rewrite (Hx Hpx Hcx).
    unfold defined at 1. destruct x; try done; cbn [isUndefined negb];
      by rewrite (IHitems Hplain Hclean).
  - intros Hplain Hclean. rewrite sanitize_object. unfold rebuilt.
    cbn [isPlain hasUndefined] in *.
    rewrite (assignAll_prototype fields (forallb_isProtoKey fields Hplain)).
    rewrite assignAll_fields. f_equal. by apply sanitize_fields_clean_same.
Qed.

Lemma sanitize_hasProtoKey (v : value) : hasProtoKey (sanitizeForFirestore v) = false.
Proof.
  assert (Hfields : ∀ fields,
            Forall (fun kv => hasProtoKey (sanitizeForFirestore kv.2) = false) fields →
            hasProtoKey (rebuilt (assignAll fields)) = false).
  { intros fields IH. rewrite hasProtoKey_rebuilt, assignAll_fields.
    induction IH as [|[k x] fields Hx _ IHfields]; [done|].
    cbn [List.filter]. destruct (kept (k, x)) eqn:Ek; [|exact IHfields].
    cbn [List.map existsb sanitizeField fst snd] in *.
    unfold kept in Ek. apply andb_true_iff in Ek as [_ Ek].
    apply negb_true_iff in Ek.
    change (isProtoKey (sanitizeField (k, x))) with (isProtoKey (k, x)).
    by rewrite Ek, Hx. }
  induction v as [ | | b | n | s | items IH | fields IH | proto fields IH]
    using value_induction; try done.
  - rewrite sanitize_array, filter_map_sanitize. cbn [hasProtoKey].
    induction IH as [|x items Hx _ IHitems]; [done|].
    cbn [List.filter]. destruct (defined x); [|exact IHitems].
    cbn [List.map existsb]. by rewrite Hx.
  - rewrite sanitize_object. by apply Hfields.
  - rewrite sanitize_objectOf. by apply Hfields.
Qed.

Lemma sanitize_twice (v : value) :
  hasProtoKey v = false →
  sanitizeForFirestore (sanitizeForFirestore v) = sanitizeForFirestore v.
Proof.
  intros Hp. destruct (isUndefined v) eqn:E.
  - by destruct v.
  - apply sanitize_clean; [by apply sanitize_isPlain|by apply sanitize_hasUndefined].
Qed.

(** X13. Sanitizing is idempotent on a value in which no object has an own
    key ['__proto__'], and a value of plain objects in which [undefined]
    does not occur is returned as it is, [null]s included.  In general only
    the second pass is final: an object that had the key ['__proto__'] comes
    out of the first pass with another prototype, and out of the second
    with [Object.prototype] again. *)
Theorem sanitizeForFirestore_idempotent (v : value) :
  (hasProtoKey v = false →
   sanitizeForFirestore (sanitizeForFirestore v) = sanitizeForFirestore v)
  ∧ sanitizeForFirestore (sanitizeForFirestore (sanitizeForFirestore v))
    = sanitizeForFirestore (sanitizeForFirestore v)
  ∧ (isPlain v = true → hasUndefined v = false → sanitizeForFirestore v = v)
  ∧ sanitizeForFirestore (sanitizeForFirestore protoPayload)
    ≠ sanitizeForFirestore protoPayload.
Proof.
  split; [apply sanitize_twice|]. split; [|split; [apply sanitize_clean|done]].
  apply sanitize_twice, sanitize_hasProtoKey.
Qed.

(** Rising [createdAt]. *)
Definition oldestFirst (ps : list StoredPhoto) : Prop :=
  StronglySorted (fun a b => createdAt a ≤ createdAt b) ps.

Lemma insertBy_createdAt_sorted (p : StoredPhoto) (ps : list StoredPhoto) :
  oldestFirst ps →
  oldestFirst (insertBy (fun a b => createdAt a - createdAt b) p ps).
Proof.
  unfold oldestFirst. induction ps as [|q ps IH]; simpl; intros Hs.
  - repeat constructor.
  - apply StronglySorted_inv in Hs as [Hs Hq].
    destruct (Z.leb_spec (createdAt p - createdAt q) 0).
    + constructor; [by constructor|]. constructor; [lia|].
      eapply Forall_impl; [exact Hq|]. simpl. intros; lia.
    + constructor; [by apply IH|].
      rewrite (insertBy_Permutation _ p ps). constructor; [lia|done].
Qed.

Lemma sortBy_createdAt_sorted (ps : list StoredPhoto) :
  oldestFirst (sortBy (fun a b => createdAt a - createdAt b) ps).
Proof.
  induction ps as [|p ps IH]; [constructor|].
  unfold sortBy in *. simpl. by apply insertBy_createdAt_sorted.
Qed.

(** X14. When the read goes through, [getPhotosForCountry] answers exactly the
    stored photos whose [countryIso] is the given string, letter for
    letter, oldest first; it changes nothing. *)
Theorem getPhotosForCountry_exact_sorted (iso : string) (w : World) :
  pending w = [] →
  ∃ ps, getPhotosForCountry iso w = (w, Ok ps)
        ∧ oldestFirst ps
        ∧ ∀ p, p ∈ ps ↔ ∃ k, photoDocs w !! k = Some p ∧ countryIso p = iso.
Proof.
  intros Hp. eexists. split; [|split].
  - unfold getPhotosForCountry, getDocs_photos_where.
    unfold tryCatch, mbind, io_bind, remote. rewrite Hp. reflexivity.
  - apply sortBy_createdAt_sorted.
  - intros p. rewrite sortBy_elem_of, list_elem_of_In, filter_In, <- list_elem_of_In.
    rewrite list_elem_of_fmap, String.eqb_eq. split.
    + intros (([k q] & -> & Hkq) & Hiso). apply elem_of_map_to_list in Hkq. eauto.
    + intros (k & Hk & Hiso). split; [|done]. exists (k, p). split; [done|].
      by apply elem_of_map_to_list.
Qed.

(** Runs the three remote calls of [savePhoto] against the script [Hp]. *)
Ltac run_savePhoto Hp :=
  unfold savePhoto, uploadBytes, getDownloadURL, setDoc_photo;
  unfold tryCatch, throw, mbind, mret, io_bind, io_ret, remote;
  repeat (cbn [pending with_pending with_objects with_photoDocs objects photoDocs urlOf];
          rewrite ?Hp, ?lookup_insert_eq, ?(proj1 (proj2 write_payloads_valid))).

Section SavePhoto.

Variables (t_id : Z) (rnd : string) (t_created : Z) (iso : string) (file : File).
Variables (cap : string) (tags : list FaceTag) (faces : list DetectedFaceData).

(** The id [savePhoto] makes up, the path of the blob and the record. *)
Definition newPhotoId : string := iso +:+ "-" +:+ pretty t_id +:+ "-" +:+ rnd.

Definition newPhotoPath : string := "photos/" +:+ newPhotoId.

Definition newPhoto (w : World) : StoredPhoto :=
  {| id := newPhotoId; countryIso := iso; url := urlOf w newPhotoPath;
     name := file_name file; caption := cap; faceTags := tags;
     detectedFaces := Some faces; createdAt := t_created |}.

(** X15. When the three calls go through, [savePhoto] stores the blob under
    [photos/{id}] and the record under its id, resolves to that record, and
    the record is among the photos of its country and among all photos
    from then on. *)
Theorem savePhoto_then_queries (w : World) :
  pending w = [] →
  ∃ w', savePhoto t_id rnd t_created iso file cap tags faces w = (w', Ok (newPhoto w))
        ∧ photoDocs w' = <[newPhotoId := newPhoto w]> (photoDocs w)
        ∧ objects w' = <[newPhotoPath := file]> (objects w)
        ∧ (∃ ps, getPhotosForCountry iso w' = (w', Ok ps) ∧ newPhoto w ∈ ps)
        ∧ (∃ ps, getAllPhotos w' = (w', Ok ps) ∧ newPhoto w ∈ ps).
Proof.
  intros Hp. eexists. split; [|split; [|split; [|split]]].
  - run_savePhoto Hp. reflexivity.
  - reflexivity.
  - reflexivity.
  - eexists. split.
    + unfold getPhotosForCountry, getDocs_photos_where.
      unfold tryCatch, mbind, io_bind, remote.
      cbn [pending with_photoDocs with_objects]. rewrite Hp. reflexivity.
    + apply sortBy_elem_of, list_elem_of_In, filter_In. split.
      * apply list_elem_of_In, list_elem_of_fmap. exists (newPhotoId, newPhoto w).
        split; [done|]. apply elem_of_map_to_list, lookup_insert_eq.
      * apply String.eqb_refl.
  - eexists. split.
    + unfold getAllPhotos, getDocs_photos. unfold tryCatch, mbind, io_bind, remote.
      cbn [pending with_photoDocs with_objects]. rewrite Hp. reflexivity.
    + apply list_elem_of_fmap. exists (newPhotoId, newPhoto w). split; [done|].
      apply elem_of_map_to_list. apply lookup_insert_eq.
Qed.


End SavePhoto.

Lemma getTripsData_fails (w : World) (e : error) (rest : list fault) :
  pending w = Some e :: rest → getTripsData w = (with_pending rest w, Ok None).
Proof.
  intros Hp. unfold getTripsData, tryCatch, mbind, io_bind, getDoc_trips.
  by rewrite (remote_failure _ w e rest Hp).
Qed.

Lemma getTripsData_ok (w : World) :
  pending w = [] → getTripsData w = (w, Ok (tripsConfig w)).
Proof.
  intros Hp. unfold getTripsData, tryCatch, mbind, mret, io_bind, io_ret.
  unfold getDoc_trips, remote. rewrite Hp. destruct (tripsConfig w); reflexivity.
Qed.

(** X17. [updateTripNotes] resolves without saving anything when its read fails
    or nothing is stored.  When the calls go through it rewrites the notes
    of exactly the trips whose [iso2] is the given string, letter for
    letter, and keeps every other trip, the profile and the home country. *)
Theorem updateTripNotes_outcomes (iso n : string) (w : World) :
  (∀ e rest, pending w = Some e :: rest →
     updateTripNotes iso n w = (with_pending rest w, Ok ()))
  ∧ (pending w = [] → tripsConfig w = None → updateTripNotes iso n w = (w, Ok ()))
  ∧ (∀ d, pending w = [] → tripsConfig w = Some d →
       ∃ d', updateTripNotes iso n w = (with_tripsConfig (Some d') w, Ok ())
             ∧ Forall2 (fun t t' => (iso2 t = iso ∧ t' = with_notes n t)
                                    ∨ (iso2 t ≠ iso ∧ t' = t))
                 (visited d) (visited d')
             ∧ profile d' = profile d ∧ homeCountry d' = homeCountry d).
Proof.
  split; [|split].
  - intros e rest Hp. unfold updateTripNotes, tryCatch, mbind, io_bind.
    by rewrite (getTripsData_fails w e rest Hp).
  - intros Hp Hnone. unfold updateTripNotes, tryCatch, mbind, io_bind.
    by rewrite (getTripsData_ok w Hp), Hnone.
  - intros d Hp Hd. eexists. split; [|split].
    + unfold updateTripNotes, tryCatch, mbind, io_bind.
      rewrite (getTripsData_ok w Hp), Hd.
      unfold saveTripsData, tryCatch, setDoc_trips, remote.
      rewrite Hp, (proj1 write_payloads_valid). reflexivity.
    + simpl. apply Forall2_fmap_r, Forall_Forall2_diag, Forall_forall.
      intros t _. simpl. destruct (String.eqb_spec (iso2 t) iso); [by left|by right].
    + done.
Qed.

End StorageMoreFacts.

(** ** [src/lib/faceRecognition.ts]: the family-member documents *)

Module FamilyStore.

Import FaceRecognition.

Definition with_familyDocs (d : gmap string FamilyMember) (w : World) : World :=
  {| tripsConfig := tripsConfig w; photoDocs := photoDocs w;
     familyDocs := d; objects := objects w; urlOf := urlOf w;
     pending := pending w |}.

(** [setDoc(doc(db, 'familyMembers', id), member)] *)
Definition setDoc_family (memberId : string) (member : FamilyMember) : io unit :=
  remote (fun w => (with_familyDocs (<[memberId := member]> (familyDocs w)) w, Ok ())).

(** [getDoc(doc(db, 'familyMembers', id))]: [None] when [!memberSnap.exists()]. *)
Definition getDoc_family (memberId : string) : io (option FamilyMember) :=
  remote (fun w => (w, Ok (familyDocs w !! memberId))).

Definition deleteDoc_family (memberId : string) : io unit :=
  remote (fun w => (with_familyDocs (delete memberId (familyDocs w)) w, Ok ())).

(** [createFamilyMember]; [t_id] and [t_created] are the two readings of
    [Date.now()], [rnd] the characters drawn from [Math.random()]. *)
Definition createFamilyMember (t_id : Z) (rnd : string) (t_created : Z) (name : string)
  : io FamilyMember :=
  let member :=
    {| fm_id := familyId t_id rnd; fm_name := trim name;
       descriptorStrings := Some []; photoUrls := Some []; fm_createdAt := t_created;
       descriptor := None; descriptors := None; photoUrl := None |} in
  setDoc_family (familyId t_id rnd) member;;
  mret member.

Definition with_name (n : string) (m : FamilyMember) : FamilyMember :=
  {| fm_id := fm_id m; fm_name := n; descriptorStrings := descriptorStrings m;
     photoUrls := photoUrls m; fm_createdAt := fm_createdAt m;
     descriptor := descriptor m; descriptors := descriptors m; photoUrl := photoUrl m |}.

Definition deleteFamilyMember (memberId : string) : io unit :=
  deleteDoc_family memberId.

Definition updateFamilyMemberName (memberId : string) (newName : string) : io unit :=
  memberSnap ← getDoc_family memberId;
  match memberSnap with
  | Some member => setDoc_family memberId (with_name newName member)
  | None => mret ()
  end.

Section Json.

(** [JSON.stringify(Array.from(descriptor))] *)
Variable JSON_stringify : Descriptor -> string.

Definition saveFamilyMember (t_id : Z) (rnd : string) (t_created : Z) (name : string)
    (d : Descriptor) (photo : option string) : io FamilyMember :=
  let member :=
    {| fm_id := familyId t_id rnd; fm_name := name;
       descriptorStrings := Some [JSON_stringify d];
       photoUrls := Some match photo with
                         | Some u => if truthy u then [u] else []
                         | None => []
                         end;
       fm_createdAt := t_created;
       descriptor := None; descriptors := None; photoUrl := None |} in
  setDoc_family (familyId t_id rnd) member;;
  mret member.

(** [a || b] where [b] is an array, which is truthy even when empty. *)
Definition orArray {A} (a : option (list A)) (b : list A) : list A :=
  match a with
  | Some l => l
  | None => b
  end.

(** [existingDescriptorStrings] of [addFamilyMemberPhoto]:
    [descriptorStrings || (descriptors ? descriptors.map(stringify) : [])
     || (descriptor ? [stringify(descriptor)] : [])]. *)
Definition existingDescriptorStrings (member : FamilyMember) : list string :=
  let fromNested :=
    match descriptors member with
    | Some ds => JSON_stringify <$> ds
    | None => []
    end in
  let fromSingle :=
    match descriptor member with
    | Some d => [JSON_stringify d]
    | None => []
    end in
  orArray (Some (orArray (descriptorStrings member) fromNested)) fromSingle.

(** [existingPhotoUrls] of [addFamilyMemberPhoto]:
    [photoUrls || (photoUrl ? [photoUrl] : [])]. *)
Definition existingPhotoUrls (member : FamilyMember) : list string :=
  orArray (photoUrls member)
          match photoUrl member with
          | Some u => if truthy u then [u] else []
          | None => []
          end.

Definition addFamilyMemberPhoto (memberId : string) (d : Descriptor) (photo : string)
  : io unit :=
  memberSnap ← getDoc_family memberId;
  match memberSnap with
  | Some member =>
      setDoc_family memberId
        {| fm_id := fm_id member; fm_name := fm_name member;
           descriptorStrings := Some (existingDescriptorStrings member ++ [JSON_stringify d]);
           photoUrls := Some (existingPhotoUrls member ++ [photo]);
           fm_createdAt := fm_createdAt member;
           descriptor := None; descriptors := None; photoUrl := None |}
  | None => mret ()
  end.

End Json.

End FamilyStore.

Module FamilyFacts.

Import JsFacts StorageFacts FaceRecognition FaceFacts FamilyStore.

Lemma mapM_app {A B} (f : A → result B) (l1 l2 : list A) (ys1 ys2 : list B) :
  mapM f l1 = Ok ys1 → mapM f l2 = Ok ys2 → mapM f (l1 ++ l2) = Ok (ys1 ++ ys2).
Proof.
  revert ys1. induction l1 as [|a l1 IH]; intros ys1; simpl.
  - by intros [= <-].
  - destruct (f a) as [y|e]; simpl; [|done].
    destruct (mapM f l1) as [ys|e]; simpl; [|done].
    intros [= <-] H2. by rewrite (IH ys eq_refl H2).
Qed.

Lemma mapM_round_trip {A B} (parse : B → result A) (print : A → B) (l : list A) :
  (∀ a, a ∈ l → parse (print a) = Ok a) → mapM parse (print <$> l) = Ok l.
Proof.
  induction l as [|a l IH]; intros H; [done|].
  rewrite fmap_cons. cbn [mapM]. rewrite (H a) by left. cbn [bind].
  rewrite IH; [done|]. intros b Hb. apply H. by right.
Qed.

(** What [matchFaces] may do to one face: it comes back as it was, or with
    a confidence of at least [1 - MATCH_THRESHOLD] and, when a member is
    attached, a stored member whose id is not ['unknown']. *)
Definition matchedFrom (w : World) (face face' : DetectedFace) : Prop :=
  face_descriptor face' = face_descriptor face
  ∧ face_box face' = face_box face
  ∧ (face' = face
     ∨ ∃ c, face_confidence face' = Some c
            ∧ (1 - MATCH_THRESHOLD <= c)%Qc
            ∧ ∀ m, matchedMember face' = Some m →
                   fm_id m ≠ "unknown" ∧ ∃ k, familyDocs w !! k = Some m).

Section Matching.

Variable JSON_parse : string → result Descriptor.
Variable fround : Qc → Qc.
Variable JSON_stringify : Descriptor → string.
Variable localeCompare : string → string → Z.
Variable labelDistance : Descriptor → list Descriptor → result Qc.

Lemma membersOf_stored (w : World) (m : FamilyMember) :
  m ∈ membersOf localeCompare w → ∃ k, familyDocs w !! k = Some m.
Proof.
  unfold membersOf. rewrite sortBy_elem_of, list_elem_of_fmap.
  intros ([k m'] & -> & H). exists k. by apply elem_of_map_to_list.
Qed.

Lemma findBestMatch_within (lds : list LabeledFaceDescriptors) (query : Descriptor)
    (m : FaceMatch) :
  findBestMatch labelDistance lds MATCH_THRESHOLD query = Ok m →
  match_label m ≠ "unknown" → (distance m <= MATCH_THRESHOLD)%Qc.
Proof.
  unfold findBestMatch.
  destruct (matchDescriptor labelDistance lds query) as [best|e]; simpl; [|done].
  destruct (Qclt_le_dec MATCH_THRESHOLD (distance best)) as [Hlt|Hle].
  - intros [= <-]. simpl. done.
  - by intros [= <-].
Qed.

Lemma matchOne_matchedFrom (w : World) (lds : list LabeledFaceDescriptors)
    (face face' : DetectedFace) :
  matchOne labelDistance (membersOf localeCompare w) lds face = Ok face' →
  matchedFrom w face face'.
Proof.
  unfold matchOne.
  destruct (findBestMatch labelDistance lds MATCH_THRESHOLD (face_descriptor face))
    as [m|e] eqn:Ebest; simpl; [|done].
  destruct (String.eqb_spec (match_label m) "unknown") as [Hu|Hu]; simpl.
  - intros [= <-]. split; [done|]. split; [done|]. by left.
  - intros [= <-]. split; [done|]. split; [done|]. right.
    exists (1 - distance m)%Qc. split; [done|]. split.
    + pose proof (findBestMatch_within _ _ _ Ebest Hu) as Hle.
      unfold Qcminus. apply Qcplus_le_mono_l. by apply Qcopp_le_compat.
    + simpl. intros m0 Hfind. apply find_some in Hfind as [Hin Heq].
      apply String.eqb_eq in Heq. split; [congruence|].
      apply membersOf_stored. by apply list_elem_of_In.
Qed.

Ltac shape :=
  eexists _, _; split; [reflexivity|]; repeat (split; [reflexivity|]);
  first [ by left | by right; left; eexists | by right; right; eexists ].

(** The shapes of a run of [matchFaces], whatever the transport does. *)
Lemma matchFaces_cases (detected : list DetectedFace) (w : World) :
  ∃ w' r,
    matchFaces localeCompare JSON_parse fround labelDistance detected w = (w', r)
    ∧ familyDocs w' = familyDocs w ∧ photoDocs w' = photoDocs w
    ∧ tripsConfig w' = tripsConfig w ∧ objects w' = objects w
    ∧ (r = Ok detected ∨ (∃ e, r = Err e)
       ∨ ∃ lds, r = mapM (matchOne labelDistance (membersOf localeCompare w) lds) detected).
Proof.
  unfold matchFaces, getFamilyMembers, getDocs_family,
    getTrainingDescriptorsFromTaggedPhotos, getAllPhotos, getDocs_photos, liftResult.
  unfold tryCatch, remote, mbind, mret, io_bind, io_ret.
  destruct (pending w) as [|[e|] rest] eqn:Ew.
  - fold (membersOf localeCompare w).
    destruct (length (membersOf localeCompare w) =? 0)%nat; [shape|].
    rewrite Ew.
    destruct (labeledDescriptorsOf _ _ _ _) as [lds|e]; simpl; [|shape].
    destruct (length lds =? 0)%nat; shape.
  - simpl. shape.
  - cbn [familyDocs with_pending].
    fold (membersOf localeCompare w).
    destruct (length (membersOf localeCompare w) =? 0)%nat; [shape|].
    cbn [pending with_pending].
    destruct rest as [|[e|] rest'];
      cbn [pending with_pending photoDocs familyDocs];
      destruct (labeledDescriptorsOf _ _ _ _) as [lds|e']; simpl; try shape;
      destruct (length lds =? 0)%nat; shape.
Qed.

(** X18. [matchFaces] writes nothing and hands back the faces it was
    given, one for one and in order, each with its descriptor and its box:
    a face comes back untouched or with a confidence of at least
    [1 - MATCH_THRESHOLD] (0.45), and a member attached to it is a stored
    member whose id is not ['unknown']. *)
Theorem matchFaces_keeps_faces (detected out : list DetectedFace) (w w' : World) :
  matchFaces localeCompare JSON_parse fround labelDistance detected w = (w', Ok out) →
  familyDocs w' = familyDocs w ∧ photoDocs w' = photoDocs w
  ∧ tripsConfig w' = tripsConfig w ∧ objects w' = objects w
  ∧ Forall2 (matchedFrom w) detected out.
Proof.
  intros Hrun.
  destruct (matchFaces_cases detected w) as (w1 & r & Hrun' & Hf & Hp & Ht & Ho & Hr).
  rewrite Hrun in Hrun'. injection Hrun' as <- <-.
  repeat (split; [done|]).
  destruct Hr as [[= <-]|[[e [=]]|[lds Hmap]]].
  - apply Forall_Forall2_diag, Forall_forall. intros face _.
    split; [done|]. split; [done|]. by left.
  - symmetry in Hmap. apply mapM_inv in Hmap.
    eapply Forall2_impl; [exact Hmap|].
    intros face face'. apply matchOne_matchedFrom.
Qed.

(** When the family collection holds nothing, or its read fails,
    [matchFaces] resolves to the detections as they were given and makes no
    second round trip: the photos are not read. *)
Lemma matchFaces_without_members (detected : list DetectedFace) (w : World) :
  (familyDocs w = ∅ ∨ ∃ e rest, pending w = Some e :: rest) →
  (matchFaces localeCompare JSON_parse fround labelDistance detected w).2 = Ok detected
  ∧ pending (matchFaces localeCompare JSON_parse fround labelDistance detected w).1
    = tail (pending w).
Proof.
  unfold matchFaces, getFamilyMembers, getDocs_family.
  unfold tryCatch, remote, mbind, mret, io_bind, io_ret.
  intros [Hempty|(e & rest & Hfail)].
  - destruct (pending w) as [|[e|] rest] eqn:Ew;
      cbn [familyDocs with_pending]; rewrite ?Hempty, ?map_to_list_empty; simpl;
      rewrite ?Ew; done.
  - by rewrite Hfail.
Qed.

(** X19. Enrolling the first member with [saveFamilyMember] and then
    matching: when the stored string parses back to the descriptor and no
    tagged photo gives a training descriptor, every detected face with the
    enrolled descriptor is matched to the new member with confidence 1. *)
Theorem saveFamilyMember_then_matchFaces (t_id : Z) (rnd : string) (t_created : Z)
    (name : string) (d : Descriptor) (photo : option string)
    (faces : list DetectedFace) (w : World) :
  (∀ a, labelDistance a [a] = Ok 0%Qc) →
  JSON_parse (JSON_stringify d) = Ok d →
  pending w = [] →
  familyDocs w = ∅ →
  trainingOf JSON_parse w = [] →
  Forall (fun face => face_descriptor face = d) faces →
  ∃ w1 m,
    saveFamilyMember JSON_stringify t_id rnd t_created name d photo w = (w1, Ok m)
    ∧ fm_name m = name
    ∧ familyDocs w1 = {[fm_id m := m]}
    ∧ matchFaces localeCompare JSON_parse fround labelDistance faces w1
      = (w1, Ok (matchedWith m <$> faces)).
Proof.
  intros Hself Hround Hpend Hempty Htrain Hfaces.
  unfold saveFamilyMember, setDoc_family.
  unfold remote, mbind, mret, io_bind, io_ret. rewrite Hpend, Hempty.
  eexists _, _. split; [reflexivity|]. split; [done|]. split; [done|].
  set (m := {| fm_id := familyId t_id rnd |}).
  set (w1 := with_familyDocs _ w).
  rewrite (matchFaces_run JSON_parse fround localeCompare labelDistance faces w1 Hpend).
  rewrite (membersOf_singleton localeCompare w1 (familyId t_id rnd) m eq_refl).
  replace (trainingOf JSON_parse w1) with (@nil (string * Descriptor)).
  assert (Hown : getMemberDescriptors JSON_parse fround m = Ok [d]).
  { unfold getMemberDescriptors, m. simpl. by rewrite Hround. }
  rewrite (labeledDescriptorsOf_enrolled JSON_parse fround m d Hown). simpl. f_equal.
  apply mapM_Ok. intros face Hface.
  rewrite Forall_forall in Hfaces. specialize (Hfaces face Hface).
  unfold matchOne. rewrite Hfaces, (findBestMatch_self labelDistance _ d Hself). simpl.
  destruct (String.eqb_spec (familyId t_id rnd) "unknown") as [Hu|_];
    [by destruct (familyId_not_unknown t_id rnd)|].
  rewrite String.eqb_refl. simpl.
  unfold matchedWith. rewrite Hfaces. apply f_equal, f_equal, f_equal.
  apply Qcplus_0_r.
Qed.

(** The descriptors [addFamilyMemberPhoto] carries over from a member. *)
Definition carriedOver (m : FamilyMember) (own : list Descriptor) : list Descriptor :=
  match descriptorStrings m with
  | Some (_ :: _) => own
  | Some [] => []
  | None => default [] (descriptors m)
  end.

(** X20. [addFamilyMemberPhoto] on a stored member appends the photo and
    the new descriptor and keeps id, name and creation time.  The photo
    comes after the [photoUrls] the member had or, for a member stored
    without [photoUrls], after its [photoUrl] when that is set.  The
    descriptors the member had are carried over when they were stored as
    strings or as nested arrays; a member without [descriptorStrings] and
    [descriptors], or with an empty [descriptorStrings], is left with the
    new descriptor alone, whatever its [descriptor] and [descriptors] held.
    Without a stored member nothing is written. *)
Theorem addFamilyMemberPhoto_descriptors (k : string) (d : Descriptor) (photo : string)
    (w : World) :
  pending w = [] →
  let w' := (addFamilyMemberPhoto JSON_stringify k d photo w).1 in
  (addFamilyMemberPhoto JSON_stringify k d photo w).2 = Ok ()
  ∧ (familyDocs w !! k = None → w' = w)
  ∧ ∀ m own,
      familyDocs w !! k = Some m →
      (∀ a, a = d ∨ a ∈ default [] (descriptors m) →
            JSON_parse (JSON_stringify a) = Ok a) →
      getMemberDescriptors JSON_parse fround m = Ok own →
      ∃ m', familyDocs w' = <[k := m']> (familyDocs w)
            ∧ fm_id m' = fm_id m ∧ fm_name m' = fm_name m
            ∧ fm_createdAt m' = fm_createdAt m
            ∧ (∀ urls, photoUrls m = Some urls → photoUrls m' = Some (urls ++ [photo]))
            ∧ (photoUrls m = None →
               photoUrls m'
               = Some match photoUrl m with
                      | Some u => if String.eqb u "" then [photo] else [u; photo]
                      | None => [photo]
                      end)
            ∧ getMemberDescriptors JSON_parse fround m' = Ok (carriedOver m own ++ [d]).
Proof.
  intros Hpend w'. subst w'.
  unfold addFamilyMemberPhoto, getDoc_family, setDoc_family.
  unfold remote, mbind, mret, io_bind, io_ret. rewrite Hpend.
  destruct (familyDocs w !! k) as [m|] eqn:Ek; rewrite ?Hpend; simpl.
  - split; [done|]. split; [done|]. intros m0 own [= <-] Hround Hown.
    eexists. split; [reflexivity|]. repeat (split; [done|]).
    split; [|split].
    { intros urls Hurls. cbn [photoUrls]. unfold existingPhotoUrls, orArray.
      by rewrite Hurls. }
    { intros Hnone. cbn [photoUrls]. unfold existingPhotoUrls, orArray, truthy.
      rewrite Hnone. destruct (photoUrl m) as [u|]; [|done].
      by destruct (String.eqb u ""). }
    unfold getMemberDescriptors at 1. cbn [descriptorStrings].
    unfold existingDescriptorStrings, orArray, carriedOver.
    unfold getMemberDescriptors in Hown.
    assert (Hd : mapM JSON_parse [JSON_stringify d] = Ok [d])
      by (simpl; by rewrite (Hround d) by (by left)).
    destruct (descriptorStrings m) as [[|s ss]|].
    + exact Hd.
    + pose proof (mapM_app JSON_parse (s :: ss) _ own [d] Hown Hd) as Happ.
      exact Happ.
    + destruct (descriptors m) as [ds|]; simpl; [|exact Hd].
      assert (Hds : mapM JSON_parse ((JSON_stringify <$> ds) ++ [JSON_stringify d])
                    = Ok (ds ++ [d])).
      { apply mapM_app; [|exact Hd]. apply mapM_round_trip.
        intros a Ha. apply Hround. by right. }
      destruct ((JSON_stringify <$> ds) ++ [JSON_stringify d]) as [|s ss] eqn:E;
        [by destruct ds|exact Hds].
  - split; [done|]. split; [done|]. intros m own [=].
Qed.

(** [updateFamilyMemberName] changes the name of the stored member and
    nothing else of it, so the descriptors [getMemberDescriptors] reads stay
    the same; without a stored member it writes nothing.  The new name is
    stored as given, untrimmed. *)
Lemma updateFamilyMemberName_only_name (k newName : string) (w : World) :
  pending w = [] →
  updateFamilyMemberName k newName w
  = (with_familyDocs (alter (with_name newName) k (familyDocs w)) w, Ok ())
  ∧ (familyDocs w !! k = None → (updateFamilyMemberName k newName w).1 = w)
  ∧ ∀ m, fm_name (with_name newName m) = newName
         ∧ getMemberDescriptors JSON_parse fround (with_name newName m)
           = getMemberDescriptors JSON_parse fround m.
Proof.
  intros Hpend.
  unfold updateFamilyMemberName, getDoc_family, setDoc_family.
  unfold remote, mbind, mret, io_bind, io_ret. rewrite Hpend.
  destruct (familyDocs w !! k) as [m|] eqn:Ek; rewrite ?Hpend.
  - split; [|split; [done|done]].
    f_equal. f_equal. apply map_eq. intros j.
    destruct (decide (j = k)) as [->|Hj].
    + by rewrite lookup_insert_eq, lookup_alter_eq, Ek.
    + by rewrite lookup_insert_ne, lookup_alter_ne.
  - assert (E : alter (with_name newName) k (familyDocs w) = familyDocs w).
    { apply map_eq. intros j. destruct (decide (j = k)) as [->|Hj].
      - by rewrite lookup_alter_eq, Ek.
      - by rewrite lookup_alter_ne. }
    rewrite E. split; [by destruct w|]. split; [done|done].
Qed.

(** X21. A member made by [createFamilyMember] carries the trimmed name
    and no descriptor, and [getFamilyMembers] then lists it with the
    members there were; [deleteFamilyMember] on its id puts the collection
    back as it was before, when the id was not taken. *)
Theorem createFamilyMember_then_deleteFamilyMember (t_id : Z) (rnd : string)
    (t_created : Z) (name : string) (w : World) :
  pending w = [] →
  familyDocs w !! familyId t_id rnd = None →
  ∃ w1 m,
    createFamilyMember t_id rnd t_created name w = (w1, Ok m)
    ∧ fm_id m = familyId t_id rnd ∧ fm_name m = trim name
    ∧ getMemberDescriptors JSON_parse fround m = Ok []
    ∧ (∃ members, getFamilyMembers localeCompare w1 = (w1, Ok members)
                  ∧ members ≡ₚ m :: membersOf localeCompare w)
    ∧ deleteFamilyMember (fm_id m) w1 = (w, Ok ()).
Proof.
  intros Hpend Hfresh.
  unfold createFamilyMember, deleteFamilyMember, setDoc_family, deleteDoc_family,
    getFamilyMembers, getDocs_family.
  unfold tryCatch, remote, mbind, mret, io_bind, io_ret. rewrite Hpend.
  eexists _, _. split; [reflexivity|]. repeat (split; [done|]). split.
  - cbn [pending with_familyDocs]. rewrite Hpend. eexists. split; [reflexivity|].
    cbn [familyDocs with_familyDocs]. unfold membersOf.
    rewrite !sortBy_Permutation.
    rewrite (map_to_list_insert _ _ _ Hfresh). done.
  - cbn [pending with_familyDocs fm_id]. rewrite Hpend.
    cbn [familyDocs with_familyDocs]. rewrite delete_insert_id by done.
    f_equal. destruct w; simpl in *. by subst.
Qed.

End Matching.

End FamilyFacts.

(** ** [src/components/CountryPanel.tsx]: more handlers of the panel *)

Module PanelHandlers.

Import CountryPanel.

(** [handleDeletePhoto]: a failed delete is reported by an alert and leaves
    the panel as it was. *)
Definition handleDeletePhoto (photoId : string) (st : Panel) : io Panel :=
  tryCatch
    (deletePhoto photoId;;
     mret {| photos := List.filter (fun p => negb (String.eqb (id p) photoId)) (photos st);
             activePhotoId :=
               match activePhotoId st with
               | Some cur => if String.eqb cur photoId then None else Some cur
               | None => None
               end |})
    (fun _ => mret st).

(** [!df.assignedMemberId] is false for an id that is set and not empty. *)
Definition isSet (o : option string) : bool :=
  match o with
  | Some s => truthy s
  | None => false
  end.

Definition zeroBox : Box := {| x := 0%Qc; y := 0%Qc; width := 0%Qc; height := 0%Qc |}.

(** [{ ...df, assignedMemberId: member.id, assignedMemberName: member.name }] *)
Definition assignTo (mid mname : string) (df : DetectedFaceData) : DetectedFaceData :=
  {| df_id := df_id df; df_thumbnail := df_thumbnail df; df_box := df_box df;
     descriptorString := descriptorString df;
     assignedMemberId := Some mid; assignedMemberName := Some mname;
     suggestedMemberId := suggestedMemberId df;
     suggestedMemberName := suggestedMemberName df;
     df_confidence := df_confidence df |}.

(** [addPersonManual] with the loaded [familyMembers] and the id chosen in
    the select box; the reset of the select box is not part of [Panel]. *)
Definition addPersonManual (familyMembers : list FamilyMember) (manualAddId : string)
    (st : Panel) : io Panel :=
  match activePhoto st with
  | None => mret st
  | Some active =>
      match List.find (fun m => String.eqb (fm_id m) manualAddId) familyMembers with
      | None => mret st
      | Some member =>
          let existing := faceTags active in
          if existsb (fun t => String.eqb (memberId t) (fm_id member)) existing
          then mret st else
          (* Prefer assigning the first unassigned detected face *)
          let dfs := default [] (detectedFaces active) in
          let unassigned := List.find (fun df => negb (isSet (assignedMemberId df))) dfs in
          let nextTags :=
            existing ++
            [ {| memberId := fm_id member; memberName := fm_name member;
                 box := match unassigned with
                        | Some u => df_box u
                        | None => zeroBox
                        end;
                 confidence := None |} ] in
          st1 ← handleUpdateFaceTags (id active) nextTags st;
          match unassigned with
          | Some u =>
              let nextDetected :=
                (fun df => if String.eqb (df_id df) (df_id u)
                           then assignTo (fm_id member) (fm_name member) df else df)
                  <$> dfs in
              updatePhotoDetectedFaces (id active) nextDetected;;
              mret (setPhotos
                      (fmap (fun p => if String.eqb (id p) (id active)
                                      then with_detectedFaces nextDetected p else p))
                      st1)
          | None => mret st1
          end
      end
  end.

(** [nextById.set(k, v)]: a [Map] keeps a key at the place where it was
    first set. *)
Fixpoint mapSet {V} (k : string) (v : V) (m : list (string * V)) : list (string * V) :=
  match m with
  | [] => [(k, v)]
  | (k', v') :: rest =>
      if String.eqb k' k then (k', v) :: rest else (k', v') :: mapSet k v rest
  end.

(** [a || b] on strings that may be missing. *)
Definition orString (a : option string) (b : string) : string :=
  match a with
  | Some s => if truthy s then s else b
  | None => b
  end.

(** [new Map(members.map((m) => [m.id, m.name]))] *)
Definition idToNameOf (members : list FamilyMember) : gmap string string :=
  fold_left (fun acc m => <[fm_id m := fm_name m]> acc) members ∅.

(** [updatedDetected] of [autoApplySuggestions], for one face. *)
Definition applySuggestion (idToName : gmap string string) (df : DetectedFaceData)
  : DetectedFaceData :=
  if isSet (assignedMemberId df) then df else
  match suggestedMemberId df with
  | Some s =>
      if truthy s
      then assignTo s (orString (suggestedMemberName df)
                         (orString (idToName !! s) "Неизвестно")) df
      else df
  | None => df
  end.

(** [nextTags] of [autoApplySuggestions]: the tags there were, then one
    tag for every assigned face, keyed by member id. *)
Definition tagsFromFaces (existing : list FaceTag) (faces : list DetectedFaceData)
  : list FaceTag :=
  let byExisting :=
    fold_left (fun nextById t => mapSet (memberId t) t nextById) existing [] in
  let nextById :=
    fold_left
      (fun nextById df =>
         match assignedMemberId df with
         | Some a =>
             if truthy a
             then mapSet a {| memberId := a;
                              memberName := orString (assignedMemberName df) "Неизвестно";
                              box := df_box df; confidence := None |} nextById
             else nextById
         | None => nextById
         end)
      faces byExisting in
  snd <$> nextById.

Section Tagger.

Variable localeCompare : string -> string -> Z.

(** [openTagger], to which [autoApplySuggestions] falls back for a photo
    without detected faces. *)
Variable openTagger : Panel -> io Panel.

(** [autoApplySuggestions]; [setFamilyMembers] touches state that is not
    part of [Panel]. *)
Definition autoApplySuggestions (st : Panel) : io Panel :=
  match activePhoto st with
  | None => mret st
  | Some active =>
      let faces := default [] (detectedFaces active) in
      if (length faces =? 0)%nat then openTagger st else
      members ← FaceRecognition.getFamilyMembers localeCompare;
      let updatedDetected := applySuggestion (idToNameOf members) <$> faces in
      let nextTags := tagsFromFaces (faceTags active) updatedDetected in
      updatePhotoDetectedFaces (id active) updatedDetected;;
      st1 ← handleUpdateFaceTags (id active) nextTags st;
      mret (setPhotos
              (fmap (fun p => if String.eqb (id p) (id active)
                              then with_faceTags nextTags
                                     (with_detectedFaces updatedDetected p)
                              else p))
              st1)
  end.

End Tagger.

End PanelHandlers.

Module PanelMoreFacts.

Import CountryPanel PanelHandlers JsFacts SanitizeFacts StorageFacts PanelFacts.
Import TripsHookFacts.

(** X22. [handleDeletePhoto] never rejects.  When the photo's blob is
    missing the delete fails and panel and store stay as they were, even if
    the document exists; when the blob is there, blob and document are
    deleted, the panel loses exactly the photos with that id, and the
    active photo is cleared if it was the deleted one and kept otherwise. *)
Theorem handleDeletePhoto_outcomes (photoId : string) (st : Panel) (w : World) :
  pending w = [] →
  (objects w !! ("photos/" +:+ photoId) = None →
   handleDeletePhoto photoId st w = (w, Ok st))
  ∧ (∀ blob, objects w !! ("photos/" +:+ photoId) = Some blob →
       ∃ w' st',
         handleDeletePhoto photoId st w = (w', Ok st')
         ∧ photoDocs w' = delete photoId (photoDocs w)
         ∧ objects w' = delete ("photos/" +:+ photoId) (objects w)
         ∧ (∀ p, p ∈ photos st' ↔ p ∈ photos st ∧ id p ≠ photoId)
         ∧ (activePhotoId st = Some photoId → activePhoto st' = None)
         ∧ (activePhotoId st ≠ Some photoId → activePhoto st' = activePhoto st)).
Proof.
  intros Hpend. unfold handleDeletePhoto, deletePhoto, deleteObject, deleteDoc_photo.
  unfold tryCatch, throw, remote, mbind, mret, io_bind, io_ret. rewrite Hpend.
  split.
  - intros Hnone. by rewrite Hnone.
  - intros blob Hblob. rewrite Hblob. cbn [pending with_objects]. rewrite Hpend.
    eexists _, _. split; [reflexivity|]. split; [done|]. split; [done|]. split; [|split].
    + intros p. cbn [photos].
      rewrite !list_elem_of_In, filter_In, negb_true_iff, String.eqb_neq. done.
    + intros Hact. unfold activePhoto. cbn [activePhotoId photos]. rewrite Hact.
      by rewrite String.eqb_refl.
    + intros Hact. unfold activePhoto. cbn [activePhotoId photos].
      destruct (activePhotoId st) as [cur|]; [|done].
      destruct (String.eqb_spec cur photoId) as [->|Hne]; [done|].
      apply find_filter_keeps. intros p Hp. apply String.eqb_eq in Hp.
      apply negb_true_iff, String.eqb_neq. congruence.
Qed.

(** X23. When the write of the face tags fails and the write of the
    detected faces goes through, [removePerson] still resolves: the tags
    stay as they were, in the panel and in the store, while the faces
    assigned to the member lose their assignment in both. *)
Theorem removePerson_tag_write_fails (m : string) (e : error) (st : Panel) (w : World)
    (active stored : StoredPhoto) :
  activePhoto st = Some active →
  pending w = [Some e] →
  photoDocs w !! id active = Some stored →
  default [] (detectedFaces active) ≠ [] →
  ∃ w' st' active' stored' dfs,
    removePerson m st w = (w', Ok st')
    ∧ activePhoto st' = Some active'
    ∧ photoDocs w' !! id active = Some stored'
    ∧ faceTags active' = faceTags active
    ∧ faceTags stored' = faceTags stored
    ∧ detectedFaces active' = Some dfs
    ∧ detectedFaces stored' = Some dfs
    ∧ Forall2 (unassigned m) (default [] (detectedFaces active)) dfs.
Proof.
  intros Hactive Hpend Hstored Hfaces.
  set (dfs := (fun df => if negb (assignedTo m df) then df else withoutAssignment df)
                <$> default [] (detectedFaces active)).
  set (f2 := fun p => if String.eqb (id p) (id active) then with_detectedFaces dfs p else p).
  assert (Hid2 : ∀ p, id (f2 p) = id p) by (intros p; unfold f2; by destruct (String.eqb _ _)).
  assert (Hlen : (0 <? length dfs)%nat = true).
  { unfold dfs. destruct (default [] (detectedFaces active)); [done|reflexivity]. }
  set (w0 := with_pending [] w).
  assert (Hrun1 : ∀ tags, handleUpdateFaceTags (id active) tags st w = (w0, Ok st)).
  { intros tags. unfold handleUpdateFaceTags, updatePhotoFaceTags, updateDoc_photo.
    unfold tryCatch, throw, remote, mbind, mret, io_bind, io_ret. by rewrite Hpend. }
  exists (with_photoDocs (<[id active := with_detectedFaces dfs stored]> (photoDocs w0)) w0),
    (setPhotos (fmap f2) st), (with_detectedFaces dfs active),
    (with_detectedFaces dfs stored), dfs.
  split.
  { unfold removePerson. rewrite Hactive. fold dfs.
    unfold mbind at 1, io_bind at 1. rewrite Hrun1, Hlen.
    unfold mbind, io_bind, mret, io_ret.
    by rewrite (updatePhotoDetectedFaces_ok _ _ w0 stored eq_refl Hstored). }
  split.
  { rewrite activePhoto_setPhotos, Hactive by done. simpl.
    unfold f2. by rewrite String.eqb_refl. }
  split; [apply lookup_insert_eq|].
  repeat (split; [done|]). apply unassigned_fmap.
Qed.

(** The local copy of the active photo after [addPersonManual]. *)
Definition tagged (member : FamilyMember) (p : StoredPhoto) : StoredPhoto :=
  let dfs := default [] (detectedFaces p) in
  let unassigned := List.find (fun df => negb (isSet (assignedMemberId df))) dfs in
  let nextTags :=
    faceTags p ++
    [ {| memberId := fm_id member; memberName := fm_name member;
         box := match unassigned with
                | Some u => df_box u
                | None => zeroBox
                end;
         confidence := None |} ] in
  match unassigned with
  | Some u =>
      with_detectedFaces
        ((fun df => if String.eqb (df_id df) (df_id u)
                    then assignTo (fm_id member) (fm_name member) df else df) <$> dfs)
        (with_faceTags nextTags p)
  | None => with_faceTags nextTags p
  end.

Lemma tagged_faceTags (member : FamilyMember) (p : StoredPhoto) :
  let unassigned :=
    List.find (fun df => negb (isSet (assignedMemberId df))) (default [] (detectedFaces p)) in
  ∃ b, faceTags (tagged member p)
       = faceTags p ++ [ {| memberId := fm_id member; memberName := fm_name member;
                            box := b; confidence := None |} ]
       ∧ (∀ u, unassigned = Some u →
               b = df_box u
               ∧ assignTo (fm_id member) (fm_name member) u
                 ∈ default [] (detectedFaces (tagged member p)))
       ∧ (unassigned = None →
          b = zeroBox ∧ detectedFaces (tagged member p) = detectedFaces p).
Proof.
  intros unassigned. unfold tagged. fold unassigned.
  destruct unassigned as [u|] eqn:Eu; eexists; (split; [reflexivity|]); split; try done.
  intros u' [= <-]. split; [done|]. simpl.
  apply find_some in Eu as [Hin _]. apply list_elem_of_fmap. exists u.
  split; [by rewrite String.eqb_refl|by apply list_elem_of_In].
Qed.

(** [addPersonManual] for a member who is not tagged yet. *)
Lemma addPersonManual_run (familyMembers : list FamilyMember) (manualAddId : string)
    (st : Panel) (w : World) (active stored : StoredPhoto) (member : FamilyMember) :
  activePhoto st = Some active →
  pending w = [] →
  photoDocs w !! id active = Some stored →
  List.find (fun m => String.eqb (fm_id m) manualAddId) familyMembers = Some member →
  existsb (fun t => String.eqb (memberId t) (fm_id member)) (faceTags active) = false →
  ∃ w1 st1,
    addPersonManual familyMembers manualAddId st w = (w1, Ok st1)
    ∧ pending w1 = []
    ∧ activePhoto st1 = Some (tagged member active)
    ∧ (∃ stored1, photoDocs w1 !! id active = Some stored1
                  ∧ faceTags stored1 = faceTags (tagged member active)
                  ∧ (List.find (fun df => negb (isSet (assignedMemberId df)))
                       (default [] (detectedFaces active)) ≠ None →
                     detectedFaces stored1 = detectedFaces (tagged member active)))
    ∧ (∀ k, k ≠ id active → photoDocs w1 !! k = photoDocs w !! k)
    ∧ familyDocs w1 = familyDocs w ∧ objects w1 = objects w.
Proof.
  intros Hactive Hpend Hstored Hmember Hnew.
  unfold addPersonManual. rewrite Hactive, Hmember, Hnew.
  unfold tagged.
  set (dfs := default [] (detectedFaces active)).
  destruct (List.find (fun df => negb (isSet (assignedMemberId df))) dfs) as [u|] eqn:Eu.
  - set (nextTags := faceTags active ++ _).
    set (nextDetected := _ <$> dfs).
    set (f1 := fun p => if String.eqb (id p) (id active) then with_faceTags nextTags p else p).
    set (f2 := fun p => if String.eqb (id p) (id active)
                        then with_detectedFaces nextDetected p else p).
    assert (Hid1 : ∀ p, id (f1 p) = id p)
      by (intros p; unfold f1; by destruct (String.eqb _ _)).
    assert (Hid2 : ∀ p, id (f2 p) = id p)
      by (intros p; unfold f2; by destruct (String.eqb _ _)).
    unfold mbind at 1, io_bind at 1.
    rewrite (handleUpdateFaceTags_ok _ nextTags st w stored Hpend Hstored).
    fold f1. set (w1 := with_photoDocs _ w).
    unfold mbind, io_bind, mret, io_ret.
    rewrite (updatePhotoDetectedFaces_ok _ nextDetected w1 (with_faceTags nextTags stored));
      [|done|apply lookup_insert_eq].
    fold f2. eexists _, _. split; [reflexivity|]. split; [done|]. split.
    { rewrite !activePhoto_setPhotos, Hactive by done. simpl.
      unfold f2, f1. rewrite String.eqb_refl. simpl. by rewrite String.eqb_refl. }
    split.
    { eexists. split; [apply lookup_insert_eq|]. done. }
    split; [|done].
    intros k Hk. unfold w1. cbn [photoDocs with_photoDocs].
    by rewrite !lookup_insert_ne.
  - set (nextTags := faceTags active ++ _).
    set (f1 := fun p => if String.eqb (id p) (id active) then with_faceTags nextTags p else p).
    assert (Hid1 : ∀ p, id (f1 p) = id p)
      by (intros p; unfold f1; by destruct (String.eqb _ _)).
    unfold mbind at 1, io_bind at 1.
    rewrite (handleUpdateFaceTags_ok _ nextTags st w stored Hpend Hstored).
    fold f1. unfold mret, io_ret.
    eexists _, _. split; [reflexivity|]. split; [done|]. split.
    { rewrite activePhoto_setPhotos, Hactive by done. simpl.
      unfold f1. by rewrite String.eqb_refl. }
    split.
    { eexists. split; [apply lookup_insert_eq|]. split; [done|]. by intros []. }
    split; [|done].
    intros k Hk. cbn [photoDocs with_photoDocs]. by rewrite lookup_insert_ne.
Qed.

Lemma existsb_app_new (member : FamilyMember) (b : Box) (tags : list FaceTag) :
  existsb (fun t => String.eqb (memberId t) (fm_id member))
    (tags ++ [ {| memberId := fm_id member; memberName := fm_name member;
                  box := b; confidence := None |} ]) = true.
Proof. rewrite existsb_app. simpl. rewrite String.eqb_refl. apply orb_true_iff. right. done. Qed.

(** X24. [addPersonManual] tags a member at most once.  For a member of
    the loaded list who is not tagged on the active photo it appends one tag
    carrying the member's id and name, keeping the tags there were in their
    order, and stores the same tags; the tag takes the box of the first
    detected face without assignment, which is then assigned to the member,
    and the zero box when there is none.  Running it again changes nothing
    and makes no round trip.  Member ids that were distinct stay distinct. *)
Theorem addPersonManual_tags_once (familyMembers : list FamilyMember)
    (manualAddId : string) (st : Panel) (w : World) (active stored : StoredPhoto) :
  activePhoto st = Some active →
  pending w = [] →
  photoDocs w !! id active = Some stored →
  ∃ w1 st1 active1,
    addPersonManual familyMembers manualAddId st w = (w1, Ok st1)
    ∧ activePhoto st1 = Some active1
    ∧ (∀ pend, addPersonManual familyMembers manualAddId st1 (with_pending pend w1)
               = (with_pending pend w1, Ok st1))
    ∧ faceTags active `prefix_of` faceTags active1
    ∧ (NoDup (memberId <$> faceTags active) → NoDup (memberId <$> faceTags active1))
    ∧ ∀ member,
        List.find (fun m => String.eqb (fm_id m) manualAddId) familyMembers = Some member →
        (∃ t, t ∈ faceTags active1 ∧ memberId t = fm_id member)
        ∧ (existsb (fun t => String.eqb (memberId t) (fm_id member)) (faceTags active) = false →
           let unassigned :=
             List.find (fun df => negb (isSet (assignedMemberId df)))
                       (default [] (detectedFaces active)) in
           (∃ b, faceTags active1
                 = faceTags active ++ [ {| memberId := fm_id member;
                                           memberName := fm_name member;
                                           box := b; confidence := None |} ]
                 ∧ (∀ u, unassigned = Some u →
                         b = df_box u
                         ∧ assignTo (fm_id member) (fm_name member) u
                           ∈ default [] (detectedFaces active1))
                 ∧ (unassigned = None →
                    b = zeroBox ∧ detectedFaces active1 = detectedFaces active))
           ∧ ∃ stored1, photoDocs w1 !! id active = Some stored1
                        ∧ faceTags stored1 = faceTags active1
                        ∧ (unassigned ≠ None →
                           detectedFaces stored1 = detectedFaces active1)).
Proof.
  intros Hactive Hpend Hstored.
  destruct (List.find (fun m => String.eqb (fm_id m) manualAddId) familyMembers)
    as [member|] eqn:Hmember.
  - destruct (existsb (fun t => String.eqb (memberId t) (fm_id member)) (faceTags active))
      eqn:Hnew.
    + assert (Hnoop : ∀ v, addPersonManual familyMembers manualAddId st v = (v, Ok st)).
      { intros v. unfold addPersonManual. by rewrite Hactive, Hmember, Hnew. }
      exists w, st, active. split; [apply Hnoop|]. split; [done|].
      split; [intros pend; apply Hnoop|]. split; [done|]. split; [done|].
      intros member' [= <-]. split; [|by rewrite Hnew].
      apply find_existsb in Hnew as (t & Ht & Heq).
      apply find_some in Ht as [Ht _]. exists t. split; [by apply list_elem_of_In|].
      by apply String.eqb_eq.
    + destruct (addPersonManual_run familyMembers manualAddId st w active stored member
                  Hactive Hpend Hstored Hmember Hnew)
        as (w1 & st1 & Hrun & Hpend1 & Hactive1 & (stored1 & Hs1 & Hs1tags & Hs1faces) & _).
      destruct (tagged_faceTags member active) as (b & Htags & Hsome & Hnone).
      exists w1, st1, (tagged member active). split; [exact Hrun|]. split; [exact Hactive1|].
      split.
      { intros pend. unfold addPersonManual. rewrite Hactive1, Hmember, Htags.
        by rewrite existsb_app_new. }
      split; [rewrite Htags; by apply prefix_app_r|]. split.
      { intros Hnd. rewrite Htags, fmap_app. apply NoDup_app. split; [done|]. split.
        - intros i Hi Hin. simpl in Hin. apply list_elem_of_singleton in Hin as ->.
          apply list_elem_of_fmap in Hi as (t & Ht & Hin).
          assert (Hex : existsb (fun t => String.eqb (memberId t) (fm_id member))
                          (faceTags active) = true).
          { apply existsb_exists. exists t. split; [by apply list_elem_of_In|].
            apply String.eqb_eq. done. }
          congruence.
        - apply NoDup_singleton. }
      intros member' [= <-]. split.
      { eexists. split; [rewrite Htags; apply elem_of_app; right; by left|done]. }
      intros _ unassigned. split; [by exists b|]. by exists stored1.
  - assert (Hnoop : ∀ v, addPersonManual familyMembers manualAddId st v = (v, Ok st)).
    { intros v. unfold addPersonManual. by rewrite Hactive, Hmember. }
    exists w, st, active. split; [apply Hnoop|]. split; [done|].
    split; [intros pend; apply Hnoop|]. split; [done|]. split; [done|]. by intros member.
Qed.

Lemma mapSet_fst {V} (k : string) (v : V) (m : list (string * V)) :
  (mapSet k v m).*1 = TripsHook.setAdd (m.*1) k.
Proof.
  unfold TripsHook.setAdd. induction m as [|[k' v'] m IH].
  - done.
  - cbn [mapSet]. destruct (String.eqb_spec k' k) as [->|Hne]; rewrite !fmap_cons; cbn [fst].
    + by rewrite bool_decide_eq_true_2 by left.
    + rewrite IH. case_bool_decide as Hin.
      * by rewrite bool_decide_eq_true_2 by (by right).
      * rewrite bool_decide_eq_false_2; [done|].
        intros H. apply elem_of_cons in H as [->|H]; done.
Qed.

Lemma mapSet_elem_of {V} (k : string) (v : V) (m : list (string * V)) (p : string * V) :
  p ∈ mapSet k v m → p ∈ m ∨ p = (k, v).
Proof.
  induction m as [|[k' v'] m IH]; simpl.
  - intros H. apply list_elem_of_singleton in H. by right.
  - destruct (String.eqb_spec k' k) as [->|Hne]; rewrite !elem_of_cons.
    + intros [->|H]; [by right|left; by right].
    + intros [->|H]; [left; by left|]. destruct (IH H) as [H'|H']; [left; by right|by right].
Qed.

(** Every entry of the [Map] sits under the member id of its tag. *)
Definition byMemberId (m : list (string * FaceTag)) : Prop :=
  Forall (fun p => memberId p.2 = p.1) m.

Lemma mapSet_byMemberId (t : FaceTag) (m : list (string * FaceTag)) :
  byMemberId m → byMemberId (mapSet (memberId t) t m).
Proof.
  unfold byMemberId. induction m as [|[k' v'] m IH]; simpl; intros H.
  - by constructor.
  - inversion H as [|? ? Hhd Htl]; subst.
    destruct (String.eqb_spec k' (memberId t)) as [->|Hne]; constructor; auto.
Qed.

Lemma byMemberId_ids (m : list (string * FaceTag)) :
  byMemberId m → memberId <$> (snd <$> m) = m.*1.
Proof.
  unfold byMemberId. induction 1 as [|[k v] m Hhd _ IH]; [done|].
  rewrite !fmap_cons. cbn [fst snd] in *. by rewrite Hhd, IH.
Qed.

(** The tag [autoApplySuggestions] derives from an assigned face. *)
Definition tagOfFace (a : string) (df : DetectedFaceData) : FaceTag :=
  {| memberId := a; memberName := orString (assignedMemberName df) "Неизвестно";
     box := df_box df; confidence := None |}.

(** The [Map] of [tagsFromFaces] while its two loops run. *)
Definition setExisting (nextById : list (string * FaceTag)) (t : FaceTag) :=
  mapSet (memberId t) t nextById.

Definition setAssigned (nextById : list (string * FaceTag)) (df : DetectedFaceData) :=
  match assignedMemberId df with
  | Some a => if truthy a then mapSet a (tagOfFace a df) nextById else nextById
  | None => nextById
  end.

Lemma tagsFromFaces_loops (existing : list FaceTag) (faces : list DetectedFaceData) :
  tagsFromFaces existing faces
  = snd <$> fold_left setAssigned faces (fold_left setExisting existing []).
Proof. reflexivity. Qed.

(** What the first loop keeps. *)
Definition fromExisting (existing : list FaceTag) (m : list (string * FaceTag)) : Prop :=
  NoDup m.*1 ∧ byMemberId m
  ∧ (∀ k, k ∈ m.*1 ↔ ∃ t, t ∈ existing ∧ memberId t = k)
  ∧ ∀ p, p ∈ m → p.2 ∈ existing.

Lemma setExisting_inv (existing : list FaceTag) (t : FaceTag) (m : list (string * FaceTag)) :
  fromExisting existing m → fromExisting (existing ++ [t]) (setExisting m t).
Proof.
  intros (Hnd & Hby & Hkeys & Hvals). unfold setExisting.
  split; [|split; [|split]].
  - rewrite mapSet_fst. by apply setAdd_NoDup.
  - by apply mapSet_byMemberId.
  - intros k. rewrite mapSet_fst, setAdd_elem_of, Hkeys. split.
    + intros [(t' & Ht' & <-)| ->].
      * exists t'. split; [apply elem_of_app; by left|done].
      * exists t. split; [apply elem_of_app; right; by left|done].
    + intros (t' & Ht' & <-). apply elem_of_app in Ht' as [Ht'|Ht'].
      * left. by exists t'.
      * apply list_elem_of_singleton in Ht' as ->. by right.
  - intros p Hp. apply mapSet_elem_of in Hp as [Hp| ->].
    + apply elem_of_app. left. by apply Hvals.
    + apply elem_of_app. right. by left.
Qed.

Lemma fold_setExisting (existing : list FaceTag) :
  fromExisting existing (fold_left setExisting existing []).
Proof.
  induction existing as [|t existing IH] using rev_ind.
  - split; [constructor|]. split; [constructor|]. split.
    + intros k. split; [by intros H%elem_of_nil|]. by intros (t & H%elem_of_nil & _).
    + by intros p H%elem_of_nil.
  - rewrite fold_left_app. simpl. by apply setExisting_inv.
Qed.

(** A face that carries a usable assignment to [k]. *)
Definition assignedFace (k : string) (df : DetectedFaceData) : Prop :=
  assignedMemberId df = Some k ∧ k ≠ "".

(** What the second loop keeps. *)
Definition fromFaces (existing : list FaceTag) (faces : list DetectedFaceData)
    (m : list (string * FaceTag)) : Prop :=
  NoDup m.*1 ∧ byMemberId m
  ∧ (∀ k, k ∈ m.*1 ↔ (∃ t, t ∈ existing ∧ memberId t = k)
                      ∨ ∃ df, df ∈ faces ∧ assignedFace k df)
  ∧ ∀ p, p ∈ m →
         p.2 ∈ existing ∨ ∃ df, df ∈ faces ∧ assignedFace p.1 df ∧ p.2 = tagOfFace p.1 df.

Lemma setAssigned_inv (existing : list FaceTag) (faces : list DetectedFaceData)
    (df : DetectedFaceData) (m : list (string * FaceTag)) :
  fromFaces existing faces m → fromFaces existing (faces ++ [df]) (setAssigned m df).
Proof.
  intros (Hnd & Hby & Hkeys & Hvals).
  assert (Hskip : (∀ k, ¬ assignedFace k df) → fromFaces existing (faces ++ [df]) m).
  { intros Hno. split; [done|]. split; [done|]. split.
    - intros k. rewrite Hkeys. split.
      + intros [H|(f & Hf & Ha)]; [by left|right].
        exists f. split; [apply elem_of_app; by left|done].
      + intros [H|(f & Hf & Ha)]; [by left|].
        apply elem_of_app in Hf as [Hf|Hf]; [right; by exists f|].
        apply list_elem_of_singleton in Hf as ->. by destruct (Hno k).
    - intros p Hp. destruct (Hvals p Hp) as [H|(f & Hf & Ha)]; [by left|right].
      exists f. split; [apply elem_of_app; by left|done]. }
  unfold setAssigned. destruct (assignedMemberId df) as [a|] eqn:Ea.
  - destruct (truthy a) eqn:Et.
    + apply truthy_true in Et.
      split; [|split; [|split]].
      * rewrite mapSet_fst. by apply setAdd_NoDup.
      * by apply (mapSet_byMemberId (tagOfFace a df)).
      * intros k. rewrite mapSet_fst, setAdd_elem_of, Hkeys. split.
        -- intros [[H|(f & Hf & Ha)]| ->]; [by left|right|right].
           ++ exists f. split; [apply elem_of_app; by left|done].
           ++ exists df. split; [apply elem_of_app; right; by left|done].
        -- intros [H|(f & Hf & Ha)]; [left; by left|].
           apply elem_of_app in Hf as [Hf|Hf]; [left; right; by exists f|].
           apply list_elem_of_singleton in Hf as ->. right.
           destruct Ha as [Ha _]. congruence.
      * intros p Hp. apply mapSet_elem_of in Hp as [Hp| ->].
        -- destruct (Hvals p Hp) as [H|(f & Hf & Ha)]; [by left|right].
           exists f. split; [apply elem_of_app; by left|done].
        -- right. exists df. split; [apply elem_of_app; right; by left|done].
    + apply Hskip. intros k [Hk Hne]. assert (k = a) as -> by congruence.
      apply truthy_true in Hne. congruence.
  - apply Hskip. intros k [Hk _]. congruence.
Qed.

Lemma fold_setAssigned (existing : list FaceTag) (faces : list DetectedFaceData) :
  fromFaces existing faces (fold_left setAssigned faces (fold_left setExisting existing [])).
Proof.
  induction faces as [|df faces IH] using rev_ind.
  - destruct (fold_setExisting existing) as (Hnd & Hby & Hkeys & Hvals).
    split; [done|]. split; [done|]. split.
    + intros k. rewrite Hkeys. split; [by left|].
      intros [H|(f & H%elem_of_nil & _)]; done.
    + intros p Hp. left. by apply Hvals.
  - rewrite fold_left_app. simpl. by apply setAssigned_inv.
Qed.

Lemma applySuggestion_cases (idToName : gmap string string) (df : DetectedFaceData) :
  (isSet (assignedMemberId df) = true → applySuggestion idToName df = df)
  ∧ (isSet (assignedMemberId df) = false → isSet (suggestedMemberId df) = false →
     applySuggestion idToName df = df)
  ∧ (isSet (assignedMemberId df) = false → isSet (suggestedMemberId df) = true →
     ∃ s n, suggestedMemberId df = Some s ∧ s ≠ ""
            ∧ applySuggestion idToName df = assignTo s n df).
Proof.
  unfold applySuggestion.
  destruct (isSet (assignedMemberId df)); [by repeat split|].
  split; [done|]. unfold isSet.
  destruct (suggestedMemberId df) as [s|]; [|by repeat split].
  destruct (truthy s) eqn:Et; [|by repeat split].
  split; [done|]. intros _ _. eexists s, _.
  apply truthy_true in Et. by repeat split.
Qed.

(** X25. The tags [autoApplySuggestions] derives carry every member id
    once: the ids are those of the tags there were and those assigned to a
    face, and each tag is one of the tags there were or is made from a face
    assigned to its member, with that face's box.  The faces handed to it
    have been through [applySuggestion], which leaves an assigned face as it
    is and assigns a face without assignment to its suggested member, so
    every such member is tagged. *)
Theorem tagsFromFaces_one_per_member (idToName : gmap string string)
    (existing : list FaceTag) (faces : list DetectedFaceData) :
  let updated := applySuggestion idToName <$> faces in
  let tags := tagsFromFaces existing updated in
  NoDup (memberId <$> tags)
  ∧ (∀ k, k ∈ memberId <$> tags
          ↔ (∃ t, t ∈ existing ∧ memberId t = k) ∨ ∃ df, df ∈ updated ∧ assignedFace k df)
  ∧ (∀ t, t ∈ tags →
          t ∈ existing
          ∨ ∃ df, df ∈ updated ∧ assignedFace (memberId t) df ∧ box t = df_box df)
  ∧ Forall2 (fun df df' =>
               (isSet (assignedMemberId df) = true → df' = df)
               ∧ (isSet (assignedMemberId df) = false →
                  isSet (suggestedMemberId df) = false → df' = df)
               ∧ (isSet (assignedMemberId df) = false →
                  isSet (suggestedMemberId df) = true →
                  assignedMemberId df' = suggestedMemberId df
                  ∧ (∃ k, assignedFace k df' ∧ k ∈ memberId <$> tags)
                  ∧ df_id df' = df_id df ∧ df_box df' = df_box df
                  ∧ descriptorString df' = descriptorString df))
            faces updated.
Proof.
  intros updated tags.
  destruct (fold_setAssigned existing updated) as (Hnd & Hby & Hkeys & Hvals).
  assert (Hids : memberId <$> tags
                 = (fold_left setAssigned updated (fold_left setExisting existing [])).*1).
  { unfold tags. rewrite tagsFromFaces_loops. by apply byMemberId_ids. }
  assert (Hcover : ∀ k, k ∈ memberId <$> tags
          ↔ (∃ t, t ∈ existing ∧ memberId t = k) ∨ ∃ df, df ∈ updated ∧ assignedFace k df).
  { intros k. rewrite Hids. apply Hkeys. }
  split; [by rewrite Hids|]. split; [exact Hcover|]. split.
  - intros t Ht. unfold tags in Ht. rewrite tagsFromFaces_loops in Ht.
    apply list_elem_of_fmap in Ht as (p & -> & Hp).
    destruct (Hvals p Hp) as [H|(df & Hdf & Ha & Heq)]; [by left|right].
    exists df. split; [done|].
    assert (Hk : memberId p.2 = p.1).
    { unfold byMemberId in Hby. rewrite Forall_forall in Hby. by apply Hby. }
    rewrite Hk. split; [done|]. by rewrite Heq.
  - apply Forall2_fmap_r, Forall_Forall2_diag, Forall_forall. intros df Hdf.
    assert (Hin : applySuggestion idToName df ∈ updated).
    { apply list_elem_of_fmap. by exists df. }
    unfold compose.
    destruct (applySuggestion_cases idToName df) as (H1 & H2 & H3).
    split; [exact H1|]. split; [exact H2|]. intros Ha Hs.
    destruct (H3 Ha Hs) as (k & n & Hk & Hne & Heq).
    rewrite Heq in *. split; [by rewrite Hk|]. split; [|done].
    exists k. assert (Hface : assignedFace k (assignTo k n df)) by (by split).
    split; [exact Hface|]. apply Hcover. right. eexists. split; [exact Hin|exact Hface].
Qed.

Ltac run_handler :=
  unfold FaceRecognition.getFamilyMembers, FaceRecognition.getDocs_family,
    updatePhotoDetectedFaces, handleUpdateFaceTags, updatePhotoFaceTags, updateDoc_photo;
  unfold tryCatch, throw, remote, mbind, mret, io_bind, io_ret.

(** X26. [autoApplySuggestions] on a photo with detected faces.  When
    every round trip goes through, panel and store hold the same derived
    faces and tags.  When the write of the detected faces fails the handler
    rejects and nothing changes.  When only the write of the tags fails the
    handler resolves and the panel shows the derived tags, while the stored
    photo keeps the tags it had. *)
Theorem autoApplySuggestions_outcomes (localeCompare : string → string → Z)
    (openTagger : Panel → io Panel) (st : Panel) (w : World)
    (active stored : StoredPhoto) (e : error) :
  activePhoto st = Some active →
  default [] (detectedFaces active) ≠ [] →
  photoDocs w !! id active = Some stored →
  let updated :=
    applySuggestion (idToNameOf (FaceFacts.membersOf localeCompare w))
      <$> default [] (detectedFaces active) in
  let tags := tagsFromFaces (faceTags active) updated in
  let shown := with_faceTags tags (with_detectedFaces updated active) in
  (pending w = [] →
   ∃ w' st',
     autoApplySuggestions localeCompare openTagger st w = (w', Ok st')
     ∧ activePhoto st' = Some shown
     ∧ photoDocs w' !! id active
       = Some (with_faceTags tags (with_detectedFaces updated stored)))
  ∧ (pending w = [None; Some e] →
     autoApplySuggestions localeCompare openTagger st w = (with_pending [] w, Err e))
  ∧ (pending w = [None; None; Some e] →
     ∃ w' st',
       autoApplySuggestions localeCompare openTagger st w = (w', Ok st')
       ∧ activePhoto st' = Some shown
       ∧ photoDocs w' !! id active = Some (with_detectedFaces updated stored)
       ∧ faceTags (with_detectedFaces updated stored) = faceTags stored).
Proof.
  intros Hactive Hfaces Hstored updated tags shown.
  assert (Hlen : (length (default [] (detectedFaces active)) =? 0)%nat = false).
  { destruct (default [] (detectedFaces active)); [done|reflexivity]. }
  set (f1 := fun p => if String.eqb (id p) (id active) then with_faceTags tags p else p).
  set (f3 := fun p => if String.eqb (id p) (id active)
                      then with_faceTags tags (with_detectedFaces updated p) else p).
  assert (Hid1 : ∀ p, id (f1 p) = id p)
    by (intros p; unfold f1; by destruct (String.eqb _ _)).
  assert (Hid3 : ∀ p, id (f3 p) = id p)
    by (intros p; unfold f3; by destruct (String.eqb _ _)).
  assert (Hshown1 : activePhoto (setPhotos (fmap f3) (setPhotos (fmap f1) st)) = Some shown).
  { rewrite !activePhoto_setPhotos, Hactive by done. simpl.
    unfold f3, f1. rewrite String.eqb_refl. simpl. by rewrite String.eqb_refl. }
  assert (Hshown0 : activePhoto (setPhotos (fmap f3) st) = Some shown).
  { rewrite activePhoto_setPhotos, Hactive by done. simpl.
    unfold f3. by rewrite String.eqb_refl. }
  assert (Hv1 : ∀ fs, validDocument
                        (sanitizeForFirestore
                           (VObject [("detectedFaces", detectedFacesValue fs)])) = true)
    by (intros fs; apply detectedFaces_payload_valid).
  assert (Hv2 : ∀ ts, validDocument
                        (sanitizeForFirestore
                           (VObject [("faceTags", faceTagsValue ts)])) = true)
    by (intros ts; apply faceTags_payload_valid).
  split; [|split]; intros Hpend.
  - unfold autoApplySuggestions. rewrite Hactive, Hlen. run_handler.
    rewrite Hpend. cbn [pending familyDocs]. rewrite Hpend, Hv1, Hstored.
    cbn [pending with_photoDocs photoDocs]. rewrite Hpend, Hv2, lookup_insert_eq.
    eexists _, _. split; [reflexivity|].
    split; [exact Hshown1|]. cbn [photoDocs with_photoDocs].
    by rewrite lookup_insert_eq.
  - unfold autoApplySuggestions. rewrite Hactive, Hlen. run_handler.
    rewrite Hpend. by cbn [pending with_pending familyDocs].
  - unfold autoApplySuggestions. rewrite Hactive, Hlen. run_handler.
    rewrite Hpend. cbn [pending with_pending familyDocs photoDocs].
    rewrite Hv1, Hstored. cbn [pending with_pending with_photoDocs photoDocs].
    eexists _, _. split; [reflexivity|].
    split; [exact Hshown0|]. cbn [photoDocs with_photoDocs with_pending].
    by rewrite lookup_insert_eq.
Qed.

End PanelMoreFacts.

(** ** Converting uploads *)

Module ConvertFacts.

Import CountryPanel.








(** The product is rounded as a double before [Math.round] sees it: for
    an image of 2384 by 1043 the exact product is 962.50..., the double
    is below 962.5, and the canvas is 2200 by 962. *)
Lemma scaledSide_rounds_double :
  scaledSide 2384 2384 = 2200 ∧ scaledSide 1043 2384 = 962
  ∧ Math_round (1043 * (2200 / 2384))%Q = 963.
Proof. repeat split; vm_compute; reflexivity. Qed.

Section Browser.

Variable heic2any : File → result (option (list Byte.byte)).
Variable decodeImage : File → result (Z * Z).
Variable getContext2d : bool.
Variable toJpegBlob : File → Z → Z → result (list Byte.byte).


End Browser.

End ConvertFacts.

(** ** [src/pages/Index.tsx], [src/components/CountryList.tsx] and
    [src/components/FamilyManager.tsx] *)

Module Pages.

Import TripsData TripsHook PanelHandlers.

(** [xs.findIndex(f)]: [-1] when no element passes. *)
Fixpoint findIndex {A} (f : A -> bool) (xs : list A) : Z :=
  match xs with
  | [] => -1
  | x :: xs' =>
      if f x then 0 else
      let i := findIndex f xs' in
      if i =? -1 then -1 else i + 1
  end.

Inductive Direction := Prev | Next.

(** [handleNavigate]: the selected code after the call; reading [.iso2]
    of a missing element would throw. *)
Definition handleNavigate (visitedCountries : list TripData) (selectedIso : option string)
    (direction : Direction) : result (option string) :=
  match selectedIso with
  | None => Ok selectedIso
  | Some sel =>
      if negb (truthy sel) then Ok selectedIso else
      let currentIndex := findIndex (fun c => String.eqb (iso2 c) sel) visitedCountries in
      if currentIndex =? -1 then Ok selectedIso else
      let newIndex :=
        match direction with
        | Prev => Z.max 0 (currentIndex - 1)
        | Next => Z.min (Z.of_nat (length visitedCountries) - 1) (currentIndex + 1)
        end in
      if newIndex <? 0 then Err "TypeError" else
      match visitedCountries !! Z.to_nat newIndex with
      | Some c => Ok (Some (iso2 c))
      | None => Err "TypeError"
      end
  end.

(** [addOptions] of the country list; [matchesQuery c] is
    [ruCountryName(c.iso2, c.name).toLowerCase().includes(addQuery.toLowerCase())]. *)
Definition addOptions (upper : string -> string) (matchesQuery : Country -> bool)
    (countries : list TripData) : list Country :=
  let visited := setOf ((fun c => toUpperCase upper (iso2 c)) <$> countries) in
  take 50
    (List.filter matchesQuery
       (List.filter (fun c => negb (bool_decide (c_iso2 c ∈ visited))) ALL_COUNTRIES)).

(** [if (id) idsInPhoto.add(id)] *)
Definition addId (ids : list string) (i : option string) : list string :=
  match i with
  | Some a => if truthy a then setAdd ids a else ids
  | None => ids
  end.

(** [idsInPhoto] of the family manager: the members assigned to a detected
    face of the photo, then those tagged on it. *)
Definition idsInPhoto (p : StoredPhoto) : list string :=
  let fromFaces :=
    fold_left (fun ids f => addId ids (assignedMemberId f))
              (default [] (detectedFaces p)) [] in
  fold_left (fun ids t => addId ids (Some (memberId t))) (faceTags p) fromFaces.

(** The loop over [idsInPhoto]: [counts[id] = (counts[id] || 0) + 1] on
    the plain object [counts], then [photosByMember[id].push(p)], which
    throws for an id that is a property name of [Object.prototype]: what
    is read under it is not falsy and has no [push]. *)
Fixpoint countIds (ids : list string) (counts : properties) : result properties :=
  match ids with
  | [] => Ok counts
  | i :: ids' =>
      let counts' := increment counts i in
      if isInherited i then Err "TypeError: photosByMember[id].push is not a function"
      else countIds ids' counts'
  end.

(** The loop over [photos]. *)
Fixpoint countPhotos (photos : list StoredPhoto) (counts : properties)
  : result properties :=
  match photos with
  | [] => Ok counts
  | p :: photos' =>
      counts' ← countIds (idsInPhoto p) counts;
      countPhotos photos' counts'
  end.

(** The state [appearances] after the effect: [counts], or [{}] from
    [.catch(() => setAppearances({}))] when the loop throws. *)
Definition appearancesOf (photos : list StoredPhoto) : properties :=
  match countPhotos photos [] with
  | Ok counts => counts
  | Err _ => []
  end.

(** [appearances[member.id] || 0] *)
Definition appearances (photos : list StoredPhoto) (member : string) : held :=
  getOrZero (appearancesOf photos) member.

End Pages.

Module PagesFacts.

Import TripsData TripsFacts TripsHook TripsHookFacts PanelHandlers Pages JsFacts.

Lemma findIndex_found {A} (f : A → bool) (xs : list A) :
  findIndex f xs = -1
  ∨ (0 <= findIndex f xs < Z.of_nat (length xs)
     ∧ ∃ x, xs !! Z.to_nat (findIndex f xs) = Some x ∧ f x = true).
Proof.
  induction xs as [|x xs IH]; [by left|]. cbn [findIndex].
  destruct (f x) eqn:Ef.
  - right. split; [simpl; lia|]. by exists x.
  - destruct IH as [->|(Hrange & y & Hy & Hfy)]; [by left|].
    destruct (Z.eqb_spec (findIndex f xs) (-1)) as [E|_]; [lia|].
    right. split; [simpl length; lia|]. exists y. split; [|done].
    replace (Z.to_nat (findIndex f xs + 1)) with (S (Z.to_nat (findIndex f xs))) by lia.
    done.
Qed.

(** X28. [handleNavigate] never reads past the ends of the list, so it
    never throws: without a selection, or with a selection that is not the
    code of a listed country, the selection stays as it is, and otherwise
    the new selection is the code of a listed country; going back from the
    first country keeps the selection. *)
Theorem handleNavigate_in_range (visitedCountries : list TripData)
    (selectedIso : option string) (direction : Direction) :
  ∃ out,
    handleNavigate visitedCountries selectedIso direction = Ok out
    ∧ (selectedIso = None → out = None)
    ∧ (∀ sel, selectedIso = Some sel →
         (∀ c, c ∈ visitedCountries → iso2 c ≠ sel) → out = Some sel)
    ∧ (∀ sel, selectedIso = Some sel → sel ≠ "" →
         (∃ c, c ∈ visitedCountries ∧ iso2 c = sel) →
         ∃ c', c' ∈ visitedCountries ∧ out = Some (iso2 c'))
    ∧ (∀ c rest, visitedCountries = c :: rest → selectedIso = Some (iso2 c) →
         direction = Prev → out = selectedIso).
Proof.
  unfold handleNavigate. destruct selectedIso as [sel|]; [|by eexists].
  destruct (truthy sel) eqn:Et; simpl.
  2:{ eexists. split; [done|]. split; [done|]. split; [done|]. split; [|done].
      intros s [= <-] Hne. apply truthy_true in Hne. congruence. }
  set (f := fun c => String.eqb (iso2 c) sel).
  destruct (findIndex_found f visitedCountries) as [Hnone|(Hrange & x & Hx & Hfx)].
  - rewrite Hnone. simpl. eexists. split; [done|]. split; [done|]. split; [done|]. split.
    + intros s [= <-] _ (c & Hc & Hiso).
      assert (Hfind : ∀ l, findIndex f l = -1 → ∀ c, c ∈ l → f c = false).
      { induction l as [|a l IH]; [by intros _ c' H%elem_of_nil|].
        cbn [findIndex]. destruct (f a) eqn:Efa; [done|].
        destruct (Z.eqb_spec (findIndex f l) (-1)) as [E|E];
          [|intros H; destruct (findIndex_found f l) as [?|[? _]]; lia].
        intros _ c' Hc'. apply elem_of_cons in Hc' as [->|Hc']; [done|]. by apply IH. }
      specialize (Hfind _ Hnone c Hc). unfold f in Hfind.
      rewrite Hiso, String.eqb_refl in Hfind. done.
    + done.
  - destruct (Z.eqb_spec (findIndex f visitedCountries) (-1)) as [E|_]; [lia|].
    set (newIndex := match direction with
                     | Prev => Z.max 0 (findIndex f visitedCountries - 1)
                     | Next => Z.min (Z.of_nat (length visitedCountries) - 1)
                                     (findIndex f visitedCountries + 1)
                     end).
    assert (Hnew : 0 <= newIndex < Z.of_nat (length visitedCountries))
      by (unfold newIndex; destruct direction; lia).
    destruct (Z.ltb_spec newIndex 0) as [Hneg|_]; [lia|].
    destruct (lookup_lt_is_Some_2 visitedCountries (Z.to_nat newIndex)) as [c' Hc'];
      [lia|].
    rewrite Hc'. eexists. split; [done|]. split; [done|]. split; [|split].
    + intros s [= <-] Hno. exfalso.
      apply (Hno x); [by eapply list_elem_of_lookup_2|].
      unfold f in Hfx. by apply String.eqb_eq.
    + intros s [= <-] _ _. exists c'. split; [by eapply list_elem_of_lookup_2|done].
    + intros c rest Hlist [= Hsel] ->. subst visitedCountries.
      unfold newIndex in Hc'. cbn [findIndex] in Hc'.
      unfold f in Hc' at 1. rewrite Hsel, String.eqb_refl in Hc'.
      simpl in Hc'. injection Hc' as <-. by rewrite Hsel.
Qed.

Definition sameCountry (a b : Country) : bool :=
  String.eqb (c_name a) (c_name b) && String.eqb (c_iso2 a) (c_iso2 b)
  && String.eqb (c_continent a) (c_continent b).

Lemma sameCountry_eq (a b : Country) : sameCountry a b = true → a = b.
Proof.
  unfold sameCountry. rewrite !andb_true_iff, !String.eqb_eq.
  destruct a, b. simpl. by intros [[-> ->] ->].
Qed.

Section CaseMapping.

Variable upper : string → string.

(** The table holds every code once, in normalized form. *)
Lemma known_codes_normal (c : Country) :
  c ∈ ALL_COUNTRIES →
  List.find (fun c' => String.eqb (c_iso2 c') (normalizeIso2 upper (c_iso2 c))) ALL_COUNTRIES
  = Some c.
Proof.
  intros Hc.
  assert (Hall : forallb
                   (fun c => match List.find
                                     (fun c' => String.eqb (c_iso2 c')
                                                           (normalizeIso2 upper (c_iso2 c)))
                                     ALL_COUNTRIES with
                             | Some c' => sameCountry c' c
                             | None => false
                             end) ALL_COUNTRIES = true)
    by (vm_compute; reflexivity).
  rewrite forallb_forall in Hall. apply list_elem_of_In in Hc.
  specialize (Hall c Hc). cbv beta in Hall.
  destruct (List.find _ ALL_COUNTRIES) as [c'|]; [|done].
  by rewrite (sameCountry_eq c' c Hall).
Qed.

Lemma addOptions_elem_of (matchesQuery : Country → bool) (countries : list TripData)
    (c : Country) :
  c ∈ addOptions upper matchesQuery countries →
  c ∈ ALL_COUNTRIES ∧ matchesQuery c = true
  ∧ ∀ t, t ∈ countries → toUpperCase upper (iso2 t) ≠ c_iso2 c.
Proof.
  unfold addOptions. intros Hc.
  apply elem_of_take in Hc as (i & Hi & _). apply list_elem_of_lookup_2 in Hi.
  apply list_elem_of_In, filter_In in Hi as [Hi Hq].
  apply filter_In in Hi as [Hin Hnew].
  apply negb_true_iff, bool_decide_eq_false in Hnew.
  split; [by apply list_elem_of_In|]. split; [exact Hq|].
  intros t Ht Heq. apply Hnew. unfold setOf.
  apply fold_setAdd_elem_of. right. apply list_elem_of_fmap. by exists t.
Qed.

Lemma addOptions_length (matchesQuery : Country → bool) (countries : list TripData) :
  (length (addOptions upper matchesQuery countries) <= 50)%nat.
Proof. unfold addOptions. rewrite length_take. apply Nat.le_min_l. Qed.

(** X29. Every country the add dialog offers is a country of the table
    that passes the query and whose code is not the upper-cased code of a
    visited trip, and at most fifty are offered.  When no visited trip
    carries white space around its code, [addCountry] accepts the code of
    every offered country: it adds one trip, with that country's name. *)
Theorem addOptions_accepted (localeCompare : string → string → Z)
    (matchesQuery : Country → bool) (d : TripsJson) (c : Country) :
  c ∈ addOptions upper matchesQuery (visited d) →
  (c ∈ ALL_COUNTRIES ∧ matchesQuery c = true
   ∧ (∀ t, t ∈ visited d → toUpperCase upper (iso2 t) ≠ c_iso2 c)
   ∧ (length (addOptions upper matchesQuery (visited d)) <= 50)%nat)
  ∧ (Forall (fun t => trim (iso2 t) = iso2 t) (visited d) →
     ∃ d', addCountry upper localeCompare (Some d) (c_iso2 c) = Some d'
           ∧ length (visited d') = S (length (visited d))
           ∧ freshTrip c ∈ visited d').
Proof.
  intros Hc.
  destruct (addOptions_elem_of matchesQuery (visited d) c Hc) as (Hin & Hq & Hfresh).
  split; [split; [exact Hin|]; split; [exact Hq|]; split;
          [exact Hfresh|apply addOptions_length]|].
  intros Hclean.
  pose proof (known_codes_normal c Hin) as Hknown.
  assert (Hn : normalizeIso2 upper (c_iso2 c) = c_iso2 c).
  { apply find_some in Hknown as [_ H]. apply String.eqb_eq in H. done. }
  assert (Hex : existsb (fun t => String.eqb (normalizeIso2 upper (iso2 t))
                                             (normalizeIso2 upper (c_iso2 c))) (visited d) = false).
  { apply not_true_iff_false. intros H. apply existsb_exists in H as (t & Ht & Heq).
    apply String.eqb_eq in Heq. apply list_elem_of_In in Ht.
    rewrite Forall_forall in Hclean. specialize (Hclean t Ht).
    apply (Hfresh t Ht). rewrite <- Hn, <- Heq. unfold normalizeIso2. by rewrite Hclean. }
  destruct (addCountry_new upper localeCompare d (c_iso2 c) c Hex Hknown) as (Hadd & _ & _).
  rewrite Hadd. eexists. split; [reflexivity|]. rewrite !visited_with_visited. split.
  - rewrite sortBy_length, length_app. simpl. lia.
  - apply sortBy_elem_of, elem_of_app. right. left.
Qed.

End CaseMapping.

Lemma addId_elem_of (ids : list string) (i : option string) (k : string) :
  k ∈ addId ids i ↔ k ∈ ids ∨ (i = Some k ∧ k ≠ "").
Proof.
  unfold addId. destruct i as [a|].
  - destruct (truthy a) eqn:Et.
    + apply truthy_true in Et. rewrite setAdd_elem_of. split.
      * intros [H| ->]; [by left|by right].
      * intros [H|[[= ->] _]]; [by left|by right].
    + split; [by left|]. intros [H|[[= ->] Hne]]; [done|].
      apply truthy_true in Hne. congruence.
  - split; [by left|]. by intros [H|[[=] _]].
Qed.

Lemma addId_NoDup (ids : list string) (i : option string) : NoDup ids → NoDup (addId ids i).
Proof.
  unfold addId. destruct i as [a|]; [|done]. destruct (truthy a); [|done].
  apply setAdd_NoDup.
Qed.

Lemma fold_addId {A} (g : A → option string) (xs : list A) (ids : list string) :
  (NoDup ids → NoDup (fold_left (fun ids x => addId ids (g x)) xs ids))
  ∧ ∀ k, k ∈ fold_left (fun ids x => addId ids (g x)) xs ids
         ↔ k ∈ ids ∨ (k ≠ "" ∧ ∃ x, x ∈ xs ∧ g x = Some k).
Proof.
  revert ids. induction xs as [|x xs IH]; intros ids; simpl.
  - split; [done|]. intros k. split; [by left|].
    intros [H|(_ & x & H%elem_of_nil & _)]; done.
  - destruct (IH (addId ids (g x))) as [IHnd IHin]. split.
    + intros Hnd. by apply IHnd, addId_NoDup.
    + intros k. rewrite IHin, addId_elem_of. split.
      * intros [[H|[Hg Hne]]|(Hne & y & Hy & Hg)]; [by left|right|right].
        -- split; [done|]. exists x. split; [by left|done].
        -- split; [done|]. exists y. split; [by right|done].
      * intros [H|(Hne & y & Hy & Hg)]; [left; by left|].
        apply elem_of_cons in Hy as [->|Hy]; [left; by right|].
        right. split; [done|]. by exists y.
Qed.

(** Member [k] is named on photo [p]: a detected face is assigned to it
    or a tag carries it. *)
Definition namedOn (k : string) (p : StoredPhoto) : bool :=
  truthy k
  && (existsb (fun f => bool_decide (assignedMemberId f = Some k))
              (default [] (detectedFaces p))
      || existsb (fun t => String.eqb (memberId t) k) (faceTags p)).

Lemma idsInPhoto_spec (p : StoredPhoto) :
  NoDup (idsInPhoto p) ∧ ∀ k, k ∈ idsInPhoto p ↔ namedOn k p = true.
Proof.
  unfold idsInPhoto, namedOn.
  destruct (fold_addId assignedMemberId (default [] (detectedFaces p)) []) as [Hnd1 Hin1].
  destruct (fold_addId (fun t => Some (memberId t)) (faceTags p)
              (fold_left (fun ids f => addId ids (assignedMemberId f))
                         (default [] (detectedFaces p)) [])) as [Hnd2 Hin2].
  split; [apply Hnd2, Hnd1, NoDup_nil_2|].
  intros k. rewrite Hin2, Hin1.
  rewrite andb_true_iff, orb_true_iff, truthy_true, !existsb_exists. split.
  - intros [[H%elem_of_nil|(Hne & f & Hf & Hg)]|(Hne & t & Ht & [= Hg])]; [done| |].
    + split; [done|]. left. exists f. split; [by apply list_elem_of_In|].
      by apply bool_decide_eq_true.
    + split; [done|]. right. exists t. split; [by apply list_elem_of_In|].
      by apply String.eqb_eq.
  - intros (Hne & [(f & Hf & Hg)|(t & Ht & Hg)]).
    + left. right. split; [done|]. exists f. split; [by apply list_elem_of_In|].
      by apply bool_decide_eq_true in Hg.
    + right. split; [done|]. exists t. split; [by apply list_elem_of_In|].
      apply String.eqb_eq in Hg. by rewrite Hg.
Qed.

(** Counting the ids of one photo: under a key that [Object.prototype]
    does not have, the number grows by one when the id is among them. *)
Lemma fold_increment_getOwn (ids : list string) (o : properties) (k : string) :
  isInherited k = false → NoDup ids →
  (∀ origin ones, getOwn o k ≠ Some (Text origin ones)) →
  getOwn (fold_left increment ids o) k
  = if bool_decide (k ∈ ids)
    then Some (Num (match getOwn o k with Some (Num n) => n | _ => 0 end + 1))
    else getOwn o k.
Proof.
  intros Hk. revert o. induction ids as [|i ids IH]; intros o Hnd Ho; [done|].
  cbn [fold_left]. apply NoDup_cons in Hnd as [Hi Hnd].
  destruct (String.eqb_spec i k) as [->|Hne].
  - pose proof (getOwn_increment_number o k Hk) as Hinc.
    rewrite IH; [|done|].
    + rewrite (bool_decide_eq_false_2 (k ∈ ids)) by done.
      rewrite bool_decide_eq_true_2 by left.
      destruct (getOwn o k) as [[n|origin ones]|]; [done| |done].
      by destruct (Ho origin ones).
    + intros origin ones.
      destruct (getOwn o k) as [[n|origin' ones']|]; [by rewrite Hinc| |by rewrite Hinc].
      by destruct (Ho origin' ones').
  - rewrite IH; [|done|].
    + rewrite (getOwn_increment_other o i k Hne).
      case_bool_decide as Hin.
      * by rewrite bool_decide_eq_true_2 by (by right).
      * rewrite bool_decide_eq_false_2; [done|].
        intros H. apply elem_of_cons in H as [->|H]; done.
    + intros origin ones. rewrite (getOwn_increment_other o i k Hne). apply Ho.
Qed.

Lemma countIds_ordinary (ids : list string) (counts : properties) :
  forallb (fun i => negb (isInherited i)) ids = true →
  countIds ids counts = Ok (fold_left increment ids counts).
Proof.
  revert counts. induction ids as [|i ids IH]; intros counts; [done|].
  cbn [forallb countIds fold_left]. intros [Hi Hids]%andb_true_iff.
  apply negb_true_iff in Hi. rewrite Hi. by apply IH.
Qed.

Lemma countIds_inherited (ids : list string) (counts : properties) :
  forallb (fun i => negb (isInherited i)) ids = false →
  ∃ e, countIds ids counts = Err e.
Proof.
  revert counts. induction ids as [|i ids IH]; intros counts; [done|].
  cbn [forallb countIds]. destruct (isInherited i); cbn [negb andb]; [by eexists|].
  apply IH.
Qed.

(** No id named on a photo is a property name of [Object.prototype]. *)
Definition ordinaryIds (photos : list StoredPhoto) : bool :=
  forallb (fun p => forallb (fun i => negb (isInherited i)) (idsInPhoto p)) photos.

Lemma countPhotos_ordinary (photos : list StoredPhoto) (counts : properties) :
  ordinaryIds photos = true →
  countPhotos photos counts
  = Ok (fold_left (fun counts p => fold_left increment (idsInPhoto p) counts)
                  photos counts).
Proof.
  unfold ordinaryIds. revert counts.
  induction photos as [|p photos IH]; intros counts; [done|].
  cbn [forallb countPhotos fold_left]. intros [Hp Hphotos]%andb_true_iff.
  rewrite (countIds_ordinary _ _ Hp). cbn [mbind result_bind Js.bind]. by apply IH.
Qed.

Lemma countPhotos_inherited (photos : list StoredPhoto) (counts : properties) :
  ordinaryIds photos = false → ∃ e, countPhotos photos counts = Err e.
Proof.
  unfold ordinaryIds. revert counts.
  induction photos as [|p photos IH]; intros counts; [done|].
  cbn [forallb countPhotos].
  destruct (forallb (fun i => negb (isInherited i)) (idsInPhoto p)) eqn:Ep.
  - rewrite (countIds_ordinary _ _ Ep). cbn [andb mbind result_bind Js.bind]. apply IH.
  - intros _. destruct (countIds_inherited _ counts Ep) as [e ->]. by eexists.
Qed.

(** The number of photos of a list on which member [k] is named. *)
Definition photosNaming (k : string) (photos : list StoredPhoto) : Z :=
  Z.of_nat (length (List.filter (fun p => bool_decide (k ∈ idsInPhoto p)) photos)).

Lemma counts_getOwn (photos : list StoredPhoto) (k : string) :
  isInherited k = false →
  getOwn (fold_left (fun counts p => fold_left increment (idsInPhoto p) counts) photos [])
         k
  = if photosNaming k photos =? 0 then None else Some (Num (photosNaming k photos)).
Proof.
  intros Hk. unfold photosNaming.
  induction photos as [|p photos IH] using rev_ind; [done|].
  rewrite fold_left_app. cbn [fold_left].
  rewrite fold_increment_getOwn; [|done|apply idsInPhoto_spec|].
  - rewrite List.filter_app, length_app. cbn [List.filter]. rewrite IH.
    set (n := length (List.filter _ photos)).
    case_bool_decide; cbn [length].
    + destruct (Z.eqb_spec (Z.of_nat n) 0) as [E|E];
        destruct (Z.eqb_spec (Z.of_nat (n + 1)) 0); try lia; do 2 f_equal; lia.
    + by rewrite Nat.add_0_r.
  - intros origin ones. rewrite IH. by destruct (_ =? 0).
Qed.

(** X30. The family manager counts a member once for every photo on
    which it is named, however many faces and tags of the photo name it: a
    photo names a member when one of its detected faces is assigned to the
    member or one of its tags carries the member's id, the id not being
    empty.  A member named on no photo is shown with 0.  This is so for
    every id that is not a property name of [Object.prototype], as the ids
    [family-<time>-<random>] of enrolled members are, and as long as no
    photo names such a property name: if one does, the counting throws and
    every member is shown with 0. *)
Theorem appearances_by_photo (photos : list StoredPhoto) (member : string) :
  isInherited member = false →
  appearances photos member
  = HeldNumber (if ordinaryIds photos
                then Z.of_nat (length (List.filter (namedOn member) photos))
                else 0)
  ∧ (∀ p, NoDup (idsInPhoto p) ∧ ∀ k, k ∈ idsInPhoto p ↔ namedOn k p = true)
  ∧ (∀ t_id rnd, isInherited (FaceRecognition.familyId t_id rnd) = false).
Proof.
  intros Hmember. split; [|split; [apply idsInPhoto_spec|done]].
  unfold appearances, appearancesOf, getOrZero.
  destruct (ordinaryIds photos) eqn:Eids.
  - rewrite (countPhotos_ordinary photos [] Eids).
    assert (Hsame : List.filter (namedOn member) photos
                    = List.filter (fun p => bool_decide (member ∈ idsInPhoto p)) photos).
    { apply filter_ext. intros p. destruct (idsInPhoto_spec p) as [_ Hin].
      destruct (namedOn member p) eqn:E; symmetry.
      - apply bool_decide_eq_true, Hin, E.
      - apply bool_decide_eq_false. intros H. apply Hin in H. congruence. }
    rewrite Hsame. fold (photosNaming member photos).
    rewrite (counts_getOwn photos member Hmember), Hmember.
    by destruct (Z.eqb_spec (photosNaming member photos) 0) as [->|].
  - destruct (countPhotos_inherited photos [] Eids) as [e ->].
    cbn [getOwn List.find fmap option_fmap option_map]. by rewrite Hmember.
Qed.

End PagesFacts.

(** ** More concrete runs *)

Module MoreExamples.

Import TripsData TripsFacts TripsHook TripsHookFacts.
Import StorageFacts StorageMoreFacts FaceRecognition FaceFacts FamilyStore FamilyFacts.
Import Examples.

Definition france : Country :=
  {| c_name := "France"; c_iso2 := "FR"; c_continent := "Europe" |}.

Lemma france_known : france ∈ ALL_COUNTRIES.
Proof. do 21 right. left. Qed.

Lemma addCountry_then_getTripByIso_witness :
  ∃ t, getTripByIso unmapped (addCountry unmapped codeUnitCompare (Some lisbonTrips) " fr ")
                    " fr " = Some t
       ∧ TripsData.normalizeIso2 unmapped (iso2 t) = "FR".
Proof.
  apply (addCountry_then_getTripByIso unmapped codeUnitCompare lisbonTrips " fr ").
  exists france. split; [exact france_known|reflexivity].
Defined.

Lemma addCountry_then_removeCountry_witness :
  ∃ d', removeCountry unmapped (addCountry unmapped codeUnitCompare (Some lisbonTrips) "fr")
                      "fr" = Some d'
        ∧ Permutation (visited d') (visited lisbonTrips).
Proof.
  destruct (addCountry_then_removeCountry unmapped codeUnitCompare lisbonTrips "fr")
    as (d' & Hrun & Hperm & _).
  - intros (t & Ht & Hn). apply list_elem_of_singleton in Ht as ->. discriminate.
  - exists d'. split; [exact Hrun|exact Hperm].
Defined.

Definition sunny : TripUpdates :=
  {| u_countryName := None; u_iso2 := None; u_continent := None; u_year := None;
     u_cities := None; u_notes := Some "sunny"; u_photos := None; u_isHome := None |}.

Lemma updateTrip_then_getTripByIso_witness :
  notes <$> getTripByIso unmapped (updateTrip unmapped (Some lisbonTrips) "pt" sunny) "pt"
  = Some "sunny".
Proof.
  destruct (updateTrip_then_getTripByIso unmapped lisbonTrips "pt" sunny eq_refl)
    as (Hseen & _).
  rewrite Hseen. reflexivity.
Defined.

Lemma refresh_failure_clears_witness :
  PreviewsHook.refresh unmapped offlineWorld = (with_pending [] offlineWorld, Ok ∅).
Proof.
  apply (PreviewsHookFacts.refresh_failure_clears unmapped offlineWorld "unavailable" []).
  reflexivity.
Defined.

Lemma getPhotosForCountry_exact_sorted_witness :
  ∃ ps, getPhotosForCountry "FR" parisWorld = (parisWorld, Ok ps) ∧ paris ∈ ps.
Proof.
  destruct (getPhotosForCountry_exact_sorted "FR" parisWorld eq_refl)
    as (ps & Hrun & _ & Hin).
  exists ps. split; [exact Hrun|]. apply Hin. exists (id paris).
  split; [|reflexivity]. unfold parisWorld. cbn [photoDocs]. apply lookup_singleton_eq.
Defined.

Definition lyonFile : File :=
  {| file_name := "lyon.jpg"; file_type := "image/jpeg"; file_bytes := [] |}.

Lemma savePhoto_then_queries_witness :
  ∃ w' p, savePhoto 1700000000200 "q1w2e3r4t" 1700000000201 "FR" lyonFile "" [] []
                    parisWorld = (w', Ok p)
          ∧ photoDocs w' !! id p = Some p
          ∧ ∃ ps, getPhotosForCountry "FR" w' = (w', Ok ps) ∧ p ∈ ps.
Proof.
  destruct (savePhoto_then_queries 1700000000200 "q1w2e3r4t" 1700000000201 "FR" lyonFile
              "" [] [] parisWorld eq_refl) as (w' & Hrun & Hdocs & _ & Hlisted & _).
  exists w', (newPhoto 1700000000200 "q1w2e3r4t" 1700000000201 "FR" lyonFile "" [] []
                parisWorld).
  split; [exact Hrun|]. split; [|exact Hlisted].
  rewrite Hdocs. apply lookup_insert_eq.
Defined.

(** [dad], the only member, is recognised on his own descriptor. *)
Lemma dad_recognised :
  matchFaces codeUnitCompare parseKnown froundExact meanSquaredDistance
             [detection [1%Qc; 0%Qc]] (familyWorld (fm_id dad) dad)
  = (familyWorld (fm_id dad) dad, Ok [matchedWith dad (detection [1%Qc; 0%Qc])]).
Proof.
  rewrite (matchFaces_run parseKnown froundExact codeUnitCompare meanSquaredDistance
             [detection [1%Qc; 0%Qc]] (familyWorld (fm_id dad) dad) eq_refl).
  rewrite (membersOf_singleton codeUnitCompare (familyWorld (fm_id dad) dad)
             (fm_id dad) dad eq_refl).
  replace (trainingOf parseKnown (familyWorld (fm_id dad) dad)) with
    (@nil (string * Descriptor)) by reflexivity.
  rewrite (labeledDescriptorsOf_enrolled parseKnown froundExact dad [1%Qc; 0%Qc] eq_refl).
  cbn [length Nat.eqb mbind result_bind Js.bind mapM].
  rewrite (matchOne_enrolled meanSquaredDistance dad [1%Qc; 0%Qc]
             (detection [1%Qc; 0%Qc]) meanSquaredDistance_self);
    [reflexivity|discriminate|reflexivity].
Qed.

Lemma matchFaces_keeps_faces_witness :
  Forall2 (matchedFrom (familyWorld (fm_id dad) dad))
          [detection [1%Qc; 0%Qc]] [matchedWith dad (detection [1%Qc; 0%Qc])].
Proof.
  apply (matchFaces_keeps_faces parseKnown froundExact codeUnitCompare meanSquaredDistance
           [detection [1%Qc; 0%Qc]] [matchedWith dad (detection [1%Qc; 0%Qc])]
           (familyWorld (fm_id dad) dad) (familyWorld (fm_id dad) dad)).
  exact dad_recognised.
Defined.

(** A printer for the two descriptors [parseKnown] knows. *)
Definition printKnown (d : Descriptor) : string :=
  match d with
  | x :: _ => if Qeq_bool x 1 then "[1,0]" else "[0,1]"
  | [] => "[]"
  end.

Lemma saveFamilyMember_then_matchFaces_witness :
  ∃ w1 m,
    saveFamilyMember printKnown 1700000000300 "k3j9x0q2a" 1700000000301 "Dad"
                     [1%Qc; 0%Qc] None (emptyWorld (fun path => path)) = (w1, Ok m)
    ∧ matchFaces codeUnitCompare parseKnown froundExact meanSquaredDistance
                 [detection [1%Qc; 0%Qc]] w1
      = (w1, Ok [matchedWith m (detection [1%Qc; 0%Qc])]).
Proof.
  destruct (saveFamilyMember_then_matchFaces parseKnown froundExact printKnown
              codeUnitCompare
              meanSquaredDistance 1700000000300 "k3j9x0q2a" 1700000000301 "Dad"
              [1%Qc; 0%Qc] None [detection [1%Qc; 0%Qc]] (emptyWorld (fun path => path)))
    as (w1 & m & Hsave & _ & _ & Hmatch).
  - exact meanSquaredDistance_self.
  - reflexivity.
  - reflexivity.
  - reflexivity.
  - vm_compute; reflexivity.
  - repeat constructor.
  - exists w1, m. split; [exact Hsave|exact Hmatch].
Defined.

(** A member enrolled in the oldest format, with a single descriptor and
    a single photo. *)
Definition grandpa : FamilyMember :=
  {| fm_id := "family-1600000000000-oldest000"; fm_name := "Grandpa";
     descriptorStrings := None; photoUrls := None; fm_createdAt := 1600000000000;
     descriptor := Some [0%Qc; 1%Qc]; descriptors := None;
     photoUrl := Some "https://blobs.example/grandpa-first.jpg" |}.

Lemma addFamilyMemberPhoto_descriptors_witness :
  getMemberDescriptors parseKnown froundExact grandpa = Ok [[0%Qc; 1%Qc]]
  ∧ ∃ m', familyDocs (addFamilyMemberPhoto printKnown (fm_id grandpa) [1%Qc; 0%Qc]
                        "https://blobs.example/grandpa.jpg"
                        (familyWorld (fm_id grandpa) grandpa)).1 !! fm_id grandpa
          = Some m'
          ∧ photoUrls m' = Some ["https://blobs.example/grandpa-first.jpg";
                                 "https://blobs.example/grandpa.jpg"]
          ∧ getMemberDescriptors parseKnown froundExact m' = Ok [[1%Qc; 0%Qc]].
Proof.
  split; [reflexivity|].
  destruct (addFamilyMemberPhoto_descriptors parseKnown froundExact printKnown
              (fm_id grandpa) [1%Qc; 0%Qc] "https://blobs.example/grandpa.jpg"
              (familyWorld (fm_id grandpa) grandpa) eq_refl) as (_ & _ & Hmember).
  destruct (Hmember grandpa [[0%Qc; 1%Qc]])
    as (m' & Hdocs & _ & _ & _ & _ & Hlegacy & Hown).
  - unfold familyWorld. cbn [familyDocs]. apply lookup_singleton_eq.
  - intros a [->|Ha]; [reflexivity|]. simpl in Ha. by apply elem_of_nil in Ha.
  - reflexivity.
  - exists m'. split; [|split; [exact (Hlegacy eq_refl)|exact Hown]].
    rewrite Hdocs. apply lookup_insert_eq.
Defined.

Lemma createFamilyMember_then_deleteFamilyMember_witness :
  ∃ w1 m,
    createFamilyMember 1700000000400 "z9y8x7w6v" 1700000000401 " Mom " parisWorld
    = (w1, Ok m)
    ∧ fm_name m = "Mom"
    ∧ deleteFamilyMember (fm_id m) w1 = (parisWorld, Ok ()).
Proof.
  destruct (createFamilyMember_then_deleteFamilyMember parseKnown froundExact codeUnitCompare
              1700000000400 "z9y8x7w6v" 1700000000401 " Mom " parisWorld eq_refl)
    as (w1 & m & Hrun & _ & Hname & _ & _ & Hdel).
  - unfold parisWorld. cbn [familyDocs]. apply lookup_singleton_ne. discriminate.
  - exists w1, m. split; [exact Hrun|]. split; [|exact Hdel]. rewrite Hname. reflexivity.
Defined.

Lemma parisPanel_active : CountryPanel.activePhoto parisPanel = Some paris.
Proof. vm_compute; reflexivity. Qed.

Lemma parisWorld_stored : photoDocs parisWorld !! id paris = Some paris.
Proof. unfold parisWorld. cbn [photoDocs]. apply lookup_singleton_eq. Qed.

Lemma handleDeletePhoto_outcomes_witness :
  ∃ w' st',
    PanelHandlers.handleDeletePhoto (id paris) parisPanel parisWorld = (w', Ok st')
    ∧ CountryPanel.activePhoto st' = None
    ∧ photoDocs w' = delete (id paris) (photoDocs parisWorld).
Proof.
  destruct (PanelMoreFacts.handleDeletePhoto_outcomes (id paris) parisPanel parisWorld
              eq_refl) as [_ Hok].
  destruct (Hok parisFile) as (w' & st' & Hrun & Hdocs & _ & _ & Hactive & _).
  - unfold parisWorld. cbn [objects]. apply lookup_singleton_eq.
  - exists w', st'. split; [exact Hrun|]. split; [|exact Hdocs].
    apply Hactive. reflexivity.
Defined.

Lemma removePerson_tag_write_fails_witness :
  ∃ w' st' active',
    CountryPanel.removePerson (fm_id dad) parisPanel offlineWorld = (w', Ok st')
    ∧ CountryPanel.activePhoto st' = Some active'
    ∧ faceTags active' = [dadTag; momTag]
    ∧ ∃ dfs, detectedFaces active' = Some dfs
             ∧ Forall (fun df => assignedMemberId df ≠ Some (fm_id dad)) dfs.
Proof.
  destruct (PanelMoreFacts.removePerson_tag_write_fails (fm_id dad) "unavailable"
              parisPanel offlineWorld paris paris)
    as (w' & st' & active' & stored' & dfs & Hrun & Hactive & _ & Htags & _ & Hfaces & _
        & Hcleared).
  - exact parisPanel_active.
  - reflexivity.
  - exact parisWorld_stored.
  - discriminate.
  - exists w', st', active'. split; [exact Hrun|]. split; [exact Hactive|].
    split; [exact Htags|]. exists dfs. split; [exact Hfaces|].
    eapply Forall2_Forall_r; [exact Hcleared|].
    apply Forall_forall. intros df _ df' [H|[Hne ->]].
    + destruct H as (_ & Hnone & _). rewrite Hnone. discriminate.
    + exact Hne.
Defined.

Definition kid : FamilyMember :=
  {| fm_id := "family-1700000000002-kid000000"; fm_name := "Kid";
     descriptorStrings := Some []; photoUrls := Some []; fm_createdAt := 1700000000002;
     descriptor := None; descriptors := None; photoUrl := None |}.

Lemma addPersonManual_tags_once_witness :
  ∃ w1 st1 active1,
    PanelHandlers.addPersonManual [dad; kid] (fm_id kid) parisPanel parisWorld
    = (w1, Ok st1)
    ∧ CountryPanel.activePhoto st1 = Some active1
    ∧ memberId <$> faceTags active1 = [fm_id dad; memberId momTag; fm_id kid]
    ∧ PanelHandlers.addPersonManual [dad; kid] (fm_id kid) st1 w1 = (w1, Ok st1).
Proof.
  destruct (PanelMoreFacts.addPersonManual_tags_once [dad; kid] (fm_id kid) parisPanel
              parisWorld paris paris parisPanel_active eq_refl parisWorld_stored)
    as (w1 & st1 & active1 & Hrun & Hactive & Hagain & _ & _ & Hmember).
  destruct (Hmember kid eq_refl) as (_ & Hnew).
  destruct (Hnew eq_refl) as ((b & Htags & _) & _).
  exists w1, st1, active1. split; [exact Hrun|]. split; [exact Hactive|]. split.
  - rewrite Htags. reflexivity.
  - specialize (Hagain (pending w1)). by destruct w1.
Defined.

Definition closeTagger (st : CountryPanel.Panel) : io CountryPanel.Panel := mret st.

Lemma autoApplySuggestions_outcomes_witness :
  ∃ w' st' shown,
    PanelHandlers.autoApplySuggestions codeUnitCompare closeTagger parisPanel parisWorld
    = (w', Ok st')
    ∧ CountryPanel.activePhoto st' = Some shown
    ∧ photoDocs w' !! id paris = Some shown.
Proof.
  destruct (PanelMoreFacts.autoApplySuggestions_outcomes codeUnitCompare closeTagger
              parisPanel parisWorld paris paris "unavailable" parisPanel_active)
    as (Hok & _ & _).
  - discriminate.
  - exact parisWorld_stored.
  - destruct (Hok eq_refl) as (w' & st' & Hrun & Hactive & Hstored).
    eexists w', st', _. split; [exact Hrun|]. split; [exact Hactive|exact Hstored].
Defined.





Lemma appearances_by_photo_witness :
  Pages.appearances [paris] (fm_id dad) = HeldNumber 1.
Proof.
  destruct (PagesFacts.appearances_by_photo [paris] (fm_id dad) eq_refl) as [Hcount _].
  rewrite Hcount. reflexivity.
Defined.

Definition anyQuery (c : Country) : bool := true.

Lemma addOptions_accepted_witness :
  ∃ d', addCountry unmapped codeUnitCompare (Some lisbonTrips) "FR" = Some d'
        ∧ length (visited d') = 2%nat.
Proof.
  destruct (PagesFacts.addOptions_accepted unmapped codeUnitCompare anyQuery lisbonTrips
              france)
    as [_ Haccepted].
  - apply (list_elem_of_lookup_2 _ 21%nat). vm_compute; reflexivity.
  - destruct Haccepted as (d' & Hadd & Hlen & _).
    + repeat constructor.
    + exists d'. split; [exact Hadd|exact Hlen].
Defined.

End MoreExamples.
